(** * The recipe-module loader of recipe_engine (loader.py)

    A shallow embedding of the module loader: dependency specifiers and
    their resolution against the module search path, the memoising
    [RecipeUniverse.load] with its cycle check, the patch-up pass over a
    freshly imported module, the generic [DependencyMapper], the property
    injector [invoke_with_properties] and the two API composers
    [create_recipe_api] / [create_test_api]. *)

From stdpp Require Import gmap strings list fin_maps.
From Stdlib Require Import Ascii String.

Local Open Scope string_scope.

(** ** Outcomes of Python code

    A call either returns a value, raises an exception, or -- an artefact of
    the model only -- exhausts the recursion budget it was given. *)

Inductive exn : Type :=
  | AssertionError (msg : string)
  | NoSuchRecipe (msg : string)
  | UndefinedPropertyException (msg : string)
  | AttributeError (msg : string)
  | ImportError (msg : string)
  | ValueError (msg : string)
  | TypeError (msg : string)
  | IndexError (msg : string)
  | UnboundLocalError (msg : string).

Inductive outcome (A : Type) : Type :=
  | Ok (a : A)
  | Raise (e : exn)
  | OutOfFuel.
Arguments Ok {A} a.
Arguments Raise {A} e.
Arguments OutOfFuel {A}.

Definition is_ok {A} (r : outcome A) : bool :=
  match r with Ok _ => true | _ => false end.

Definition is_raise {A} (r : outcome A) : bool :=
  match r with Raise _ => true | _ => false end.

(** State-and-exception computations: the state survives a raise, as the
    heap of a Python process does. *)
Definition M (S A : Type) : Type := S -> S * outcome A.

Definition ret {S A} (a : A) : M S A := fun s => (s, Ok a).
Definition raise {S A} (e : exn) : M S A := fun s => (s, Raise e).
Definition bind {S A B} (c : M S A) (k : A -> M S B) : M S B :=
  fun s =>
    match c s with
    | (s', Ok a) => k a s'
    | (s', Raise e) => (s', Raise e)
    | (s', OutOfFuel) => (s', OutOfFuel)
    end.

Notation "x <- c ;; k" := (bind c (fun x => k))
  (at level 100, c at next level, right associativity).

(** ** os.path on POSIX strings *)

Module os_path.

Definition is_slash (c : ascii) : bool := Ascii.eqb c "/"%char.
Definition is_dot (c : ascii) : bool := Ascii.eqb c "."%char.

Fixpoint drop_while (f : ascii -> bool) (l : list ascii) : list ascii :=
  match l with
  | [] => []
  | c :: l' => if f c then drop_while f l' else l
  end.

Fixpoint take_while (f : ascii -> bool) (l : list ascii) : list ascii :=
  match l with
  | [] => []
  | c :: l' => if f c then c :: take_while f l' else []
  end.

(** [p[:i]] and [p[i:]] for [i = p.rfind(c) + 1]. *)
Definition upto_last (f : ascii -> bool) (l : list ascii) : list ascii :=
  rev (drop_while (fun c => negb (f c)) (rev l)).
Definition after_last (f : ascii -> bool) (l : list ascii) : list ascii :=
  rev (take_while (fun c => negb (f c)) (rev l)).

Definition rstrip (f : ascii -> bool) (l : list ascii) : list ascii :=
  rev (drop_while f (rev l)).

Definition isabs (p : string) : bool :=
  match p with
  | String c _ => is_slash c
  | EmptyString => false
  end.

Definition endswith_slash (p : string) : bool :=
  match rev (list_ascii_of_string p) with
  | c :: _ => is_slash c
  | [] => false
  end.

(** [os.path.join(a, b)] *)
Definition join (a b : string) : string :=
  if isabs b then b
  else if (String.eqb a "" || endswith_slash a)%bool then String.append a b
  else String.append a (String.append "/" b).

(** [os.path.basename(p)] *)
Definition basename (p : string) : string :=
  string_of_list_ascii (after_last is_slash (list_ascii_of_string p)).

(** [os.path.dirname(p)] *)
Definition dirname (p : string) : string :=
  let head := upto_last is_slash (list_ascii_of_string p) in
  string_of_list_ascii
    (if (negb (Nat.eqb (List.length head) 0) && negb (forallb is_slash head))%bool
     then rstrip is_slash head
     else head).

(** [os.path.splitext(p)[0]] *)
Definition splitext_root (p : string) : string :=
  let l := list_ascii_of_string p in
  let file := after_last is_slash l in
  if existsb is_dot file then
    let stem := rstrip (fun c => negb (is_dot c)) file in
    (* [stem] ends with the last dot of the file name *)
    let before := removelast stem in
    if existsb (fun c => negb (is_dot c)) before
    then string_of_list_ascii (List.app (upto_last is_slash l) before)
    else p
  else p.

End os_path.

(** ** Strings *)

(** ['/' in name] *)
Fixpoint has_slash (s : string) : bool :=
  match s with
  | EmptyString => false
  | String c s' => if os_path.is_slash c then true else has_slash s'
  end.

(** [name.split('/')] *)
Fixpoint split_slash (s : string) : list string :=
  match s with
  | EmptyString => [""]
  | String c s' =>
      if os_path.is_slash c then "" :: split_slash s'
      else match split_slash s' with
           | [] => [String c ""]
           | p :: ps => String c p :: ps
           end
  end.

(** ** The environment of a universe

    The file system is seen through the three questions the loader asks of
    it.  [import_package p] is the module object that importing the package
    directory [p] produces (with the children [_recursive_import] binds on
    it already in place), or [None] when the import fails. *)

(** A module object is referred to by the key it has in [sys.modules]. *)
Definition ModRef : Type := string.

(** The value of a module's [DEPS]: a list of names, a dict from local name
    to name, or something that is neither. *)
Inductive DepSpec : Type :=
  | SpecList (items : list string)
  | SpecDict (items : gmap string string)
  | SpecOther.

(** Values passed as arguments and properties. *)
Inductive PyVal : Type :=
  | PyNone
  | PyInt (n : Z)
  | PyStr (s : string)
  | PyModule (m : ModRef)
  | PyEngine
  | PyTestData (scope : option string).

(** A class found in a module: its name, whether it is a subclass of
    [RecipeApiPlain] and of [RecipeTestApi], and what
    [inspect.getargspec(cls.__init__)] reports ([args] and [defaults]). *)
Record Class : Type := mkClass {
  cls_name : string;
  cls_is_api : bool;
  cls_is_test_api : bool;
  cls_init_args : list string;
  cls_init_defaults : list PyVal
}.

(** A value bound in a module's namespace. *)
Inductive Member : Type :=
  | MClass (c : Class)
  | MConfigContext (id : string)
  | MOther (truth : bool).

(** A property declaration.  The class [Property] lives in recipe_api.py;
    the loader uses its [name] attribute and its [interpret] method, which
    receives the supplied value, or [None] for [Property.sentinel]. *)
Record Property : Type := mkProperty {
  prop_name : option string;
  interpret : option PyVal -> outcome PyVal
}.

(** A module object, by the attributes the loader reads and writes.
    [CONFIG_CTX], [API] and [TEST_API] are always read through
    [getattr(_, _, None)], so an absent attribute and [None] coincide.
    [config], [api], [test_api] are the values of the [__dict__] of the
    child modules of these names, when present.  ([MODULE_DIRECTORY] is
    written by the patch-up and read by no code of the loader.) *)
Record Module : Type := mkModule {
  DEPS : option DepSpec;
  LOADED_DEPS : gmap string ModRef;
  NAME : option string;
  UNIQUE_NAME : option string;
  CONFIG_CTX : option Member;
  API : option Member;
  TEST_API : option Member;
  PROPERTIES : option (gmap string Property);
  config : option (list Member);
  api : option (list Member);
  test_api : option (list Member)
}.

Record PackageDeps : Type := mkPackageDeps {
  all_module_dirs : list string;
  all_recipe_dirs : list string;
  (** [get_package(package).module_path(module)] *)
  module_path : string -> string -> outcome string
}.

Record Env : Type := mkEnv {
  isdir : string -> bool;
  isfile : string -> bool;
  import_package : string -> option Module;
  package_deps : PackageDeps;
  RECIPE_MODULE_PREFIX : string
}.

Definition module_dirs (E : Env) : list string := all_module_dirs (package_deps E).

(** ** Dependencies *)

(** [PathDependency] and its two subclasses store a path and a local name;
    [unique_name] is the path. *)
Record Dependency : Type := mkDependency {
  _path : string;
  _local_name : string
}.

Definition unique_name (dep : Dependency) : string := _path dep.
Definition local_name (dep : Dependency) : string := _local_name dep.

Definition _is_recipe_module_dir (E : Env) (path : string) : bool :=
  isdir E path && isfile E (os_path.join path "__init__.py").

(** [str] of a list of strings, as ['%s'] prints it. *)
Definition str_list (l : list string) : string :=
  String.append "["
    (String.append (String.concat ", " (map (fun s => String.append "'" (String.append s "'")) l))
       "]").

(** [PathDependency.__init__] *)
Definition PathDependency (E : Env) (path local_name : string) : outcome Dependency :=
  if negb (os_path.isabs path) then
    Raise (AssertionError
      (String.append "Path dependencies must be absolute, but "
         (String.append path " is not")))
  else
    let mod_dir := os_path.dirname path in
    if negb (bool_decide (mod_dir ∈ module_dirs E)) then
      Raise (AssertionError
        (String.append "Modules living outside of approved directories are forbidden: "
           (String.append mod_dir
              (String.append " is not in " (str_list (module_dirs E))))))
    else Ok {| _path := path; _local_name := local_name |}.

(** The loop of [NamedDependency.__init__] over the remaining search roots. *)
Fixpoint NamedDependency_scan (E : Env) (name : string) (dirs : list string)
  : outcome Dependency :=
  match dirs with
  | [] =>
      Raise (NoSuchRecipe
        (String.append "Recipe module named " (String.append name " does not exist")))
  | path :: dirs' =>
      let mod_path := os_path.join path name in
      if _is_recipe_module_dir E mod_path
      then PathDependency E mod_path name
      else NamedDependency_scan E name dirs'
  end.

(** [NamedDependency.__init__] *)
Definition NamedDependency (E : Env) (name : string) : outcome Dependency :=
  NamedDependency_scan E name (module_dirs E).

(** [PackageDependency.__init__] *)
Definition PackageDependency (E : Env) (package module local_name : string)
  : outcome Dependency :=
  match module_path (package_deps E) package module with
  | Ok mod_path => PathDependency E mod_path local_name
  | Raise e => Raise e
  | OutOfFuel => OutOfFuel
  end.

(** [RecipeUniverse._dep_from_name] *)
Definition _dep_from_name (E : Env) (name : string) : outcome (string * Dependency) :=
  if has_slash name then
    match split_slash name with
    | [package; module] =>
        match PackageDependency E package module module with
        | Ok dep => Ok (module, dep)
        | Raise e => Raise e
        | OutOfFuel => OutOfFuel
        end
    | _ => Raise (ValueError "too many values to unpack")
    end
  else
    match NamedDependency E name with
    | Ok dep => Ok (name, dep)
    | Raise e => Raise e
    | OutOfFuel => OutOfFuel
    end.

(** ** Patch-up of an imported module *)

(** Python truthiness of an attribute value: classes and plain objects such
    as a configuration context are true. *)
Definition truthy (v : option Member) : bool :=
  match v with
  | None => false
  | Some (MClass _) => true
  | Some (MConfigContext _) => true
  | Some (MOther b) => b
  end.

(** [isinstance(v, ConfigContext)] *)
Definition is_config_context (v : Member) : bool :=
  match v with MConfigContext _ => true | _ => false end.

(** [inspect.isclass(v) and issubclass(v, RecipeApiPlain)] *)
Definition is_api_class (v : Member) : bool :=
  match v with MClass c => cls_is_api c | _ => false end.

(** [inspect.isclass(v) and issubclass(v, RecipeTestApi)] *)
Definition is_test_api_class (v : Member) : bool :=
  match v with MClass c => cls_is_test_api c | _ => false end.

(** One of the three scanning loops of [_patchup_module]: every value that
    passes [sel] is bound to the slot, after asserting that the slot is
    still false.  The messages keep the constant text of the source's
    format strings. *)
Fixpoint scan_members (sel : Member -> bool) (msg : string)
    (vs : list Member) (slot : option Member) : option Member * outcome unit :=
  match vs with
  | [] => (slot, Ok tt)
  | v :: vs' =>
      if sel v then
        if truthy slot then (slot, Raise (AssertionError msg))
        else scan_members sel msg vs' (Some v)
      else scan_members sel msg vs' slot
  end.

Definition set_name (name : string) (p : Property) : Property :=
  {| prop_name := Some name; interpret := interpret p |}.

(** Attribute assignment on a module object. *)
Definition with_NAME (v : string) (m : Module) : Module :=
  mkModule (DEPS m) (LOADED_DEPS m) (Some v) (Some v) (CONFIG_CTX m) (API m)
           (TEST_API m) (PROPERTIES m) (config m) (api m) (test_api m).
Definition with_LOADED_DEPS (v : gmap string ModRef) (m : Module) : Module :=
  mkModule (DEPS m) v (NAME m) (UNIQUE_NAME m) (CONFIG_CTX m) (API m)
           (TEST_API m) (PROPERTIES m) (config m) (api m) (test_api m).
Definition with_CONFIG_CTX (v : option Member) (m : Module) : Module :=
  mkModule (DEPS m) (LOADED_DEPS m) (NAME m) (UNIQUE_NAME m) v (API m)
           (TEST_API m) (PROPERTIES m) (config m) (api m) (test_api m).
Definition with_API (v : option Member) (m : Module) : Module :=
  mkModule (DEPS m) (LOADED_DEPS m) (NAME m) (UNIQUE_NAME m) (CONFIG_CTX m) v
           (TEST_API m) (PROPERTIES m) (config m) (api m) (test_api m).
Definition with_TEST_API (v : option Member) (m : Module) : Module :=
  mkModule (DEPS m) (LOADED_DEPS m) (NAME m) (UNIQUE_NAME m) (CONFIG_CTX m) (API m)
           v (PROPERTIES m) (config m) (api m) (test_api m).
Definition with_PROPERTIES (v : gmap string Property) (m : Module) : Module :=
  mkModule (DEPS m) (LOADED_DEPS m) (NAME m) (UNIQUE_NAME m) (CONFIG_CTX m) (API m)
           (TEST_API m) (Some v) (config m) (api m) (test_api m).

Definition modify {S} (f : S -> S) : M S unit := fun s => (f s, Ok tt).
Definition reads {S A} (f : S -> A) : M S A := fun s => (s, Ok (f s)).
Definition assert {S} (b : bool) (msg : string) : M S unit :=
  if b then ret tt else raise (AssertionError msg).

(** A scanning loop run on an attribute of the module object. *)
Definition scan_attr (get : Module -> option Member)
    (set : option Member -> Module -> Module)
    (sel : Member -> bool) (msg : string) (vs : list Member) : M Module unit :=
  fun submod =>
    let '(slot, r) := scan_members sel msg vs (get submod) in
    (set slot submod, r).

(** [_patchup_module(name, submod)], as a computation on the module object. *)
Definition _patchup_module (name : string) : M Module unit :=
  _ <- modify (with_NAME name) ;;
  (* submod.CONFIG_CTX = getattr(submod, 'CONFIG_CTX', None) *)
  cfg <- reads config ;;
  _ <- match cfg with
       | Some vs =>
           _ <- scan_attr CONFIG_CTX with_CONFIG_CTX is_config_context
                  "More than one configuration context" vs ;;
           ctx <- reads CONFIG_CTX ;;
           assert (truthy ctx) "Config file, but no config context?"
       | None => ret tt
       end ;;
  (* submod.API = getattr(submod, 'API', None) *)
  a <- reads api ;;
  _ <- match a with
       | Some vs =>
           scan_attr API with_API is_api_class "has more than one Api subclass" vs
       | None => raise (AttributeError "'module' object has no attribute 'api'")
       end ;;
  cls <- reads API ;;
  _ <- assert (truthy cls) "Submodule has no api?" ;;
  (* submod.TEST_API = getattr(submod, 'TEST_API', None) *)
  t <- reads test_api ;;
  _ <- match t with
       | Some vs =>
           _ <- scan_attr TEST_API with_TEST_API is_test_api_class
                  "More than one TestApi subclass" vs ;;
           cls <- reads API ;;
           assert (truthy cls) "Submodule has test_api.py but no TestApi subclass?"
       | None => ret tt
       end ;;
  (* submod.PROPERTIES = getattr(submod, 'PROPERTIES', {}) *)
  props <- reads (fun submod => default ∅ (PROPERTIES submod)) ;;
  modify (with_PROPERTIES (map_imap (fun k p => Some (set_name k p)) props)).

(** ** The universe *)

(** The mutable state a load runs on: the universe's table [_loaded]
    ([Some None] is the placeholder [None] stored while a load is in
    progress) and the interpreter's [sys.modules]. *)
Record State : Type := mkState {
  _loaded : gmap string (option ModRef);
  sys_modules : gmap string Module
}.

Definition set_loaded (name : string) (v : option ModRef) (st : State) : State :=
  {| _loaded := <[name := v]> (_loaded st); sys_modules := sys_modules st |}.

Definition set_module (ref : ModRef) (m : Module) (st : State) : State :=
  {| _loaded := _loaded st; sys_modules := <[ref := m]> (sys_modules st) |}.

(** A fresh [RecipeUniverse] in an interpreter that imported nothing yet. *)
Definition empty_state : State := {| _loaded := ∅; sys_modules := ∅ |}.

(** [_find_and_load_module(fullname, modname, path)] *)
Definition _find_and_load_module (E : Env) (fullname modname path : string)
  : M State ModRef := fun st =>
  match sys_modules st !! fullname with
  | Some _ => (st, Ok fullname)
  | None =>
      match import_package E (os_path.join (os_path.dirname path) modname) with
      | Some m => (set_module fullname m st, Ok fullname)
      | None => (st, Raise (ImportError (String.append "No module named " modname)))
      end
  end.

(** Running a computation on one module object of [sys.modules].  (A
    reference always comes from [_find_and_load_module], so the object is
    there; the other case only makes the function total.) *)
Definition on_module {A} (ref : ModRef) (c : M Module A) : M State A := fun st =>
  match sys_modules st !! ref with
  | Some m => let '(m', r) := c m in (set_module ref m' st, r)
  | None => (st, Raise (AttributeError "no such module object"))
  end.

Section open_recursion.
Variable E : Env.
(** [universe.load], as seen from the code it calls back from. *)
Variable load : Dependency -> M State ModRef.

(** The first loop of [deps_from_spec] ("automatic local names"). *)
Fixpoint deps_from_list (spec : list string) (deps : gmap string ModRef)
  : M State (gmap string ModRef) :=
  match spec with
  | [] => ret deps
  | item :: spec' =>
      fun st =>
        match _dep_from_name E item with
        | Ok (name, dep) =>
            (m <- load dep ;; deps_from_list spec' (<[name := m]> deps)) st
        | Raise e => (st, Raise e)
        | OutOfFuel => (st, OutOfFuel)
        end
  end.

(** The second loop of [deps_from_spec] ("explicit local names"), over
    the items of the dict. *)
Fixpoint deps_from_items (spec : list (string * string)) (deps : gmap string ModRef)
  : M State (gmap string ModRef) :=
  match spec with
  | [] => ret deps
  | (name, item) :: spec' =>
      fun st =>
        match _dep_from_name E item with
        | Ok (_, dep) =>
            (m <- load dep ;; deps_from_items spec' (<[name := m]> deps)) st
        | Raise e => (st, Raise e)
        | OutOfFuel => (st, OutOfFuel)
        end
  end.

(** [RecipeUniverse.deps_from_spec] *)
Definition deps_from_spec_with (spec : DepSpec) : M State (gmap string ModRef) :=
  match spec with
  | SpecList items => deps_from_list items ∅
  | SpecDict items => deps_from_items (map_to_list items) ∅
  | SpecOther =>
      raise (UnboundLocalError "local variable 'deps' referenced before assignment")
  end.

(** [_load_recipe_module_module(path, universe)], which is what
    [PathDependency.load] runs.  [_recursive_import] is seen through its
    result, the children bound on the module object ([import_package]
    gives the object with them); the entry it is given in [sys.modules]
    for the loaded dependencies and the saving of [sys.path] touch
    nothing the loader reads. *)
Definition _load_recipe_module_module_with (path : string) : M State ModRef :=
  let modname := os_path.splitext_root (os_path.basename path) in
  let fullname :=
    String.append (RECIPE_MODULE_PREFIX E) (String.append "." modname) in
  md <- _find_and_load_module E fullname modname path ;;
  (* mod.LOADED_DEPS = universe.deps_from_spec(getattr(mod, 'DEPS', [])) *)
  spec <- on_module md (reads (fun m => default (SpecList []) (DEPS m))) ;;
  deps <- deps_from_spec_with spec ;;
  _ <- on_module md (modify (with_LOADED_DEPS deps)) ;;
  _ <- on_module md (_patchup_module modname) ;;
  ret md.
End open_recursion.

(** [RecipeUniverse.load].  [fuel] bounds the nesting of loads. *)
Fixpoint load (E : Env) (fuel : nat) (dep : Dependency) : M State ModRef :=
  match fuel with
  | 0 => fun st => (st, OutOfFuel)
  | S fuel' => fun st =>
      let name := unique_name dep in
      match _loaded st !! name with
      | Some (Some md) => (st, Ok md)
      | Some None =>
          (st, Raise (AssertionError
                 (String.append "Cyclic dependency when trying to load " name)))
      | None =>
          match _load_recipe_module_module_with E (load E fuel') (_path dep)
                  (set_loaded name None st) with
          | (st', Ok md) => (set_loaded name (Some md) st', Ok md)
          | (st', r) => (st', r)
          end
      end
  end.

Definition deps_from_spec (E : Env) (fuel : nat) : DepSpec -> M State (gmap string ModRef) :=
  deps_from_spec_with E (load E fuel).

Definition _load_recipe_module_module (E : Env) (fuel : nat) : string -> M State ModRef :=
  _load_recipe_module_module_with E (load E fuel).

(** A sequence of top-level [load] calls on one universe; a call that
    raises leaves its state behind for the next one. *)
Fixpoint load_all (E : Env) (fuel : nat) (deps : list Dependency) (st : State) : State :=
  match deps with
  | [] => st
  | dep :: deps' => load_all E fuel deps' (fst (load E fuel dep st))
  end.

(** ** Example module trees

    A search root [/r/recipe_modules] holding packages given as a list of
    (name, module object as imported). *)

Definition example_api_class (name : string) : Class :=
  {| cls_name := name; cls_is_api := true; cls_is_test_api := false;
     cls_init_args := ["self"; "module"; "engine"; "test_data"];
     cls_init_defaults := [PyNone; PyNone; PyNone] |}.

Definition example_test_class (name : string) : Class :=
  {| cls_name := name; cls_is_api := false; cls_is_test_api := true;
     cls_init_args := ["self"; "module"];
     cls_init_defaults := [PyNone] |}.

(** A package whose [__init__.py] sets [DEPS] and whose [api.py] defines
    one capability class. *)
Definition example_module (name : string) (deps : list string) : string * Module :=
  (name,
   {| DEPS := Some (SpecList deps); LOADED_DEPS := ∅; NAME := None;
      UNIQUE_NAME := None; CONFIG_CTX := None; API := None; TEST_API := None;
      PROPERTIES := None; config := None;
      api := Some [MOther true; MClass (example_api_class name)];
      test_api := None |}).

Definition example_root : string := "/r/recipe_modules".

Definition example_env (mods : list (string * Module)) : Env :=
  let paths := map (fun nm => os_path.join example_root (fst nm)) mods in
  {| isdir := fun p => bool_decide (p ∈ example_root :: paths);
     isfile := fun p =>
       bool_decide (p ∈ map (fun d => os_path.join d "__init__.py") paths);
     import_package := fun p =>
       (list_to_map (map (fun nm => (os_path.join example_root (fst nm), snd nm)) mods)
          : gmap string Module) !! p;
     package_deps :=
       {| all_module_dirs := ["/nowhere"; example_root];
          all_recipe_dirs := [];
          module_path := fun _ _ => Raise (ValueError "no such package") |};
     RECIPE_MODULE_PREFIX := "RECIPE_MODULES" |}.

Definition example_dep (name : string) : Dependency :=
  {| _path := os_path.join example_root name; _local_name := name |}.

(** Two search roots that both hold a package [step], and only the
    second a package [path]. *)
Definition env_two_roots : Env :=
  {| isdir := fun p =>
       bool_decide (p ∈ ["/first"; "/first/step"; "/second"; "/second/step";
                         "/second/path"]);
     isfile := fun p =>
       bool_decide (p ∈ ["/first/step/__init__.py"; "/second/step/__init__.py";
                         "/second/path/__init__.py"]);
     import_package := fun _ => None;
     package_deps :=
       {| all_module_dirs := ["/first"; "/second"];
          all_recipe_dirs := [];
          module_path := fun _ _ => Raise (ValueError "no such package") |};
     RECIPE_MODULE_PREFIX := "RECIPE_MODULES" |}.

(** a -> b -> a *)
Definition env_cycle : Env :=
  example_env [example_module "a" ["b"]; example_module "b" ["a"]].

(** a -> b -> c *)
Definition env_chain : Env :=
  example_env [example_module "a" ["b"]; example_module "b" ["c"];
               example_module "c" []].

(** d -> b, c;  b -> a;  c -> a *)
Definition env_diamond : Env :=
  example_env [example_module "a" []; example_module "b" ["a"];
               example_module "c" ["a"]; example_module "d" ["b"; "c"]].

(** ** DependencyMapper *)

Section DependencyMapper.
(** The instances built, and the state the instantiator callback works
    on. *)
Context {Inst St : Type}.
(** [mod.LOADED_DEPS] of every module object. *)
Variable deps_of : ModRef -> gmap string ModRef.
(** [self._instantiator] *)
Variable _instantiator : ModRef -> gmap string Inst -> M St Inst.

Record Mapper : Type := mkMapper {
  _instances : gmap ModRef Inst;
  outer : St
}.

(** [DependencyMapper(instantiator)] *)
Definition new_mapper (e : St) : Mapper := {| _instances := ∅; outer := e |}.

Definition call_instantiator (md : ModRef) (deps_dict : gmap string Inst)
  : M Mapper Inst := fun s =>
  let '(e, r) := _instantiator md deps_dict (outer s) in
  ({| _instances := _instances s; outer := e |}, r).

Definition set_instance (md : ModRef) (i : Inst) (s : Mapper) : Mapper :=
  {| _instances := <[md := i]> (_instances s); outer := outer s |}.

(** [{ name: self.instantiate(dep) for name, dep in items }], with
    [self.instantiate] given. *)
Fixpoint dict_comprehension (rec : ModRef -> M Mapper Inst)
    (items : list (string * ModRef)) (acc : gmap string Inst)
  : M Mapper (gmap string Inst) :=
  match items with
  | [] => ret acc
  | (name, dep) :: items' =>
      i <- rec dep ;;
      dict_comprehension rec items' (<[name := i]> acc)
  end.

(** [DependencyMapper.instantiate]; [fuel] is the depth of nested
    [instantiate] calls allowed. *)
Fixpoint instantiate (fuel : nat) (md : ModRef) : M Mapper Inst :=
  match fuel with
  | 0 => fun s => (s, OutOfFuel)
  | S fuel' => fun s =>
      match _instances s !! md with
      | Some i => (s, Ok i)
      | None =>
          (deps_dict <- dict_comprehension (instantiate fuel')
                          (map_to_list (deps_of md)) ∅ ;;
           i <- call_instantiator md deps_dict ;;
           _ <- modify (set_instance md i) ;;
           ret i) s
      end
  end.
End DependencyMapper.

Arguments Mapper : clear implicits.
Arguments mkMapper {Inst St} _ _.

(** *** Observing the instantiator

    One record per invocation of the callback: the module, the mapping it
    was given and what it returned.  The callback is a function of its
    arguments and its own state, so an invocation is over when the next
    one starts and the records are in the order of both. *)

Definition Call (Inst : Type) : Type := (ModRef * gmap string Inst * outcome Inst)%type.

Definition callee {Inst} (c : Call Inst) : ModRef := fst (fst c).

Definition logged {Inst St} (f : ModRef -> gmap string Inst -> M St Inst)
  : ModRef -> gmap string Inst -> M (list (Call Inst) * St) Inst :=
  fun md deps_dict s =>
    let '(e, r) := f md deps_dict (snd s) in
    (((fst s ++ [(md, deps_dict, r)])%list, e), r).

(** The states of a mapper made with [DependencyMapper(logged f)] and used
    through successful [instantiate] calls only. *)
Inductive mapper_reachable {Inst St} (deps_of : ModRef -> gmap string ModRef)
    (f : ModRef -> gmap string Inst -> M St Inst)
  : Mapper Inst (list (Call Inst) * St) -> Prop :=
  | reach_new e : mapper_reachable deps_of f (new_mapper ([], e))
  | reach_instantiate s fuel md s' i :
      mapper_reachable deps_of f s ->
      instantiate deps_of (logged f) fuel md s = (s', Ok i) ->
      mapper_reachable deps_of f s'.

(** Dependency chains: each module of the list depends on the next. *)
Fixpoint is_chain (deps_of : ModRef -> gmap string ModRef) (l : list ModRef) : Prop :=
  match l with
  | [] => True
  | m :: l' =>
      match l' with
      | [] => True
      | d :: _ => (exists k, deps_of m !! k = Some d) /\ is_chain deps_of l'
      end
  end.

(** Every dependency chain that starts at [m] has at most [n] modules. *)
Definition chains_bounded (deps_of : ModRef -> gmap string ModRef)
    (n : nat) (m : ModRef) : Prop :=
  forall l, is_chain deps_of (m :: l) -> List.length (m :: l) <= n.

(** A finite acyclic graph: all modules reachable from the listed ones are
    listed, and no chain returns to its first module. *)
Definition closed_under_deps (deps_of : ModRef -> gmap string ModRef)
    (nodes : list ModRef) : Prop :=
  forall m k d, m ∈ nodes -> deps_of m !! k = Some d -> d ∈ nodes.

Definition acyclic (deps_of : ModRef -> gmap string ModRef) : Prop :=
  forall m l, ~ is_chain deps_of ((m :: l) ++ [m])%list.

(** The boolean form of [chains_bounded]: every dependency has height below
    [n], recursively. *)
Fixpoint height_le (deps_of : ModRef -> gmap string ModRef) (n : nat) (m : ModRef)
  : bool :=
  match n with
  | 0 => false
  | S n' => forallb (fun kd => height_le deps_of n' (snd kd)) (map_to_list (deps_of m))
  end.

(** A graph given by its adjacency table. *)
Definition graph_of (g : list (ModRef * list (string * ModRef)))
  : ModRef -> gmap string ModRef :=
  fun m => list_to_map (default [] ((list_to_map g : gmap ModRef _) !! m)).

(** d -> b, c;  b -> a;  c -> a *)
Definition diamond_table : list (ModRef * list (string * ModRef)) :=
  [("a", []); ("b", [("a", "a")]); ("c", [("a", "a")]);
   ("d", [("b", "b"); ("c", "c")])].

Definition diamond : ModRef -> gmap string ModRef := graph_of diamond_table.

(** An instantiator that returns the names it was wired with. *)
Definition naming_instantiator : ModRef -> gmap string (list string) -> M unit (list string) :=
  fun md deps_dict => ret (md :: List.concat (snd <$> map_to_list deps_dict)).

(** [m] is reached from [md] along a dependency chain. *)
Definition reaches (deps_of : ModRef -> gmap string ModRef) (md m : ModRef) : Prop :=
  exists l, is_chain deps_of (md :: l) /\ last (md :: l) = Some m.

(** The log of a mapper made with a logged instantiator. *)
Definition log_of {Inst St} (s : Mapper Inst (list (Call Inst) * St)) : list (Call Inst) :=
  fst (outer s).

(** A table check that makes a graph acyclic: a rank that falls along every
    edge. *)
Definition rank_falls (g : list (ModRef * list (string * ModRef)))
    (rank : ModRef -> nat) : bool :=
  forallb (fun mds =>
    forallb (fun kd => Nat.ltb (rank (snd kd)) (rank (fst mds))) (snd mds)) g.

Definition diamond_rank (m : ModRef) : nat :=
  if String.eqb m "d" then 2
  else if (String.eqb m "b" || String.eqb m "c")%bool then 1 else 0.

(** The mapper after [DependencyMapper(logged naming_instantiator)
    .instantiate(d)] on the diamond. *)
Definition diamond_run : Mapper (list string) (list (Call (list string)) * unit) :=
  fst (instantiate diamond (logged naming_instantiator) 3 "d" (new_mapper ([], tt))).

(** ** invoke_with_properties *)

Section invoke.
(** The result type of the callable. *)
Context {R : Type}.

(** A callable: whether [inspect.isclass] holds of it, the [args] and
    [defaults] that [inspect.getargspec] reports (of [__init__] for a
    class, receiver included), and what calling it with positional and
    keyword arguments does. *)
Record Callable : Type := mkCallable {
  isclass : bool;
  argspec_args : list string;
  argspec_defaults : list PyVal;
  call : list PyVal -> gmap string PyVal -> outcome R
}.

(** The names the loop runs over: [arg_names], after [arg_names.pop(0)]
    for a class. *)
Definition arg_names_of (callable_obj : Callable) : outcome (list string) :=
  if isclass callable_obj then
    match argspec_args callable_obj with
    | [] => Raise (IndexError "pop from empty list")
    | _ :: arg_names => Ok arg_names
    end
  else Ok (argspec_args callable_obj).

Definition missing_property (arg : string) : exn :=
  UndefinedPropertyException
    (String.append "Missing property definition for '" (String.append arg "'.")).

(** The loop [for arg in arg_names], on the list [props] and the dict
    [additional_args] it updates. *)
Fixpoint resolve_args (all_props : gmap string PyVal)
    (prop_defs : gmap string Property) (arg_names : list string)
    (props : list PyVal) (additional_args : gmap string PyVal)
  : outcome (list PyVal * gmap string PyVal) :=
  match arg_names with
  | [] => Ok (props, additional_args)
  | arg :: arg_names' =>
      match additional_args !! arg with
      | Some v =>
          (* props.append(additional_args.pop(arg)) *)
          resolve_args all_props prop_defs arg_names'
            (props ++ [v])%list (delete arg additional_args)
      | None =>
          match prop_defs !! arg with
          | None => Raise (missing_property arg)
          | Some p =>
              match interpret p (all_props !! arg) with
              | Ok v =>
                  resolve_args all_props prop_defs arg_names'
                    (props ++ [v])%list additional_args
              | Raise e => Raise e
              | OutOfFuel => OutOfFuel
              end
          end
      end
  end.

Definition invoke_with_properties (callable_obj : Callable)
    (all_props : gmap string PyVal) (prop_defs : gmap string Property)
    (additional_args : gmap string PyVal) : outcome R :=
  match arg_names_of callable_obj with
  | Ok arg_names =>
      match resolve_args all_props prop_defs arg_names [] additional_args with
      | Ok (props, additional_args) => call callable_obj props additional_args
      | Raise e => Raise e
      | OutOfFuel => OutOfFuel
      end
  | Raise e => Raise e
  | OutOfFuel => OutOfFuel
  end.

(** *** The resolution rule in the spec's words

    Each parameter on its own: the extra arguments first, then the
    schema, then the supplied value through the property's rule. *)
Definition resolve_by_priority (all_props : gmap string PyVal)
    (prop_defs : gmap string Property) (extra : gmap string PyVal)
    (arg : string) : outcome PyVal :=
  match extra !! arg with
  | Some v => Ok v
  | None =>
      match prop_defs !! arg with
      | None => Raise (missing_property arg)
      | Some p => interpret p (all_props !! arg)
      end
  end.

(** Left to right, stopping at the first parameter that does not
    resolve. *)
Fixpoint resolve_all (resolve : string -> outcome PyVal) (names : list string)
  : outcome (list PyVal) :=
  match names with
  | [] => Ok []
  | arg :: names' =>
      match resolve arg with
      | Ok v =>
          match resolve_all resolve names' with
          | Ok vs => Ok (v :: vs)
          | Raise e => Raise e
          | OutOfFuel => OutOfFuel
          end
      | Raise e => Raise e
      | OutOfFuel => OutOfFuel
      end
  end.

(** The extra arguments that no parameter consumed. *)
Definition unconsumed (extra : gmap string PyVal) (names : list string)
  : gmap string PyVal :=
  foldr delete extra names.

Definition invoke_by_priority (callable_obj : Callable)
    (all_props : gmap string PyVal) (prop_defs : gmap string Property)
    (extra : gmap string PyVal) : outcome R :=
  match arg_names_of callable_obj with
  | Ok names =>
      match resolve_all (resolve_by_priority all_props prop_defs extra) names with
      | Ok props => call callable_obj props (unconsumed extra names)
      | Raise e => Raise e
      | OutOfFuel => OutOfFuel
      end
  | Raise e => Raise e
  | OutOfFuel => OutOfFuel
  end.
End invoke.

Arguments Callable : clear implicits.

(** Modelled from the spec: the class [Property] of recipe_api.py is not
    among the sources.  The spec gives a property "a default value or 'no
    default' (required)" and a rule that passes a supplied value on, falls
    back to the default when the value is unset, and "must itself raise if
    the property is required and unset". *)
Definition Property_with (default : option PyVal) : Property :=
  {| prop_name := None;
     interpret := fun value =>
       match value with
       | Some v => Ok v
       | None =>
           match default with
           | Some d => Ok d
           | None => Raise (ValueError "No default specified and no value provided")
           end
       end |}.

(** A function of two parameters that returns its positional arguments. *)
Definition example_function (args : list string) (defaults : list PyVal)
  : Callable (list PyVal * list (string * PyVal)) :=
  {| isclass := false; argspec_args := args; argspec_defaults := defaults;
     call := fun props kwargs => Ok (props, map_to_list kwargs) |}.

(** ** The API composers *)

Set Warnings "-register-all".

(** Instances.  An object is known by what it was constructed from and by
    the namespace [m] its dependencies are attached to; nothing attaches to
    an object after the instantiator that made it has returned, so the
    value of an object is final once it is handed out.

    Modelled from the spec: the constructors of [RecipeApi] and
    [RecipeTestApi] (recipe_api.py, recipe_test_api.py) are not among the
    sources.  Per the spec (4.4, 9) a constructed instance has a namespace,
    empty at construction, that maps local names to attached instances; the
    root object, made with [module=None], takes the attachments itself. *)
Inductive TestApi : Type := mkTestApi {
  (** the declared test-double class, or [None] for plain [RecipeTestApi] *)
  t_class : option Class;
  t_module : option ModRef;
  t_m : gmap string TestApi
}.

Inductive ApiObj : Type := mkApiObj {
  (** the capability class, or [None] for plain [RecipeApi] *)
  o_class : option Class;
  o_args : list PyVal;
  o_kwargs : gmap string PyVal;
  o_m : gmap string ApiObj;
  (** the attribute [test_api], once set *)
  o_test_api : option TestApi
}.

(** [mod.LOADED_DEPS] read off the module objects. *)
Definition heap_deps (h : gmap ModRef Module) : ModRef -> gmap string ModRef :=
  fun md => match h !! md with Some m => LOADED_DEPS m | None => ∅ end.

(** [(getattr(mod, 'TEST_API', None) or RecipeTestApi)(module=mod)] *)
Definition make_test_api (h : gmap ModRef Module) (md : ModRef) : outcome TestApi :=
  match h !! md with
  | None => Raise (AttributeError "no such module object")
  | Some m =>
      if truthy (TEST_API m) then
        match TEST_API m with
        | Some (MClass c) => Ok (mkTestApi (Some c) (Some md) ∅)
        | _ => Raise (TypeError "object is not callable")
        end
      else Ok (mkTestApi None (Some md) ∅)
  end.

(** The capability class as a callable: constructing an instance. *)
Definition class_callable (c : Class) : Callable ApiObj :=
  {| isclass := true;
     argspec_args := cls_init_args c;
     argspec_defaults := cls_init_defaults c;
     call := fun props kwargs => Ok (mkApiObj (Some c) props kwargs ∅ None) |}.

(** The loop [for k, v in deps.iteritems(): setattr(mod_api.m, k, v);
    setattr(mod_api.test_api.m, k, v.test_api)] of [create_recipe_api], on
    the two namespaces. *)
Fixpoint wire_recipe_api (items : list (string * ApiObj))
    (m : gmap string ApiObj) (tm : gmap string TestApi)
  : outcome (gmap string ApiObj * gmap string TestApi) :=
  match items with
  | [] => Ok (m, tm)
  | (k, v) :: items' =>
      match o_test_api v with
      | Some t => wire_recipe_api items' (<[k := v]> m) (<[k := t]> tm)
      | None => Raise (AttributeError "object has no attribute 'test_api'")
      end
  end.

(** The loop [for k, v in deps.iteritems(): setattr(modapi.m, k, v)] of
    [create_test_api]. *)
Fixpoint wire_test_api (items : list (string * TestApi)) (tm : gmap string TestApi)
  : gmap string TestApi :=
  match items with
  | [] => tm
  | (k, v) :: items' => wire_test_api items' (<[k := v]> tm)
  end.

Section composers.
(** The module objects, as the loads left them. *)
Variable h : gmap ModRef Module.
(** [engine.properties] *)
Variable engine_properties : gmap string PyVal.
(** [test_data.get_module_test_data] *)
Variable get_module_test_data : option string -> PyVal.

(** The [instantiator] of [create_recipe_api]. *)
Definition recipe_api_instantiator (md : ModRef) (deps : gmap string ApiObj)
  : outcome ApiObj :=
  match h !! md with
  | None => Raise (AttributeError "no such module object")
  | Some m =>
      let kwargs : gmap string PyVal :=
        {[ "module" := PyModule md; "engine" := PyEngine;
           "test_data" := get_module_test_data (NAME m) ]} in
      match
        match PROPERTIES m with
        | None => Raise (AttributeError "'module' object has no attribute 'PROPERTIES'")
        | Some prop_defs =>
            match API m with
            | Some (MClass c) =>
                invoke_with_properties (class_callable c) engine_properties
                  prop_defs kwargs
            | _ => Raise (TypeError "arg is not a Python function")
            end
        end
      with
      | Ok mod_api =>
          match make_test_api h md with
          | Ok t =>
              match wire_recipe_api (map_to_list deps) (o_m mod_api) (t_m t) with
              | Ok (ns, tns) =>
                  Ok (mkApiObj (o_class mod_api) (o_args mod_api) (o_kwargs mod_api)
                        ns (Some (mkTestApi (t_class t) (t_module t) tns)))
              | Raise e => Raise e
              | OutOfFuel => OutOfFuel
              end
          | Raise e => Raise e
          | OutOfFuel => OutOfFuel
          end
      | Raise e => Raise e
      | OutOfFuel => OutOfFuel
      end
  end.

(** The [instantiator] of [create_test_api]. *)
Definition test_api_instantiator (md : ModRef) (deps : gmap string TestApi)
  : outcome TestApi :=
  match make_test_api h md with
  | Ok modapi =>
      Ok (mkTestApi (t_class modapi) (t_module modapi)
            (wire_test_api (map_to_list deps) (t_m modapi)))
  | Raise e => Raise e
  | OutOfFuel => OutOfFuel
  end.

(** A callback without state of its own. *)
Definition stateless {Inst} (f : ModRef -> gmap string Inst -> outcome Inst)
  : ModRef -> gmap string Inst -> M unit Inst :=
  fun md deps e => (e, f md deps).

(** [create_recipe_api(toplevel_deps, engine, test_data)].  The loop
    [for k, v in toplevel_deps.iteritems(): setattr(api, k,
    mapper.instantiate(v))] binds each local name, in iteration order, to
    what the mapper returns; [fuel] is the mapper's. *)
Definition create_recipe_api (fuel : nat) (toplevel_deps : gmap string ModRef)
  : outcome ApiObj :=
  let mapper := new_mapper tt in
  let api :=
    mkApiObj None []
      {[ "module" := PyNone; "engine" := PyEngine;
         "test_data" := get_module_test_data None ]} ∅ None in
  match dict_comprehension
          (instantiate (heap_deps h) (stateless recipe_api_instantiator) fuel)
          (map_to_list toplevel_deps) (o_m api) mapper with
  | (_, Ok ns) =>
      Ok (mkApiObj (o_class api) (o_args api) (o_kwargs api) ns (o_test_api api))
  | (_, Raise e) => Raise e
  | (_, OutOfFuel) => OutOfFuel
  end.

(** [create_test_api(toplevel_deps, universe)] *)
Definition create_test_api (fuel : nat) (toplevel_deps : gmap string ModRef)
  : outcome TestApi :=
  let mapper := new_mapper tt in
  let api := mkTestApi None None ∅ in
  match dict_comprehension
          (instantiate (heap_deps h) (stateless test_api_instantiator) fuel)
          (map_to_list toplevel_deps) (t_m api) mapper with
  | (_, Ok ns) => Ok (mkTestApi (t_class api) (t_module api) ns)
  | (_, Raise e) => Raise e
  | (_, OutOfFuel) => OutOfFuel
  end.
End composers.

(** The object a path of local names leads to, namespace by namespace. *)
Fixpoint follow {Inst} (ns : Inst -> gmap string Inst) (o : Inst) (p : list string)
  : option Inst :=
  match p with
  | [] => Some o
  | k :: p' => match ns o !! k with Some o' => follow ns o' p' | None => None end
  end.

Definition api_at : ApiObj -> list string -> option ApiObj := follow o_m.
Definition test_at : TestApi -> list string -> option TestApi := follow t_m.

(** The definition a path of local names leads to from a dependency
    mapping. *)
Fixpoint def_at (deps_of : ModRef -> gmap string ModRef)
    (deps : gmap string ModRef) (p : list string) : option ModRef :=
  match p with
  | [] => None
  | k :: p' =>
      match deps !! k with
      | Some d => match p' with [] => Some d | _ => def_at deps_of (deps_of d) p' end
      | None => None
      end
  end.

(** The diamond of packages, loaded through d, and the two graphs built
    from it. *)
Definition diamond_state : State :=
  fst (load env_diamond 4 (example_dep "d") empty_state).

Definition diamond_toplevel : gmap string ModRef := {[ "d" := "RECIPE_MODULES.d" ]}.

Definition example_test_data (name : option string) : PyVal := PyTestData name.

(** Forgetting the log of a mapper with a logged instantiator. *)
Definition erase_log {Inst St} (s : Mapper Inst (list (Call Inst) * St)) : Mapper Inst St :=
  mkMapper (_instances s) (snd (outer s)).

(** Every cached instance was returned by the instantiator on a mapping
    that binds exactly the module's local names, each to the cached
    instance of the dependency. *)
Definition well_wired {Inst St} (deps_of : ModRef -> gmap string ModRef)
    (f : ModRef -> gmap string Inst -> M St Inst) (cache : gmap ModRef Inst) : Prop :=
  forall md i,
    cache !! md = Some i ->
    exists dd e,
      snd (f md dd e) = Ok i /\
      forall k,
        match deps_of md !! k with
        | Some d => exists j, dd !! k = Some j /\ cache !! d = Some j
        | None => dd !! k = None
        end.

(** The table check of [rank_falls], on module objects. *)
Definition heap_rank_falls (h : gmap ModRef Module) (rank : ModRef -> nat) : bool :=
  forallb (fun mm =>
    forallb (fun kd => Nat.ltb (rank (snd kd)) (rank (fst mm)))
            (map_to_list (LOADED_DEPS (snd mm))))
    (map_to_list h).

(** A rank that falls along the edges of the loaded diamond. *)
Definition diamond_heap_rank (md : ModRef) : nat :=
  if String.eqb md "RECIPE_MODULES.d" then 2
  else if (String.eqb md "RECIPE_MODULES.b" || String.eqb md "RECIPE_MODULES.c")%bool
       then 1 else 0.

Definition diamond_api : outcome ApiObj :=
  create_recipe_api (sys_modules diamond_state) ∅ example_test_data 3 diamond_toplevel.

Definition diamond_test_api : outcome TestApi :=
  create_test_api (sys_modules diamond_state) 3 diamond_toplevel.

(** How many of the values pass [sel]. *)
Definition count_members (sel : Member -> bool) (vs : list Member) : nat :=
  List.length (List.filter sel vs).

(** The module object without the member lists the patch-up scans. *)
Definition strip_members (m : Module) : Module :=
  mkModule (DEPS m) (LOADED_DEPS m) (NAME m) (UNIQUE_NAME m) (CONFIG_CTX m) (API m)
           (TEST_API m) (PROPERTIES m) None None None.

(** [modname] in [_load_recipe_module_module]. *)
Definition modname_of (path : string) : string :=
  os_path.splitext_root (os_path.basename path).

(** A package with two capability classes in its [api.py]. *)
Definition two_api_module (name : string) : string * Module :=
  (name,
   {| DEPS := Some (SpecList []); LOADED_DEPS := ∅; NAME := None;
      UNIQUE_NAME := None; CONFIG_CTX := None; API := None; TEST_API := None;
      PROPERTIES := None; config := None;
      api := Some [MClass (example_api_class "One"); MClass (example_api_class "Two")];
      test_api := None |}).

(** A package whose [api.py] defines no capability class. *)
Definition no_api_module (name : string) : string * Module :=
  (name,
   {| DEPS := Some (SpecList []); LOADED_DEPS := ∅; NAME := None;
      UNIQUE_NAME := None; CONFIG_CTX := None; API := None; TEST_API := None;
      PROPERTIES := None; config := None;
      api := Some [MOther true];
      test_api := None |}).

Definition env_conflict : Env :=
  example_env [two_api_module "two"; no_api_module "none";
               example_module "top" ["two"]].

(** The three scanning blocks of [_patchup_module] taken one by one: the
    slot each leaves and how it ends ([patchup_stages] relates them to the
    function). *)
Definition config_stage (m : Module) : option Member * outcome unit :=
  match config m with
  | Some vs =>
      match scan_members is_config_context "More than one configuration context"
              vs (CONFIG_CTX m) with
      | (slot, Ok _) =>
          (slot, if truthy slot then Ok tt
                 else Raise (AssertionError "Config file, but no config context?"))
      | (slot, r) => (slot, r)
      end
  | None => (CONFIG_CTX m, Ok tt)
  end.

Definition api_stage (m : Module) : option Member * outcome unit :=
  match api m with
  | Some vs =>
      match scan_members is_api_class "has more than one Api subclass" vs (API m) with
      | (slot, Ok _) =>
          (slot, if truthy slot then Ok tt
                 else Raise (AssertionError "Submodule has no api?"))
      | (slot, r) => (slot, r)
      end
  | None => (API m, Raise (AttributeError "'module' object has no attribute 'api'"))
  end.

Definition test_api_stage (m : Module) : option Member * outcome unit :=
  match test_api m with
  | Some vs =>
      match scan_members is_test_api_class "More than one TestApi subclass"
              vs (TEST_API m) with
      | (slot, Ok _) =>
          (slot, if truthy (fst (api_stage m)) then Ok tt
                 else Raise (AssertionError
                        "Submodule has test_api.py but no TestApi subclass?"))
      | (slot, r) => (slot, r)
      end
  | None => (TEST_API m, Ok tt)
  end.

(** * Notions used in the proofs *)

(** A computation keeps every entry of the load table as it is. *)
Definition keeps_table {A} (c : M State A) : Prop :=
  forall st, _loaded st ⊆ _loaded (fst (c st)).


Section mapper_invariant.
Context {Inst St : Type}.
Variable deps_of : ModRef -> gmap string ModRef.

(** What a logged call must look like, given the calls before it. *)
Definition wired_from (before : list (Call Inst)) (m : ModRef)
    (dd : gmap string Inst) : Prop :=
  forall k,
    match deps_of m !! k with
    | Some d => exists dd' j, (d, dd', Ok j) ∈ before /\ dd !! k = Some j
    | None => dd !! k = None
    end.

Record Inv (s : Mapper Inst (list (Call Inst) * St)) : Prop := {
  inv_cached : forall m i,
    _instances s !! m = Some i -> exists dd, (m, dd, Ok i) ∈ log_of s;
  inv_logged : forall m dd r,
    (m, dd, r) ∈ log_of s -> exists i, r = Ok i /\ _instances s !! m = Some i;
  inv_nodup : NoDup (callee <$> log_of s);
  inv_order : forall l1 m dd r l2,
    log_of s = (l1 ++ (m, dd, r) :: l2)%list -> wired_from l1 m dd
}.

(** What a successful run from [s] to [s'] preserves and adds; every
    module it adds satisfies [P]. *)
Record Step (P : ModRef -> Prop) (s s' : Mapper Inst (list (Call Inst) * St)) : Prop := {
  step_inv : Inv s';
  step_cache : _instances s ⊆ _instances s';
  step_log : exists l, log_of s' = (log_of s ++ l)%list;
  step_new : forall m,
    _instances s !! m = None -> is_Some (_instances s' !! m) -> P m
}.

(** The specification a call of [instantiate] meets. *)
Definition rec_ok (rec : ModRef -> M (Mapper Inst (list (Call Inst) * St)) Inst) : Prop :=
  forall d s s' i,
    Inv s -> rec d s = (s', Ok i) ->
    Step (reaches deps_of d) s s' /\ _instances s' !! d = Some i.

End mapper_invariant.

Section mapper_logging.
Context {Inst St : Type}.
Variable f : ModRef -> gmap string Inst -> M St Inst.

(** A mapper without log does what the mapper with log does. *)
Definition simulates (recL : ModRef -> M (Mapper Inst (list (Call Inst) * St)) Inst)
    (rec : ModRef -> M (Mapper Inst St) Inst) : Prop :=
  forall d s, rec d (erase_log s) = (erase_log (fst (recL d s)), snd (recL d s)).

(** Every logged call records what the instantiator returned. *)
Definition faithful_log (s : Mapper Inst (list (Call Inst) * St)) : Prop :=
  forall m dd r, (m, dd, r) ∈ log_of s -> exists e, r = snd (f m dd e).

End mapper_logging.

Section namespaces.
Context {Inst : Type}.
Variable ns : Inst -> gmap string Inst.
Variable cache : gmap ModRef Inst.

(** The namespace of [o] binds the local names of [deps], each to the
    cached instance. *)
Definition wired_to (deps : gmap string ModRef) (o : Inst) : Prop :=
  forall k,
    match deps !! k with
    | Some d => exists j, ns o !! k = Some j /\ cache !! d = Some j
    | None => ns o !! k = None
    end.

End namespaces.

(** [_load_recipe_module_module] up to, and without, its patch-up. *)
Definition load_until_patchup (E : Env) (fuel : nat) (path : string) : M State ModRef :=
  let modname := modname_of path in
  let fullname := String.append (RECIPE_MODULE_PREFIX E) (String.append "." modname) in
  md <- _find_and_load_module E fullname modname path ;;
  spec <- on_module md (reads (fun m => default (SpecList []) (DEPS m))) ;;
  deps <- deps_from_spec E fuel spec ;;
  _ <- on_module md (modify (with_LOADED_DEPS deps)) ;;
  ret md.


(** [fullname] in [_load_recipe_module_module]. *)
Definition fullname_of (E : Env) (path : string) : string :=
  String.append (RECIPE_MODULE_PREFIX E) (String.append "." (modname_of path)).

(** The first dependency of the package of [dep] is [dep']: the imported
    module has a list for [DEPS] whose first name resolves to [dep']. *)
Definition first_dep (E : Env) (dep dep' : Dependency) : Prop :=
  exists m item rest lname,
    import_package E
      (os_path.join (os_path.dirname (_path dep)) (modname_of (_path dep))) = Some m /\
    DEPS m = Some (SpecList (item :: rest)) /\
    _dep_from_name E item = Ok (lname, dep').

(** Each dependency of the list depends first on the next one, and the
    last one on [target]. *)
Fixpoint first_dep_chain (E : Env) (cur : Dependency) (todo : list Dependency)
    (target : Dependency) : Prop :=
  match todo with
  | [] => first_dep E cur target
  | next :: todo' => first_dep E cur next /\ first_dep_chain E next todo' target
  end.

(** None of the dependencies has been loaded or imported. *)
Definition untouched (E : Env) (st : State) (deps : list Dependency) : Prop :=
  forall d, d ∈ deps ->
    _loaded st !! unique_name d = None /\
    sys_modules st !! fullname_of E (_path d) = None.

(** * Further parts of the loader *)


(** [name.count('/')] *)
Fixpoint count_slashes (s : string) : nat :=
  match s with
  | EmptyString => 0
  | String c s' => (if os_path.is_slash c then 1 else 0) + count_slashes s'
  end.

(** A package table with one package [base] whose modules live under
    [/deps/base/recipe_modules]. *)
Definition env_packages : Env :=
  {| isdir := fun p => bool_decide (p ∈ ["/deps/base/recipe_modules";
                                         "/deps/base/recipe_modules/step"]);
     isfile := fun p =>
       bool_decide (p ∈ ["/deps/base/recipe_modules/step/__init__.py"]);
     import_package := fun _ => None;
     package_deps :=
       {| all_module_dirs := ["/deps/base/recipe_modules"];
          all_recipe_dirs := [];
          module_path := fun package module =>
            if String.eqb package "base"
            then Ok (os_path.join "/deps/base/recipe_modules" module)
            else Raise (ValueError "no such package") |};
     RECIPE_MODULE_PREFIX := "RECIPE_MODULES" |}.

(** A package with a [test_api.py] that defines no test-double class. *)
Definition empty_test_api_module : Module :=
  {| DEPS := Some (SpecList []); LOADED_DEPS := ∅; NAME := None;
     UNIQUE_NAME := None; CONFIG_CTX := None; API := None; TEST_API := None;
     PROPERTIES := None; config := None;
     api := Some [MClass (example_api_class "StepApi")];
     test_api := Some [MOther true] |}.


(** ** The mapper without its cache

    The equations in the docstring of [DependencyMapper], [f_D = f(D, {'B':
    f_B, 'C': f_C})], read as a program: the instantiator applied to the
    results of the same recursion on the dependencies, nothing remembered. *)
Section naive_mapper.
Context {Inst : Type}.
Variable deps_of : ModRef -> gmap string ModRef.
Variable f : ModRef -> gmap string Inst -> outcome Inst.

Fixpoint naive_deps (rec : ModRef -> outcome Inst)
    (items : list (string * ModRef)) (acc : gmap string Inst)
  : outcome (gmap string Inst) :=
  match items with
  | [] => Ok acc
  | (name, dep) :: items' =>
      match rec dep with
      | Ok i => naive_deps rec items' (<[name := i]> acc)
      | Raise e => Raise e
      | OutOfFuel => OutOfFuel
      end
  end.

Fixpoint naive_instantiate (fuel : nat) (md : ModRef) : outcome Inst :=
  match fuel with
  | 0 => OutOfFuel
  | S fuel' =>
      match naive_deps (naive_instantiate fuel') (map_to_list (deps_of md)) ∅ with
      | Ok dd => f md dd
      | Raise e => Raise e
      | OutOfFuel => OutOfFuel
      end
  end.

(** Every cached instance is what the plain recursion gives, with any
    allowance from some point on. *)
Definition cache_sound (cache : gmap ModRef Inst) : Prop :=
  forall m i, cache !! m = Some i ->
    exists n, forall n', n <= n' -> naive_instantiate n' m = Ok i.
End naive_mapper.

Section mapper_progress.
Context {Inst St : Type}.

(** From [s] to [s'] the cache has kept its entries, and gained some for
    modules that satisfy [P] only. *)
Definition grows (P : ModRef -> Prop) (s s' : Mapper Inst St) : Prop :=
  _instances s ⊆ _instances s' /\
  forall m, _instances s !! m = None -> is_Some (_instances s' !! m) -> P m.

(** No module of [B] has an instance. *)
Definition none_cached (B : ModRef -> Prop) (s : Mapper Inst St) : Prop :=
  forall m, B m -> _instances s !! m = None.
End mapper_progress.

(** An instantiator that refuses one module. *)
Definition refusing_instantiator (bad : ModRef)
  : ModRef -> gmap string (list string) -> M unit (list string) :=
  fun md deps_dict =>
    if String.eqb md bad then raise (ValueError "refused")
    else naming_instantiator md deps_dict.

(** a -> b -> a, and c -> a *)
Definition cycle_table : list (ModRef * list (string * ModRef)) :=
  [("a", [("b", "b")]); ("b", [("a", "a")]); ("c", [("a", "a")])].

Definition cycle_graph : ModRef -> gmap string ModRef := graph_of cycle_table.

(** The naming instantiator as a function. *)
Definition naming_function (md : ModRef) (deps_dict : gmap string (list string))
  : outcome (list string) :=
  Ok (md :: List.concat (snd <$> map_to_list deps_dict)).

(** ** Reading a dependency spec off the load table *)

(** [md] is the module object of a completed load. *)
Definition is_loaded (st : State) (md : ModRef) : Prop :=
  exists name, _loaded st !! name = Some (Some md).

(** One name of a spec, taken to the local name and the module object the
    table has for it; nothing is loaded. *)
Definition lookup_dep (E : Env) (st : State) (item : string)
  : option (string * ModRef) :=
  match _dep_from_name E item with
  | Ok (lname, dep) =>
      match _loaded st !! unique_name dep with
      | Some (Some md) => Some (lname, md)
      | _ => None
      end
  | _ => None
  end.

Fixpoint resolve_list (E : Env) (st : State) (spec : list string)
    (deps : gmap string ModRef) : option (gmap string ModRef) :=
  match spec with
  | [] => Some deps
  | item :: spec' =>
      match lookup_dep E st item with
      | Some (lname, md) => resolve_list E st spec' (<[lname := md]> deps)
      | None => None
      end
  end.

Fixpoint resolve_items (E : Env) (st : State) (spec : list (string * string))
    (deps : gmap string ModRef) : option (gmap string ModRef) :=
  match spec with
  | [] => Some deps
  | (name, item) :: spec' =>
      match lookup_dep E st item with
      | Some (_, md) => resolve_items E st spec' (<[name := md]> deps)
      | None => None
      end
  end.

(** The dict [deps_from_spec] builds when every name of the spec is in the
    table already. *)
Definition resolve (E : Env) (st : State) (spec : DepSpec)
  : option (gmap string ModRef) :=
  match spec with
  | SpecList items => resolve_list E st items ∅
  | SpecDict items => resolve_items E st (map_to_list items) ∅
  | SpecOther => None
  end.

(** The completed loads of [t] are in [t'], with the same module objects. *)
Definition table_le (t t' : gmap string (option ModRef)) : Prop :=
  forall name md, t !! name = Some (Some md) -> t' !! name = Some (Some md).

(** ** A well-formed universe *)

(** What stays of a module object whatever the loader does to it: the
    spec of its dependencies, the members the patch-up scans, and a
    capability class once it is set. *)
Definition same_source (m m' : Module) : Prop :=
  DEPS m' = DEPS m /\ api m' = api m /\ config m' = config m /\
  test_api m' = test_api m /\
  (truthy (API m) = true -> truthy (API m') = true).

(** From [st] to [st'] the load table has only been added to, and every
    module object is still there. *)
Definition ext (st st' : State) : Prop :=
  _loaded st ⊆ _loaded st' /\
  forall ref m, sys_modules st !! ref = Some m ->
    exists m', sys_modules st' !! ref = Some m' /\ same_source m m'.

(** A module object as a completed load leaves it: patched, with the
    dependencies its [DEPS] name, each ranked below it. *)
Record module_ok (E : Env) (st : State) (rank : ModRef -> nat)
    (md : ModRef) (m : Module) : Prop := {
  ok_API : truthy (API m) = true;
  ok_NAME : is_Some (NAME m);
  ok_PROPERTIES : is_Some (PROPERTIES m);
  ok_CONFIG : is_Some (config m) -> truthy (CONFIG_CTX m) = true;
  ok_resolved : resolve E st (default (SpecList []) (DEPS m)) = Some (LOADED_DEPS m);
  ok_rank : forall k d, LOADED_DEPS m !! k = Some d -> rank d < rank md
}.

Definition universe_ok (E : Env) (st : State) : Prop :=
  exists rank : ModRef -> nat,
    forall md, is_loaded st md ->
      exists m, sys_modules st !! md = Some m /\ module_ok E st rank md m.

Definition max_rank (rank : ModRef -> nat) (deps : gmap string ModRef) : nat :=
  foldr (fun kd acc => Nat.max (rank (snd kd)) acc) 0 (map_to_list deps).

(** A computation keeps the universe well formed and the objects in
    place, and what it returns satisfies [Q]. *)
Definition sound {A} (E : Env) (Q : A -> State -> Prop) (c : M State A) : Prop :=
  forall st, universe_ok E st ->
    universe_ok E (fst (c st)) /\ ext st (fst (c st)) /\
    forall a, snd (c st) = Ok a -> Q a (fst (c st)).

(** What [_load_recipe_module_module] returns. *)
Definition patched (E : Env) (md : ModRef) (st : State) : Prop :=
  exists m, sys_modules st !! md = Some m /\
    truthy (API m) = true /\ is_Some (NAME m) /\ is_Some (PROPERTIES m) /\
    (is_Some (config m) -> truthy (CONFIG_CTX m) = true) /\
    resolve E st (default (SpecList []) (DEPS m)) = Some (LOADED_DEPS m).

(** Two search roots that hold a package of the same name [step]; the
    second is reached through the package table. *)
Definition env_same_name : Env :=
  {| isdir := fun p => bool_decide (p ∈ ["/a"; "/a/step"; "/b"; "/b/step"]);
     isfile := fun p =>
       bool_decide (p ∈ ["/a/step/__init__.py"; "/b/step/__init__.py"]);
     import_package := fun p =>
       if (String.eqb p "/a/step" || String.eqb p "/b/step")%bool
       then Some (snd (example_module "step" []))
       else None;
     package_deps :=
       {| all_module_dirs := ["/a"; "/b"];
          all_recipe_dirs := [];
          module_path := fun package module =>
            if String.eqb package "other" then Ok (os_path.join "/b" module)
            else Raise (ValueError "no such package") |};
     RECIPE_MODULE_PREFIX := "RECIPE_MODULES" |}.

(** ** Recipes and the listing of packages

    What the loader asks of the file system beyond [isdir] and [isfile]:
    the entries of a directory, whether a path exists, and what executing
    a script leaves in its globals -- of which the loader reads [DEPS] and
    [PROPERTIES] -- or raises. *)
Record ScriptVars : Type := mkScriptVars {
  v_DEPS : option DepSpec;
  v_PROPERTIES : option (gmap string Property)
}.

Record FS : Type := mkFS {
  listdir : string -> list string;
  path_exists : string -> bool;
  execfile : string -> outcome ScriptVars
}.

(** [universe.loop_over_recipe_modules()]: the paths the generator yields,
    in order. *)
Definition loop_over_recipe_modules (E : Env) (F : FS) : list string :=
  flat_map (fun path =>
    if isdir E path then
      List.filter (_is_recipe_module_dir E)
        (map (fun item => os_path.join path item) (listdir F path))
    else []) (module_dirs E).

(** [modpath.split('/')[-1]] *)
Definition last_piece (s : string) : string := List.last (split_slash s) "".

(** The spec that [main] of doc.py hands to [deps_from_spec]:
    [{modpath: modpath.split('/')[-1] for modpath in
    universe.loop_over_recipe_modules()}].  (A path yielded twice gives
    the same entry twice.) *)
Definition doc_spec (E : Env) (F : FS) : gmap string string :=
  list_to_map (map (fun modpath => (modpath, last_piece modpath))
                 (loop_over_recipe_modules E F)).

(** The listing of the two roots of [env_same_name]. *)
Definition fs_same_name : FS :=
  {| listdir := fun p =>
       if (String.eqb p "/a" || String.eqb p "/b")%bool then ["README"; "step"] else [];
     path_exists := fun _ => false;
     execfile := fun _ => Raise (ValueError "not a script") |}.

(** * Properties *)

Local Open Scope list_scope.

(** ** Path and string helpers on concrete inputs *)

Example join_ex : os_path.join "/r/recipe_modules" "step" = "/r/recipe_modules/step".
Proof. reflexivity. Qed.
Example dirname_ex : os_path.dirname "/r/recipe_modules/step" = "/r/recipe_modules".
Proof. reflexivity. Qed.
Example dirname_root : os_path.dirname "/step" = "/".
Proof. reflexivity. Qed.
Example basename_ex : os_path.basename "/r/recipe_modules/step" = "step".
Proof. reflexivity. Qed.
Example splitext_ex1 : os_path.splitext_root "step" = "step".
Proof. reflexivity. Qed.
Example splitext_ex2 : os_path.splitext_root "a.b.py" = "a.b".
Proof. reflexivity. Qed.
Example splitext_ex3 : os_path.splitext_root ".hidden" = ".hidden".
Proof. reflexivity. Qed.
Example split_ex : split_slash "pkg/mod" = ["pkg"; "mod"].
Proof. reflexivity. Qed.

(** ** Discovery of a module from a bare name *)

Lemma NamedDependency_scan_find E name dirs :
  NamedDependency_scan E name dirs =
  match List.find (fun d => _is_recipe_module_dir E (os_path.join d name)) dirs with
  | Some d => PathDependency E (os_path.join d name) name
  | None =>
      Raise (NoSuchRecipe
        (String.append "Recipe module named " (String.append name " does not exist")))
  end.
Proof.
  induction dirs as [|d dirs IH]; simpl; [done|].
  destruct (_is_recipe_module_dir E (os_path.join d name)); [done|apply IH].
Qed.

Lemma PathDependency_accepts E path lname :
  os_path.isabs path = true ->
  os_path.dirname path ∈ module_dirs E ->
  PathDependency E path lname = Ok {| _path := path; _local_name := lname |}.
Proof.
  intros Habs Hin. unfold PathDependency. rewrite Habs. simpl.
  rewrite bool_decide_eq_true_2 by done. done.
Qed.

(** C7. Resolving a bare name walks the search roots in their order; the
    candidate of a root [d] is [join d name], the module-directory predicate
    is "a directory holding __init__.py", and the first root whose candidate
    passes is the one selected: the dependency is built on that candidate
    (and is accepted with that path as its identity when the candidate is
    absolute and sits directly under a search root).  When no root passes,
    the error raised is the loader's [NoSuchRecipe] (the spec's NoSuchModule)
    whose message names the module. *)
Theorem bare_name_discovery (E : Env) (name : string) :
  (forall p, _is_recipe_module_dir E p
             = (isdir E p && isfile E (os_path.join p "__init__.py"))) /\
  match List.find (fun d => _is_recipe_module_dir E (os_path.join d name))
                  (module_dirs E) with
  | Some d =>
      NamedDependency E name = PathDependency E (os_path.join d name) name /\
      (os_path.isabs (os_path.join d name) = true ->
       os_path.dirname (os_path.join d name) ∈ module_dirs E ->
       exists dep, NamedDependency E name = Ok dep /\
                   unique_name dep = os_path.join d name /\
                   local_name dep = name)
  | None =>
      NamedDependency E name =
      Raise (NoSuchRecipe
        (String.append "Recipe module named " (String.append name " does not exist")))
  end.
Proof.
  split; [done|].
  unfold NamedDependency. rewrite NamedDependency_scan_find.
  destruct (List.find _ _) as [d|]; [|done].
  split; [done|]. intros Habs Hin.
  eexists. split; [by apply PathDependency_accepts|done].
Qed.

(** The first root that holds the package wins; a name no root holds is
    refused. *)
Example discovery_two_roots :
  NamedDependency env_two_roots "step"
    = Ok {| _path := "/first/step"; _local_name := "step" |} /\
  NamedDependency env_two_roots "path"
    = Ok {| _path := "/second/path"; _local_name := "path" |} /\
  NamedDependency env_two_roots "json"
    = Raise (NoSuchRecipe "Recipe module named json does not exist").
Proof. repeat split; vm_compute; reflexivity. Qed.

(** ** The load table only grows *)

Lemma keeps_ret {A} (a : A) : keeps_table (ret a).
Proof. intros st. done. Qed.

Lemma keeps_raise {A} e : keeps_table (@raise State A e).
Proof. intros st. done. Qed.

Lemma keeps_bind {A B} (c : M State A) (k : A -> M State B) :
  keeps_table c -> (forall a, keeps_table (k a)) -> keeps_table (bind c k).
Proof.
  intros Hc Hk st. unfold bind. specialize (Hc st).
  destruct (c st) as [st1 [a|e|]]; simpl in *; [|done..].
  etrans; [exact Hc|apply Hk].
Qed.

Lemma keeps_on_module {A} ref (c : M Module A) : keeps_table (on_module ref c).
Proof.
  intros st. unfold on_module. destruct (sys_modules st !! ref); [|done].
  destruct (c _). done.
Qed.

Lemma keeps_find_and_load E fullname modname path :
  keeps_table (_find_and_load_module E fullname modname path).
Proof.
  intros st. unfold _find_and_load_module.
  destruct (sys_modules st !! fullname); [done|].
  destruct (import_package E _); done.
Qed.

Create HintDb keeps.
#[local] Hint Resolve keeps_ret keeps_raise keeps_on_module keeps_find_and_load : keeps.

Section keeps_open.
Variable E : Env.
Variable rec : Dependency -> M State ModRef.
Hypothesis rec_keeps : forall dep, keeps_table (rec dep).

Lemma keeps_deps_from_list spec deps : keeps_table (deps_from_list E rec spec deps).
Proof.
  revert deps. induction spec as [|item spec IH]; intros deps; simpl.
  - apply keeps_ret.
  - intros st. destruct (_dep_from_name E item) as [[name dep]|e|]; [|done..].
    apply (keeps_bind (rec dep)); [apply rec_keeps|]. intros a. apply IH.
Qed.

Lemma keeps_deps_from_items spec deps : keeps_table (deps_from_items E rec spec deps).
Proof.
  revert deps. induction spec as [|[name item] spec IH]; intros deps; simpl.
  - apply keeps_ret.
  - intros st. destruct (_dep_from_name E item) as [[name' dep]|e|]; [|done..].
    apply (keeps_bind (rec dep)); [apply rec_keeps|]. intros a. apply IH.
Qed.

Lemma keeps_deps_from_spec_with spec : keeps_table (deps_from_spec_with E rec spec).
Proof.
  destruct spec; simpl;
    [apply keeps_deps_from_list|apply keeps_deps_from_items|apply keeps_raise].
Qed.

Lemma keeps_load_recipe_module_module_with path :
  keeps_table (_load_recipe_module_module_with E rec path).
Proof.
  unfold _load_recipe_module_module_with.
  repeat (apply keeps_bind; [auto using keeps_deps_from_spec_with with keeps|intros ?]).
  apply keeps_ret.
Qed.
End keeps_open.

Lemma load_keeps_table E fuel dep : keeps_table (load E fuel dep).
Proof.
  revert dep. induction fuel as [|fuel IH]; intros dep st; simpl; [done|].
  destruct (_loaded st !! unique_name dep) as [[md|]|] eqn:Hl; [done..|].
  pose proof (keeps_load_recipe_module_module_with E (load E fuel) IH (_path dep)
                (set_loaded (unique_name dep) None st)) as Hk.
  destruct (_load_recipe_module_module_with _ _ _ _) as [st1 r]. simpl in Hk.
  assert (_loaded st ⊆ _loaded st1) as Hsub.
  { etrans; [|exact Hk]. simpl. by apply insert_subseteq. }
  destruct r as [md|e|]; simpl; [|done..].
  apply map_subseteq_spec. intros k v Hkv.
  assert (k <> unique_name dep) as Hne by congruence.
  rewrite lookup_insert_ne by done.
  by eapply lookup_weaken.
Qed.

Lemma load_all_keeps_table E fuel deps st :
  _loaded st ⊆ _loaded (load_all E fuel deps st).
Proof.
  revert st. induction deps as [|dep deps IH]; intros st; simpl; [done|].
  etrans; [apply (load_keeps_table E fuel dep)|apply IH].
Qed.

Lemma load_in_progress E fuel dep st :
  _loaded st !! unique_name dep = Some None ->
  load E (S fuel) dep st =
  (st, Raise (AssertionError
         (String.append "Cyclic dependency when trying to load " (unique_name dep)))).
Proof. intros H. simpl. by rewrite H. Qed.

Lemma load_marks_first E fuel dep st :
  _loaded st !! unique_name dep = None ->
  load E (S fuel) dep st =
  match _load_recipe_module_module E fuel (_path dep)
          (set_loaded (unique_name dep) None st) with
  | (st', Ok md) => (set_loaded (unique_name dep) (Some md) st', Ok md)
  | (st', r) => (st', r)
  end.
Proof. intros H. simpl. by rewrite H. Qed.

Lemma load_failed_stays_in_progress E fuel dep st :
  _loaded st !! unique_name dep = None ->
  is_ok (snd (load E (S fuel) dep st)) = false ->
  _loaded (fst (load E (S fuel) dep st)) !! unique_name dep = Some None.
Proof.
  intros Hn. rewrite load_marks_first by done.
  pose proof (keeps_load_recipe_module_module_with E (load E fuel)
                (load_keeps_table E fuel) (_path dep)
                (set_loaded (unique_name dep) None st)) as Hk.
  unfold _load_recipe_module_module.
  destruct (_load_recipe_module_module_with _ _ _ _) as [st1 [md|e|]];
    simpl in *; [done|..]; intros _;
    (eapply lookup_weaken; [|exact Hk]); apply lookup_insert_eq.
Qed.

Lemma load_ok_loaded E fuel dep st md :
  snd (load E fuel dep st) = Ok md ->
  _loaded (fst (load E fuel dep st)) !! unique_name dep = Some (Some md).
Proof.
  destruct fuel as [|fuel]; simpl; [done|].
  destruct (_loaded st !! unique_name dep) as [[md'|]|] eqn:Hl; simpl.
  - by intros [= ->].
  - done.
  - destruct (_load_recipe_module_module_with _ _ _ _) as [st1 [md'|e|]];
      simpl; [|done..].
    intros [= ->]. apply lookup_insert_eq.
Qed.

(** C8. On one universe, through any sequence of [load] calls (a call that
    raises hands its state on to the next): every entry of the load table
    stays in it, with the value it had, so no identity goes from in-progress
    back to unloaded and the table is only ever added to; a load that does
    not return leaves its identity in progress; and a request for an
    identity that is in progress raises the cyclic-dependency assertion,
    whatever the state. *)
Theorem load_table_invariant (E : Env) (fuel : nat) (deps : list Dependency)
    (st : State) :
  _loaded st ⊆ _loaded (load_all E fuel deps st) /\
  (forall name, is_Some (_loaded st !! name) ->
                is_Some (_loaded (load_all E fuel deps st) !! name)) /\
  (forall dep,
      _loaded st !! unique_name dep = None ->
      is_ok (snd (load E (S fuel) dep st)) = false ->
      _loaded (fst (load E (S fuel) dep st)) !! unique_name dep = Some None) /\
  (forall dep,
      _loaded (load_all E fuel deps st) !! unique_name dep = Some None ->
      load E (S fuel) dep (load_all E fuel deps st) =
      (load_all E fuel deps st,
       Raise (AssertionError
         (String.append "Cyclic dependency when trying to load " (unique_name dep))))).
Proof.
  pose proof (load_all_keeps_table E fuel deps st) as Hsub.
  split; [done|]. split; [|split].
  - intros name [v Hv]. exists v. by eapply lookup_weaken.
  - intros dep. apply load_failed_stays_in_progress.
  - intros dep. apply load_in_progress.
Qed.

(** A raising load followed by the same request again: the stale
    placeholder makes the second request fail. *)
Lemma load_table_invariant_witness :
  _loaded (fst (load env_cycle 5 (example_dep "a") empty_state))
    !! unique_name (example_dep "a") = Some None /\
  load env_cycle 5 (example_dep "a")
       (load_all env_cycle 4 [example_dep "a"] empty_state) =
  (load_all env_cycle 4 [example_dep "a"] empty_state,
   Raise (AssertionError
     "Cyclic dependency when trying to load /r/recipe_modules/a")).
Proof.
  split.
  - apply (proj1 (proj2 (proj2 (load_table_invariant env_cycle 4 [] empty_state)))
             (example_dep "a")); vm_compute; reflexivity.
  - apply (proj2 (proj2 (proj2
             (load_table_invariant env_cycle 4 [example_dep "a"] empty_state)))
             (example_dep "a")).
    vm_compute. reflexivity.
Defined.

(** ** Cycle detection *)

(** The module load hands on what the load of the first dependency
    raises. *)
Lemma load_module_first_dep_raises E (rec : Dependency -> M State ModRef)
    path st m item rest lname dep' e :
  sys_modules st !! fullname_of E path = None ->
  import_package E (os_path.join (os_path.dirname path) (modname_of path)) = Some m ->
  DEPS m = Some (SpecList (item :: rest)) ->
  _dep_from_name E item = Ok (lname, dep') ->
  snd (rec dep' (set_module (fullname_of E path) m
                   (set_module (fullname_of E path) m st))) = Raise e ->
  snd (_load_recipe_module_module_with E rec path st) = Raise e.
Proof.
  intros Hs Himp Hdeps Hitem Hrec.
  unfold _load_recipe_module_module_with.
  change (os_path.splitext_root (os_path.basename path)) with (modname_of path).
  change (String.append (RECIPE_MODULE_PREFIX E) (String.append "." (modname_of path)))
    with (fullname_of E path).
  unfold bind at 1. unfold _find_and_load_module. rewrite Hs, Himp.
  unfold bind at 1. unfold on_module at 1. simpl.
  rewrite lookup_insert_eq. unfold reads. rewrite Hdeps. simpl.
  unfold bind at 1. rewrite Hitem. unfold bind at 1.
  destruct (rec dep' _) as [st' r]. simpl in Hrec. by subst r.
Qed.

Lemma load_raises_from_module E fuel dep st e :
  _loaded st !! unique_name dep = None ->
  snd (_load_recipe_module_module_with E (load E fuel) (_path dep)
         (set_loaded (unique_name dep) None st)) = Raise e ->
  snd (load E (S fuel) dep st) = Raise e.
Proof.
  intros Hl. rewrite load_marks_first by done. unfold _load_recipe_module_module.
  destruct (_load_recipe_module_module_with _ _ _ _) as [st' r].
  intros Hr. cbn [snd] in Hr. by subst r.
Qed.

(** A cycle through first dependencies: the load of the first module
    fails with the cyclic-dependency assertion naming the module the cycle
    closes on. *)
Lemma first_dep_chain_raises E todo : forall cur target st fuel,
  first_dep_chain E cur todo target ->
  NoDup (unique_name <$> cur :: todo) ->
  NoDup ((fun d => fullname_of E (_path d)) <$> cur :: todo) ->
  untouched E st (cur :: todo) ->
  (unique_name target = unique_name cur \/
   _loaded st !! unique_name target = Some None) ->
  snd (load E (S (S (List.length todo + fuel))) cur st) =
  Raise (AssertionError
    (String.append "Cyclic dependency when trying to load " (unique_name target))).
Proof.
  induction todo as [|next todo IH]; intros cur target st fuel Hchain Hnd Hfn Hun Htarget.
  - destruct Hchain as (m & item & rest & lname & Himp & Hdeps & Hitem).
    destruct (Hun cur) as [Hl Hs]; [left|].
    apply load_raises_from_module; [done|].
    eapply load_module_first_dep_raises; [exact Hs|exact Himp|exact Hdeps|exact Hitem|].
    change (List.length (@nil Dependency) + fuel) with fuel.
    rewrite load_in_progress; [done|]. cbn [_loaded set_module set_loaded].
    destruct Htarget as [->|Ht]; [apply lookup_insert_eq|].
    destruct (decide (unique_name cur = unique_name target)) as [->|Hne];
      [apply lookup_insert_eq|by rewrite lookup_insert_ne].
  - destruct Hchain as [(m & item & rest & lname & Himp & Hdeps & Hitem) Hchain].
    destruct (Hun cur) as [Hl Hs]; [left|].
    assert (unique_name cur ∉ unique_name <$> next :: todo) as Hcur
      by (by apply NoDup_cons_1_1).
    assert (NoDup (unique_name <$> next :: todo)) as Hnd'
      by (by apply (NoDup_cons_1_2 (unique_name cur))).
    assert (fullname_of E (_path cur)
              ∉ (fun d => fullname_of E (_path d)) <$> next :: todo) as Hfcur
      by (by apply NoDup_cons_1_1).
    assert (NoDup ((fun d => fullname_of E (_path d)) <$> next :: todo)) as Hfn'
      by (by apply (NoDup_cons_1_2 (fullname_of E (_path cur)))).
    apply load_raises_from_module; [done|].
    eapply load_module_first_dep_raises; [exact Hs|exact Himp|exact Hdeps|exact Hitem|].
    change (S (List.length (next :: todo) + fuel))
      with (S (S (List.length todo + fuel))).
    apply (IH next target _ fuel Hchain Hnd' Hfn').
    + intros d Hd. destruct (Hun d) as [Hdl Hds]; [by right|].
      cbn [_loaded sys_modules set_module set_loaded]. split.
      * rewrite lookup_insert_ne; [done|]. intros Heq. apply Hcur.
        rewrite Heq. apply list_elem_of_fmap. by exists d.
      * rewrite !lookup_insert_ne; [done|..]; intros Heq; apply Hfcur;
          rewrite Heq; apply list_elem_of_fmap; by exists d.
    + right. cbn [_loaded set_module set_loaded].
      destruct Htarget as [->|Ht]; [apply lookup_insert_eq|].
      destruct (decide (unique_name cur = unique_name target)) as [->|Hne];
        [apply lookup_insert_eq|by rewrite lookup_insert_ne].
Qed.

(** C1. [load] stores the in-progress placeholder for the identity before
    it runs the module's own load (which is what loads the module's
    dependencies): the module load runs on the table with the placeholder
    in it.  A request for an identity whose placeholder is still there
    raises the assertion "Cyclic dependency when trying to load <identity>"
    (the spec's CyclicDependencyError) and changes nothing.  So a module
    that comes back to itself along first dependencies fails to load with
    that error naming it; a -> b -> a fails naming a, and the chain
    a -> b -> c loads. *)
Theorem cycle_detection (E : Env) (fuel : nat) (dep : Dependency) (st : State) :
  (_loaded st !! unique_name dep = None ->
   load E (S fuel) dep st =
   match _load_recipe_module_module E fuel (_path dep)
           (set_loaded (unique_name dep) None st) with
   | (st', Ok md) => (set_loaded (unique_name dep) (Some md) st', Ok md)
   | (st', r) => (st', r)
   end) /\
  (_loaded st !! unique_name dep = Some None ->
   load E (S fuel) dep st =
   (st, Raise (AssertionError
          (String.append "Cyclic dependency when trying to load " (unique_name dep))))) /\
  (forall through,
     first_dep_chain E dep through dep ->
     NoDup (unique_name <$> dep :: through) ->
     NoDup ((fun d => fullname_of E (_path d)) <$> dep :: through) ->
     untouched E st (dep :: through) ->
     snd (load E (S (S (List.length through + fuel))) dep st) =
     Raise (AssertionError
       (String.append "Cyclic dependency when trying to load " (unique_name dep)))) /\
  snd (load env_cycle (3 + fuel) (example_dep "a") empty_state) =
    Raise (AssertionError "Cyclic dependency when trying to load /r/recipe_modules/a") /\
  snd (load env_chain (3 + fuel) (example_dep "a") empty_state) = Ok "RECIPE_MODULES.a".
Proof.
  split; [apply load_marks_first|]. split; [apply load_in_progress|].
  split.
  - intros through Hchain Hnd Hfn Hun.
    apply first_dep_chain_raises; [done..|by left].
  - split; vm_compute; reflexivity.
Qed.

Lemma cycle_detection_witness :
  load env_cycle 3 (example_dep "a") empty_state =
  match _load_recipe_module_module env_cycle 2 (_path (example_dep "a"))
          (set_loaded (unique_name (example_dep "a")) None empty_state) with
  | (st', Ok md) => (set_loaded (unique_name (example_dep "a")) (Some md) st', Ok md)
  | (st', r) => (st', r)
  end /\
  load env_cycle 1 (example_dep "a")
    (set_loaded (unique_name (example_dep "a")) None empty_state) =
  (set_loaded (unique_name (example_dep "a")) None empty_state,
   Raise (AssertionError "Cyclic dependency when trying to load /r/recipe_modules/a")) /\
  snd (load env_cycle 3 (example_dep "a") empty_state) =
  Raise (AssertionError "Cyclic dependency when trying to load /r/recipe_modules/a").
Proof.
  split; [|split].
  - apply (proj1 (cycle_detection env_cycle 2 (example_dep "a") empty_state)).
    vm_compute. reflexivity.
  - apply (proj1 (proj2 (cycle_detection env_cycle 0 (example_dep "a")
                           (set_loaded (unique_name (example_dep "a")) None empty_state)))).
    vm_compute. reflexivity.
  - apply (proj1 (proj2 (proj2 (cycle_detection env_cycle 0 (example_dep "a") empty_state)))
             [example_dep "b"]).
    + split; eexists _, _, _, _; (split; [vm_compute; reflexivity|]);
        (split; [reflexivity|]); vm_compute; reflexivity.
    + apply (bool_decide_unpack _). vm_compute. exact I.
    + apply (bool_decide_unpack _). vm_compute. exact I.
    + intros d Hd. apply elem_of_cons in Hd as [->|Hd];
        [|apply list_elem_of_singleton in Hd as ->]; split; vm_compute; reflexivity.
Defined.

(** ** DependencyMapper: termination *)

Section mapper_fuel.
Context {Inst St : Type}.
Variable deps_of : ModRef -> gmap string ModRef.
Variable f : ModRef -> gmap string Inst -> M St Inst.

Lemma dict_comprehension_ext (rec1 rec2 : ModRef -> M (Mapper Inst St) Inst) items :
  (forall d s s' r, (exists k, (k, d) ∈ items) ->
                    rec1 d s = (s', r) -> r <> OutOfFuel -> rec2 d s = (s', r)) ->
  forall acc s s' r,
    dict_comprehension rec1 items acc s = (s', r) -> r <> OutOfFuel ->
    dict_comprehension rec2 items acc s = (s', r).
Proof.
  induction items as [|[k d] items IH]; intros Hrec acc s s' r; simpl; [done|].
  unfold bind. destruct (rec1 d s) as [s1 r1] eqn:H1.
  assert (r1 <> OutOfFuel -> rec2 d s = (s1, r1)) as H2.
  { apply Hrec; [|done]. exists k. left. }
  destruct r1 as [i|e|].
  - rewrite H2 by done. apply IH. intros d' t t' r' [k' Hk']. apply Hrec.
    exists k'. by right.
  - rewrite H2 by done. done.
  - intros [= <- <-]. done.
Qed.

(** One level of [instantiate], with the monadic plumbing written out. *)
Lemma instantiate_S fuel md s :
  instantiate deps_of f (S fuel) md s =
  match _instances s !! md with
  | Some i => (s, Ok i)
  | None =>
      match dict_comprehension (instantiate deps_of f fuel)
              (map_to_list (deps_of md)) ∅ s with
      | (s1, Ok dd) =>
          match f md dd (outer s1) with
          | (e, Ok i) => (mkMapper (<[md := i]> (_instances s1)) e, Ok i)
          | (e, Raise x) => (mkMapper (_instances s1) e, Raise x)
          | (e, OutOfFuel) => (mkMapper (_instances s1) e, OutOfFuel)
          end
      | (s1, Raise x) => (s1, Raise x)
      | (s1, OutOfFuel) => (s1, OutOfFuel)
      end
  end.
Proof.
  simpl. destruct (_instances s !! md); [done|]. unfold bind at 1.
  destruct (dict_comprehension _ _ _ _) as [s1 [dd|x|]]; [|done..].
  unfold bind, call_instantiator.
  destruct (f md dd (outer s1)) as [e [i|x|]]; done.
Qed.

Lemma instantiate_fuel_mono fuel fuel' md s s' r :
  instantiate deps_of f fuel md s = (s', r) -> r <> OutOfFuel -> fuel <= fuel' ->
  instantiate deps_of f fuel' md s = (s', r).
Proof.
  revert fuel' md s s' r.
  induction fuel as [|fuel IH]; intros fuel' md s s' r.
  { simpl. intros [= <- <-]. done. }
  intros Hrun Hr Hle. destruct fuel' as [|fuel']; [lia|].
  rewrite instantiate_S in Hrun |- *.
  destruct (_instances s !! md) as [i|]; [done|].
  destruct (dict_comprehension (instantiate deps_of f fuel) _ _ _) as [s1 r1] eqn:H1.
  assert (r1 <> OutOfFuel ->
          dict_comprehension (instantiate deps_of f fuel')
            (map_to_list (deps_of md)) ∅ s = (s1, r1)) as H2.
  { intros Hr1. eapply dict_comprehension_ext; [|exact H1|exact Hr1].
    intros d t t' r' _ Hd Hr'. eapply IH; [exact Hd|exact Hr'|lia]. }
  destruct r1 as [dd|e|].
  - rewrite H2 by done. done.
  - rewrite H2 by done. done.
  - by simplify_eq.
Qed.

Hypothesis f_returns : forall m dd e, snd (f m dd e) <> OutOfFuel.

Lemma dict_comprehension_returns (rec : ModRef -> M (Mapper Inst St) Inst) items :
  (forall d s, (exists k, (k, d) ∈ items) -> snd (rec d s) <> OutOfFuel) ->
  forall acc s, snd (dict_comprehension rec items acc s) <> OutOfFuel.
Proof.
  induction items as [|[k d] items IH]; intros Hrec acc s; simpl; [done|].
  unfold bind. pose proof (Hrec d s) as H1.
  destruct (rec d s) as [s1 [i|e|]]; simpl in *.
  - apply IH. intros d' t [k' Hk']. apply Hrec. exists k'. by right.
  - done.
  - intros _. apply H1; [|done]. exists k. left.
Qed.

Lemma chains_bounded_dep n m k d :
  chains_bounded deps_of (S n) m -> deps_of m !! k = Some d ->
  chains_bounded deps_of n d.
Proof.
  intros Hb Hd l Hl. specialize (Hb (d :: l)). simpl in *.
  assert (S (S (List.length l)) <= S n); [|lia].
  apply Hb. split; [by exists k|done].
Qed.

Lemma chains_bounded_pos n m : chains_bounded deps_of n m -> 0 < n.
Proof. intros Hb. specialize (Hb [] I). simpl in Hb. lia. Qed.

Lemma instantiate_returns n md s :
  chains_bounded deps_of n md -> snd (instantiate deps_of f n md s) <> OutOfFuel.
Proof.
  revert md s. induction n as [|n IH]; intros md s Hb.
  { apply chains_bounded_pos in Hb. lia. }
  rewrite instantiate_S. destruct (_instances s !! md) as [i|]; [done|].
  pose proof (dict_comprehension_returns (instantiate deps_of f n)
                (map_to_list (deps_of md))) as Hdc.
  destruct (dict_comprehension _ _ _ _) as [s1 r1] eqn:H1.
  assert (r1 <> OutOfFuel) as Hr1.
  { specialize (Hdc (fun d t '(ex_intro _ k Hk) =>
      IH d t (chains_bounded_dep n md k d Hb (proj1 (elem_of_map_to_list _ _ _) Hk)))
      ∅ s).
    by rewrite H1 in Hdc. }
  destruct r1 as [dd|e|]; [|done..].
  pose proof (f_returns md dd (outer s1)) as Hf.
  destruct (f md dd (outer s1)) as [e [i|e'|]]; simpl in *; done.
Qed.
End mapper_fuel.

Section chains.
Variable deps_of : ModRef -> gmap string ModRef.

Lemma is_chain_tail m l : is_chain deps_of (m :: l) -> is_chain deps_of l.
Proof. destruct l as [|d l]; [done|]. by intros [_ H]. Qed.

Lemma is_chain_app_l l1 l2 : is_chain deps_of (l1 ++ l2) -> is_chain deps_of l1.
Proof.
  induction l1 as [|m l1 IH]; [done|]. intros H.
  destruct l1 as [|d l1]; [done|].
  destruct H as [Hd H]. split; [done|]. by apply IH.
Qed.

Lemma is_chain_NoDup l : acyclic deps_of -> is_chain deps_of l -> NoDup l.
Proof.
  intros Hacyc. induction l as [|m l IH]; intros Hl; [constructor|].
  constructor; [|apply IH; by eapply is_chain_tail].
  intros Hin. apply list_elem_of_split in Hin as (l1 & l2 & ->).
  apply (Hacyc m l1). apply (is_chain_app_l _ l2).
  by rewrite <- app_assoc.
Qed.

Lemma is_chain_closed nodes l :
  closed_under_deps deps_of nodes -> is_chain deps_of l ->
  (forall m, head l = Some m -> m ∈ nodes) -> forall m, m ∈ l -> m ∈ nodes.
Proof.
  intros Hcl. induction l as [|m l IH]; intros Hl Hhd x Hx.
  { by apply elem_of_nil in Hx. }
  assert (m ∈ nodes) as Hm by by apply Hhd.
  apply elem_of_cons in Hx as [->|Hx]; [done|].
  apply IH; [by eapply is_chain_tail| |done].
  destruct l as [|d l]; [done|]. intros ? [= <-].
  destruct Hl as [[k Hk] _]. by eapply Hcl.
Qed.

Lemma finite_acyclic_chains_bounded nodes m :
  acyclic deps_of -> closed_under_deps deps_of nodes -> m ∈ nodes ->
  chains_bounded deps_of (List.length nodes) m.
Proof.
  intros Hacyc Hcl Hm l Hl.
  apply submseteq_length, NoDup_submseteq; [by apply is_chain_NoDup|].
  apply is_chain_closed; [done..|]. by intros ? [= <-].
Qed.

Lemma height_le_chains_bounded n m :
  height_le deps_of n m = true -> chains_bounded deps_of n m.
Proof.
  revert m. induction n as [|n IH]; intros m; simpl; [done|].
  intros Hall [|d l] Hl; simpl; [lia|].
  destruct Hl as [[k Hk] Hl].
  rewrite forallb_forall in Hall.
  specialize (Hall (k, d)). simpl in Hall.
  assert (height_le deps_of n d = true) as Hd.
  { apply Hall. apply list_elem_of_In. by apply elem_of_map_to_list. }
  specialize (IH d Hd l Hl). simpl in IH. lia.
Qed.
End chains.

(** C9. When every dependency chain from [md] has at most [n] modules,
    [instantiate] returns (with the instance or with what the callback
    raised) within [n] nested calls, and a larger allowance changes
    nothing; a finite graph without cycles has such a bound, the number of
    its modules.  The callback is taken to return. *)
Theorem instantiate_terminates {Inst St : Type}
    (deps_of : ModRef -> gmap string ModRef)
    (f : ModRef -> gmap string Inst -> M St Inst)
    (n : nat) (md : ModRef) (s : Mapper Inst St) :
  (forall m dd e, snd (f m dd e) <> OutOfFuel) ->
  (chains_bounded deps_of n md ->
   exists s' r,
     instantiate deps_of f n md s = (s', r) /\ r <> OutOfFuel /\
     forall fuel, n <= fuel -> instantiate deps_of f fuel md s = (s', r)) /\
  (forall nodes,
     acyclic deps_of -> closed_under_deps deps_of nodes -> md ∈ nodes ->
     chains_bounded deps_of (List.length nodes) md /\
     snd (instantiate deps_of f (List.length nodes) md s) <> OutOfFuel).
Proof.
  intros Hf. split.
  - intros Hb. pose proof (instantiate_returns deps_of f Hf n md s Hb) as Hr.
    destruct (instantiate deps_of f n md s) as [s' r] eqn:Hrun.
    exists s', r. split; [done|]. split; [done|].
    intros fuel Hle. by eapply instantiate_fuel_mono.
  - intros nodes Hacyc Hcl Hm.
    pose proof (finite_acyclic_chains_bounded deps_of nodes md Hacyc Hcl Hm) as Hb.
    split; [done|]. by apply instantiate_returns.
Qed.

(** In the diamond the longest chain from d has three modules, and three
    nested calls are enough. *)
Lemma instantiate_terminates_witness :
  exists s' r,
    instantiate diamond naming_instantiator 3 "d" (new_mapper tt) = (s', r) /\
    r <> OutOfFuel /\
    forall fuel, 3 <= fuel ->
      instantiate diamond naming_instantiator fuel "d" (new_mapper tt) = (s', r).
Proof.
  apply (instantiate_terminates diamond naming_instantiator 3 "d" (new_mapper tt)).
  - intros m dd e. simpl. discriminate.
  - apply height_le_chains_bounded. vm_compute. reflexivity.
Defined.

(** ** DependencyMapper: order of instantiation *)

Section mapper_order.
Context {Inst St : Type}.
Variable deps_of : ModRef -> gmap string ModRef.
Variable f : ModRef -> gmap string Inst -> M St Inst.
Hypothesis Hacyc : acyclic deps_of.

Abbreviation MS := (Mapper Inst (list (Call Inst) * St)).
Abbreviation inst := (instantiate deps_of (logged f)).

Lemma Step_refl P (s : MS) : Inv deps_of s -> Step deps_of P s s.
Proof.
  intros HI. split; [done|done|by exists []; rewrite app_nil_r|].
  intros m Hn [i Hi]. congruence.
Qed.

Lemma Step_trans (P : ModRef -> Prop) (s1 s2 s3 : MS) :
  Step deps_of P s1 s2 -> Step deps_of P s2 s3 -> Step deps_of P s1 s3.
Proof.
  intros [_ Hc1 [l1 Hl1] Hn1] [HI Hc2 [l2 Hl2] Hn2].
  split; [done|by etrans| |].
  - exists (l1 ++ l2). by rewrite Hl2, Hl1, app_assoc.
  - intros m Hm Hs. destruct (_instances s2 !! m) as [i|] eqn:H2.
    + apply Hn1; [done|by eexists].
    + by apply Hn2.
Qed.

Lemma Step_weaken (P Q : ModRef -> Prop) (s s' : MS) :
  (forall m, P m -> Q m) -> Step deps_of P s s' -> Step deps_of Q s s'.
Proof. intros HPQ [? ? ? Hn]. split; auto. Qed.

Lemma reaches_refl m : reaches deps_of m m.
Proof. by exists []. Qed.

Lemma reaches_step m k d x :
  deps_of m !! k = Some d -> reaches deps_of d x -> reaches deps_of m x.
Proof.
  intros Hd (l & Hl & Hlast). exists (d :: l). split.
  - split; [by exists k|done].
  - done.
Qed.

Lemma not_reaches_back m k d :
  deps_of m !! k = Some d -> ~ reaches deps_of d m.
Proof.
  intros Hd (l & Hl & Hlast).
  apply last_Some in Hlast as [l' Hl'].
  apply (Hacyc m l'). change (is_chain deps_of (m :: (l' ++ [m]))).
  rewrite <- Hl'. split; [by exists k|done].
Qed.
Lemma dict_comprehension_step (rec : ModRef -> M MS Inst) (P : ModRef -> Prop) items :
  rec_ok deps_of rec -> NoDup items.*1 ->
  (forall k d x, (k, d) ∈ items -> reaches deps_of d x -> P x) ->
  forall acc s s' dd,
    Inv deps_of s -> dict_comprehension rec items acc s = (s', Ok dd) ->
    Step deps_of P s s' /\
    (forall k, k ∉ items.*1 -> dd !! k = acc !! k) /\
    (forall k d, (k, d) ∈ items ->
                 exists j, dd !! k = Some j /\ _instances s' !! d = Some j).
Proof.
  intros Hrec. induction items as [|[k d] items IH]; intros Hnd HP acc s s' dd HI.
  - simpl. intros [= <- <-]. split; [by apply Step_refl|]. split; [done|].
    intros k d Hin. by apply elem_of_nil in Hin.
  - simpl. unfold bind at 1. destruct (rec d s) as [s1 [i|e|]] eqn:Hd; [|done..].
    intros Hrest. apply NoDup_cons in Hnd as [Hk Hnd].
    destruct (Hrec d s s1 i HI Hd) as [Hstep1 Hi].
    destruct (IH Hnd (fun k' d' x Hin => HP k' d' x (list_elem_of_further _ _ _ Hin))
                _ _ _ _ (step_inv _ _ _ _ Hstep1) Hrest) as (Hstep2 & Hout & Hin).
    split; [|split].
    + eapply Step_trans; [|exact Hstep2].
      eapply Step_weaken; [|exact Hstep1]. intros x Hx. eapply HP; [left|done].
    + intros k' Hk'. rewrite Hout.
      * apply lookup_insert_ne. intros ->. apply Hk'. left.
      * intros Hin'. apply Hk'. by right.
    + intros k' d' Hkd. apply elem_of_cons in Hkd as [[= -> ->]|Hkd]; [|by apply Hin].
      exists i. split.
      * rewrite Hout by done. apply lookup_insert_eq.
      * eapply lookup_weaken; [exact Hi|]. apply (step_cache _ _ _ _ Hstep2).
Qed.

Lemma snoc_split {A} (l1 : list A) c l2 l x :
  l1 ++ c :: l2 = l ++ [x] ->
  (l2 = [] /\ l1 = l /\ c = x) \/ (exists l2', l2 = l2' ++ [x] /\ l = l1 ++ c :: l2').
Proof.
  destruct l2 as [|y l2 _] using rev_ind; intros H.
  - left. apply app_inj_tail in H as [-> ->]. done.
  - right. exists l2. rewrite app_comm_cons, app_assoc in H.
    apply app_inj_tail in H as [-> ->]. done.
Qed.

Lemma wired_from_mono (l l' : list (Call Inst)) m dd :
  wired_from deps_of l m dd -> wired_from deps_of (l ++ l') m dd.
Proof.
  intros H k. specialize (H k). destruct (deps_of m !! k); [|done].
  destruct H as (dd' & j & Hin & Hk). exists dd', j. split; [|done].
  apply elem_of_app. by left.
Qed.

Lemma instantiate_step fuel : rec_ok deps_of (inst fuel).
Proof.
  induction fuel as [|fuel IH]; intros md s s' i HI; [done|].
  rewrite instantiate_S.
  destruct (_instances s !! md) as [i0|] eqn:Hmd.
  { intros [= <- <-]. split; [by apply Step_refl|done]. }
  destruct (dict_comprehension _ _ _ _) as [s1 [dd|e|]] eqn:Hdc; [|done..].
  destruct (dict_comprehension_step (inst fuel)
              (fun x => exists k d, deps_of md !! k = Some d /\ reaches deps_of d x)
              (map_to_list (deps_of md)) IH (NoDup_fst_map_to_list _)) with
    (acc := (∅ : gmap string Inst)) (s := s) (s' := s1) (dd := dd)
    as (Hstep1 & Hout & Hin); [|done|done|].
  { intros k d x Hkd Hx. exists k, d. split; [|done]. by apply elem_of_map_to_list. }
  assert (_instances s1 !! md = None) as Hmd1.
  { destruct (_instances s1 !! md) as [j|] eqn:Hj; [|done]. exfalso.
    destruct (step_new _ _ _ _ Hstep1 md Hmd) as (k & d & Hd & Hreach);
      [by rewrite Hj|].
    by eapply not_reaches_back. }
  unfold logged. destruct (f md dd (outer s1).2) as [e r] eqn:Hf.
  destruct r as [i'|x|]; [|done..]. intros [= <- ->].
  pose proof (step_inv _ _ _ _ Hstep1) as HI1.
  assert (wired_from deps_of (log_of s1) md dd) as Hwired.
  { intros k. destruct (deps_of md !! k) as [d|] eqn:Hk.
    - destruct (Hin k d) as (j & Hj & Hc); [by apply elem_of_map_to_list|].
      destruct (inv_cached _ _ HI1 d j Hc) as [dd' Hlog]. by exists dd', j.
    - rewrite Hout; [done|]. intros Hkin.
      apply list_elem_of_fmap in Hkin as ([k' d] & -> & Hkd).
      apply elem_of_map_to_list in Hkd. simpl in Hk. congruence. }
  split; [|apply lookup_insert_eq].
  split.
  - split; unfold log_of; simpl.
    + intros m j Hm. destruct (decide (m = md)) as [->|Hne].
      * rewrite lookup_insert_eq in Hm. simplify_eq. exists dd.
        apply elem_of_app. right. left.
      * rewrite lookup_insert_ne in Hm by done.
        destruct (inv_cached _ _ HI1 m j Hm) as [dd' Hlog]. exists dd'.
        apply elem_of_app. by left.
    + intros m dd' r Hlog. apply elem_of_app in Hlog as [Hlog|Hlog].
      * destruct (inv_logged _ _ HI1 m dd' r Hlog) as (j & -> & Hc). exists j.
        split; [done|]. rewrite lookup_insert_ne; [done|]. congruence.
      * apply list_elem_of_singleton in Hlog as [= -> -> ->]. exists i.
        split; [done|apply lookup_insert_eq].
    + rewrite fmap_app. apply NoDup_app. split; [apply (inv_nodup _ _ HI1)|].
      split; [|apply NoDup_singleton].
      intros m Hm Hm'. apply list_elem_of_singleton in Hm'. simpl in Hm'. subst m.
      apply list_elem_of_fmap in Hm as ([[m dd'] r] & Heq & Hlog).
      unfold callee in Heq. simpl in Heq. subst m.
      destruct (inv_logged _ _ HI1 md dd' r Hlog) as (j & _ & Hc). congruence.
    + intros l1 m dd' r l2 Heq. symmetry in Heq.
      apply snoc_split in Heq as [(-> & -> & Heq)|(l2' & -> & Heq)].
      * by injection Heq as -> -> ->.
      * by eapply (inv_order _ _ HI1).
  - simpl. etrans; [apply (step_cache _ _ _ _ Hstep1)|]. by apply insert_subseteq.
  - destruct (step_log _ _ _ _ Hstep1) as [l Hl]. exists (l ++ [(md, dd, Ok i)]).
    unfold log_of in *. simpl. by rewrite Hl, app_assoc.
  - simpl. intros m Hm Hs. destruct (decide (m = md)) as [->|Hne].
    { apply reaches_refl. }
    rewrite lookup_insert_ne in Hs by done.
    destruct (step_new _ _ _ _ Hstep1 m Hm Hs) as (k & d & Hd & Hreach).
    by eapply reaches_step.
Qed.

Lemma Inv_new (e : St) : Inv deps_of (new_mapper (Inst := Inst) ([], e)).
Proof.
  split; unfold log_of; simpl.
  - intros m i. by rewrite lookup_empty.
  - intros m dd r Hin. by apply elem_of_nil in Hin.
  - constructor.
  - intros l1 m dd r l2 Heq. by destruct l1.
Qed.

Lemma reachable_Inv s : mapper_reachable deps_of f s -> Inv deps_of s.
Proof.
  induction 1 as [e|s fuel md s' i _ IH Hrun]; [apply Inv_new|].
  by destruct (instantiate_step fuel md s s' i IH Hrun) as [[? _ _ _] _].
Qed.
End mapper_order.

Section ranked.
Variable deps_of : ModRef -> gmap string ModRef.
Variable rank : ModRef -> nat.
Hypothesis rank_edge : forall m k d, deps_of m !! k = Some d -> rank d < rank m.

Lemma rank_chain l m x :
  is_chain deps_of (m :: l) -> last (m :: l) = Some x -> rank x <= rank m.
Proof.
  revert m. induction l as [|d l IH]; intros m Hl Hlast.
  - simpl in Hlast. by simplify_eq.
  - destruct Hl as [[k Hk] Hl]. apply rank_edge in Hk.
    specialize (IH d Hl Hlast). lia.
Qed.

Lemma rank_acyclic : acyclic deps_of.
Proof.
  intros m l Hl. change (is_chain deps_of (m :: (l ++ [m]))) in Hl.
  destruct (l ++ [m]) as [|d l'] eqn:Heq; [by destruct l|].
  destruct Hl as [[k Hk] Hl]. apply rank_edge in Hk.
  assert (last (d :: l') = Some m) as Hlast by by rewrite <- Heq, last_snoc.
  pose proof (rank_chain l' d m Hl Hlast). lia.
Qed.
End ranked.

Lemma rank_falls_acyclic g rank : rank_falls g rank = true -> acyclic (graph_of g).
Proof.
  intros Hrank. apply (rank_acyclic _ rank). intros m k d.
  unfold graph_of. intros Hk.
  destruct ((list_to_map g : gmap ModRef _) !! m) as [ds|] eqn:Hm; simpl in Hk;
    [|by rewrite lookup_empty in Hk].
  apply elem_of_list_to_map_2 in Hm, Hk.
  unfold rank_falls in Hrank. rewrite forallb_forall in Hrank.
  specialize (Hrank (m, ds)). simpl in Hrank.
  assert (forallb (fun kd => Nat.ltb (rank (snd kd)) (rank m)) ds = true) as Hds
    by (apply Hrank; by apply list_elem_of_In).
  rewrite forallb_forall in Hds. specialize (Hds (k, d)). simpl in Hds.
  apply Nat.ltb_lt, Hds. by apply list_elem_of_In.
Qed.

Lemma heap_rank_falls_acyclic h rank :
  heap_rank_falls h rank = true -> acyclic (heap_deps h).
Proof.
  intros Hrank. apply (rank_acyclic _ rank). intros md k d.
  unfold heap_deps. destruct (h !! md) as [m|] eqn:Hm; [|by rewrite lookup_empty].
  intros Hk. unfold heap_rank_falls in Hrank. rewrite forallb_forall in Hrank.
  specialize (Hrank (md, m)). simpl in Hrank.
  assert (forallb (fun kd => Nat.ltb (rank (snd kd)) (rank md))
            (map_to_list (LOADED_DEPS m)) = true) as Hds.
  { apply Hrank. apply list_elem_of_In. by apply elem_of_map_to_list. }
  rewrite forallb_forall in Hds. specialize (Hds (k, d)). simpl in Hds.
  apply Nat.ltb_lt, Hds. apply list_elem_of_In. by apply elem_of_map_to_list.
Qed.



Lemma diamond_acyclic : acyclic diamond.
Proof. apply (rank_falls_acyclic diamond_table diamond_rank). reflexivity. Qed.

Lemma diamond_run_reachable :
  mapper_reachable diamond naming_instantiator diamond_run.
Proof.
  eapply (reach_instantiate _ _ (new_mapper ([], tt)) 3 "d"); [apply reach_new|].
  vm_compute. reflexivity.
Qed.


Example diamond_order : callee <$> log_of diamond_run = ["a"; "c"; "b"; "d"].
Proof. vm_compute. reflexivity. Qed.

(** ** Memoisation *)

Lemma load_cached E fuel dep st md :
  _loaded st !! unique_name dep = Some (Some md) ->
  load E (S fuel) dep st = (st, Ok md).
Proof. intros H. simpl. by rewrite H. Qed.

Lemma instantiate_ok_cached {Inst St} deps_of (f : ModRef -> gmap string Inst -> M St Inst)
    fuel md s s' i :
  instantiate deps_of f fuel md s = (s', Ok i) -> _instances s' !! md = Some i.
Proof.
  destruct fuel as [|fuel]; [done|]. rewrite instantiate_S.
  destruct (_instances s !! md) as [i0|] eqn:Hmd.
  { by intros [= <- <-]. }
  destruct (dict_comprehension _ _ _ _) as [s1 [dd|e|]]; [|done..].
  destruct (f md dd (outer s1)) as [e [j|x|]]; [|done..].
  intros [= <- <-]. apply lookup_insert_eq.
Qed.

Lemma instantiate_cached {Inst St} deps_of (f : ModRef -> gmap string Inst -> M St Inst)
    fuel md s i :
  _instances s !! md = Some i -> instantiate deps_of f (S fuel) md s = (s, Ok i).
Proof. intros H. rewrite instantiate_S. by rewrite H. Qed.

(** C3. Once a load of an identity has returned a module object, any
    later load of a dependency with the same identity -- whatever was
    loaded in between -- returns that same object and leaves the whole
    state (load table and imported modules) as it was, so nothing is parsed
    again.  Once [instantiate] has returned an instance for a definition,
    another call on the same mapper returns that instance and leaves the
    mapper, and the callback's state, as they were.  On an acyclic graph any
    two instantiator calls whose modules depend on the same definition were
    given the same instance for it, the cached one. *)
Theorem memoization :
  (forall (E : Env) fuel dep st st' md,
      load E fuel dep st = (st', Ok md) ->
      forall dep' fuel' n later,
        unique_name dep' = unique_name dep ->
        load E (S fuel') dep' (load_all E n later st') =
        (load_all E n later st', Ok md)) /\
  (forall (Inst St : Type) deps_of (f : ModRef -> gmap string Inst -> M St Inst)
          fuel md s s' i,
      instantiate deps_of f fuel md s = (s', Ok i) ->
      forall fuel', instantiate deps_of f (S fuel') md s' = (s', Ok i)) /\
  (forall (Inst St : Type) deps_of (f : ModRef -> gmap string Inst -> M St Inst)
          (s : Mapper Inst (list (Call Inst) * St)),
      acyclic deps_of -> mapper_reachable deps_of f s ->
      forall m1 dd1 r1 m2 dd2 r2 k1 k2 b,
        (m1, dd1, r1) ∈ log_of s -> (m2, dd2, r2) ∈ log_of s ->
        deps_of m1 !! k1 = Some b -> deps_of m2 !! k2 = Some b ->
        exists j, dd1 !! k1 = Some j /\ dd2 !! k2 = Some j /\
                  _instances s !! b = Some j).
Proof.
  split; [|split].
  - intros E fuel dep st st' md Hload dep' fuel' n later Hname.
    apply load_cached. rewrite Hname.
    eapply lookup_weaken; [|apply load_all_keeps_table].
    pose proof (load_ok_loaded E fuel dep st md) as H.
    rewrite Hload in H. by apply H.
  - intros Inst St deps_of f fuel md s s' i Hrun fuel'.
    apply instantiate_cached. by eapply instantiate_ok_cached.
  - intros Inst St deps_of f s Hacyc Hreach m1 dd1 r1 m2 dd2 r2 k1 k2 b H1 H2 Hk1 Hk2.
    pose proof (reachable_Inv deps_of f Hacyc s Hreach) as HI.
    assert (forall m dd r k, (m, dd, r) ∈ log_of s -> deps_of m !! k = Some b ->
              exists j, dd !! k = Some j /\ _instances s !! b = Some j) as Hone.
    { intros m dd r k Hlog Hk.
      apply list_elem_of_split in Hlog as (l1 & l2 & Heq).
      pose proof (inv_order _ _ HI l1 m dd r l2 Heq k) as Hw. rewrite Hk in Hw.
      destruct Hw as (dd' & j & Hin & Hj). exists j. split; [done|].
      destruct (inv_logged _ _ HI b dd' (Ok j)) as (j' & [= <-] & Hc); [|done].
      rewrite Heq. apply elem_of_app. by left. }
    destruct (Hone _ _ _ _ H1 Hk1) as (j1 & Hj1 & Hc1).
    destruct (Hone _ _ _ _ H2 Hk2) as (j2 & Hj2 & Hc2).
    exists j1. split; [done|]. split; [|done]. congruence.
Qed.

Lemma memoization_witness :
  (load env_chain 4 (example_dep "a")
     (load_all env_chain 4 [example_dep "c"]
        (fst (load env_chain 4 (example_dep "a") empty_state))) =
   (load_all env_chain 4 [example_dep "c"]
      (fst (load env_chain 4 (example_dep "a") empty_state)),
    Ok "RECIPE_MODULES.a")) /\
  (instantiate diamond (logged naming_instantiator) 1 "d" diamond_run =
   (diamond_run, Ok ["d"; "c"; "a"; "b"; "a"])) /\
  (exists j, ({["a" := ["a"]]} : gmap string (list string)) !! "a" = Some j /\
             ({["a" := ["a"]]} : gmap string (list string)) !! "a" = Some j /\
             _instances diamond_run !! "a" = Some j).
Proof.
  destruct memoization as (Hload & Hinst & Hshare).
  split; [|split].
  - apply (Hload env_chain 4 (example_dep "a") empty_state
             (fst (load env_chain 4 (example_dep "a") empty_state))
             "RECIPE_MODULES.a"); [vm_compute; reflexivity|reflexivity].
  - apply (Hinst _ _ diamond (logged naming_instantiator) 3 "d" (new_mapper ([], tt))).
    vm_compute. reflexivity.
  - apply (Hshare _ _ diamond naming_instantiator diamond_run diamond_acyclic
             diamond_run_reachable
             "b" {["a" := ["a"]]} (Ok ["b"; "a"])
             "c" {["a" := ["a"]]} (Ok ["c"; "a"]) "a" "a" "a").
    + vm_compute. right. right. left.
    + vm_compute. right. left.
    + vm_compute. reflexivity.
    + vm_compute. reflexivity.
Defined.

(** ** Property injection *)

Section invoke_facts.
Context {R : Type}.
Variable all_props : gmap string PyVal.
Variable prop_defs : gmap string Property.

Lemma resolve_args_app l1 l2 props extra :
  resolve_args all_props prop_defs (l1 ++ l2) props extra =
  match resolve_args all_props prop_defs l1 props extra with
  | Ok (props', extra') => resolve_args all_props prop_defs l2 props' extra'
  | Raise e => Raise e
  | OutOfFuel => OutOfFuel
  end.
Proof.
  revert props extra. induction l1 as [|arg l1 IH]; intros props extra; simpl; [done|].
  destruct (extra !! arg); [apply IH|].
  destruct (prop_defs !! arg) as [p|]; [|done].
  destruct (interpret p _); [apply IH|done..].
Qed.

Lemma resolve_args_shrinks l props extra props' extra' :
  resolve_args all_props prop_defs l props extra = Ok (props', extra') ->
  extra' ⊆ extra.
Proof.
  revert props extra. induction l as [|arg l IH]; intros props extra; simpl.
  { by intros [= _ <-]. }
  destruct (extra !! arg).
  - intros H. etrans; [by eapply IH|]. apply delete_subseteq.
  - destruct (prop_defs !! arg) as [p|]; [|done].
    destruct (interpret p _); [apply IH|done..].
Qed.

Lemma unconsumed_delete arg extra l :
  unconsumed (delete arg extra) l = delete arg (unconsumed extra l).
Proof.
  unfold unconsumed. induction l as [|a l IH]; simpl; [done|].
  by rewrite IH, delete_delete.
Qed.

Lemma resolve_all_ext (f g : string -> outcome PyVal) l :
  (forall a, a ∈ l -> f a = g a) -> resolve_all f l = resolve_all g l.
Proof.
  induction l as [|a l IH]; intros H; simpl; [done|].
  rewrite (H a) by left. rewrite IH; [done|]. intros b Hb. apply H. by right.
Qed.

Lemma resolve_args_by_priority l props extra :
  NoDup l ->
  resolve_args all_props prop_defs l props extra =
  match resolve_all (resolve_by_priority all_props prop_defs extra) l with
  | Ok vs => Ok (props ++ vs, unconsumed extra l)
  | Raise e => Raise e
  | OutOfFuel => OutOfFuel
  end.
Proof.
  intros Hnd. revert props extra.
  induction Hnd as [|arg l Hnotin Hnd IH]; intros props extra; simpl.
  { by rewrite app_nil_r. }
  unfold resolve_by_priority at 1.
  destruct (extra !! arg) as [v|] eqn:Harg.
  - rewrite IH.
    rewrite (resolve_all_ext (resolve_by_priority all_props prop_defs (delete arg extra))
               (resolve_by_priority all_props prop_defs extra)).
    + destruct (resolve_all _ l); [|done..].
      by rewrite <- app_assoc, unconsumed_delete.
    + intros a Ha. unfold resolve_by_priority.
      rewrite lookup_delete_ne; [done|]. by intros ->.
  - destruct (prop_defs !! arg) as [p|]; [|done].
    destruct (interpret p _) as [v|e|]; [|done..].
    rewrite IH. destruct (resolve_all _ l); [|done..].
    rewrite <- app_assoc. simpl. f_equal. f_equal.
    symmetry. apply delete_id.
    unfold unconsumed. clear -Harg. induction l as [|a l IHl]; simpl; [done|].
    destruct (decide (a = arg)) as [->|Hne]; [apply lookup_delete_eq|].
    by rewrite lookup_delete_ne.
Qed.
End invoke_facts.

(** C4. For a callable whose formal parameters are distinct (as Python
    requires), [invoke_with_properties] is the priority rule: the receiver
    of a class is dropped; each parameter, in declaration order, is taken
    from the extra keyword arguments if it is there, else must be in the
    property schema (else [UndefinedPropertyException] naming it), else is
    the property's rule applied to the supplied value or to the unset
    sentinel; the first parameter that does not resolve ends the call with
    its exception; otherwise the callable receives the resolved values
    positionally and the extra arguments no parameter consumed. *)
Theorem property_injection {R : Type} (callable_obj : Callable R)
    (all_props : gmap string PyVal) (prop_defs : gmap string Property)
    (additional_args : gmap string PyVal) :
  NoDup (argspec_args callable_obj) ->
  invoke_with_properties callable_obj all_props prop_defs additional_args =
  invoke_by_priority callable_obj all_props prop_defs additional_args.
Proof.
  intros Hnd. unfold invoke_with_properties, invoke_by_priority.
  destruct (arg_names_of callable_obj) as [names|e|] eqn:Hnames; [|done..].
  assert (NoDup names) as Hnd'.
  { unfold arg_names_of in Hnames. destruct (isclass callable_obj).
    - destruct (argspec_args callable_obj) as [|self names']; [done|].
      simplify_eq. by apply NoDup_cons in Hnd as [_ ?].
    - by simplify_eq. }
  rewrite resolve_args_by_priority by done.
  by destruct (resolve_all _ names).
Qed.

Lemma property_injection_witness :
  invoke_with_properties (example_function ["dep"; "p"] [])
    ∅ {["p" := Property_with (Some (PyInt 5))]}
    {["dep" := PyStr "x"; "engine" := PyEngine]} =
  invoke_by_priority (example_function ["dep"; "p"] [])
    ∅ {["p" := Property_with (Some (PyInt 5))]}
    {["dep" := PyStr "x"; "engine" := PyEngine]}.
Proof.
  apply (property_injection (example_function ["dep"; "p"] [])).
  apply (bool_decide_unpack _). vm_compute. exact I.
Defined.

(** The spec's examples of precedence, with a property declared with
    default 5: unset gives 5, a supplied 7 gives 7, an extra argument of
    the same name wins over both, and a parameter the schema does not
    declare raises. *)
Example property_precedence :
  invoke_with_properties (example_function ["p"] [])
    ∅ {["p" := Property_with (Some (PyInt 5))]} ∅ = Ok ([PyInt 5], []) /\
  invoke_with_properties (example_function ["p"] [])
    {["p" := PyInt 7]} {["p" := Property_with (Some (PyInt 5))]} ∅ = Ok ([PyInt 7], []) /\
  invoke_with_properties (example_function ["p"] [])
    {["p" := PyInt 7]} {["p" := Property_with (Some (PyInt 5))]} {["p" := PyInt 9]}
    = Ok ([PyInt 9], []) /\
  invoke_with_properties (example_function ["p"] [])
    {["p" := PyInt 7]} ∅ ∅
    = Raise (UndefinedPropertyException "Missing property definition for 'p'.") /\
  invoke_with_properties (example_function ["p"] [])
    ∅ {["p" := Property_with None]} ∅
    = Raise (ValueError "No default specified and no value provided").
Proof. repeat split; vm_compute; reflexivity. Qed.

(** C10. The defaults of the callable's own signature play no part: the
    result is the same whatever they are, and a parameter that is neither
    among the extra arguments nor in the property schema ends the call with
    [UndefinedPropertyException] naming it as soon as the parameters before
    it have resolved -- and in no case does the call go through. *)
Theorem signature_defaults_ignored {R : Type} (callable_obj : Callable R)
    (all_props : gmap string PyVal) (prop_defs : gmap string Property)
    (additional_args : gmap string PyVal) (before after : list string)
    (arg : string) :
  arg_names_of callable_obj = Ok (before ++ arg :: after) ->
  additional_args !! arg = None ->
  prop_defs !! arg = None ->
  (forall defaults,
      invoke_with_properties
        (mkCallable (isclass callable_obj) (argspec_args callable_obj) defaults
                    (call callable_obj))
        all_props prop_defs additional_args =
      invoke_with_properties callable_obj all_props prop_defs additional_args) /\
  is_ok (invoke_with_properties callable_obj all_props prop_defs additional_args)
    = false /\
  (is_ok (resolve_args all_props prop_defs before [] additional_args) = true ->
   invoke_with_properties callable_obj all_props prop_defs additional_args =
   Raise (UndefinedPropertyException
     (String.append "Missing property definition for '" (String.append arg "'.")))).
Proof.
  intros Hnames Hextra Hdef. split; [done|].
  unfold invoke_with_properties. rewrite Hnames, resolve_args_app.
  destruct (resolve_args all_props prop_defs before [] additional_args)
    as [[props extra]|e|] eqn:Hbefore; [|done..].
  simpl. apply resolve_args_shrinks in Hbefore.
  rewrite (lookup_weaken_None _ _ _ Hextra Hbefore), Hdef. done.
Qed.

(** A parameter [q] with a default of its own in the signature, known to
    neither the extra arguments nor the schema. *)
Lemma signature_defaults_ignored_witness :
  invoke_with_properties (example_function ["p"; "q"] [PyInt 3])
    ∅ {["p" := Property_with (Some (PyInt 5))]} ∅ =
  Raise (UndefinedPropertyException "Missing property definition for 'q'.").
Proof.
  apply (signature_defaults_ignored (example_function ["p"; "q"] [PyInt 3])
           ∅ {["p" := Property_with (Some (PyInt 5))]} ∅ ["p"] [] "q");
    vm_compute; reflexivity.
Defined.

(** ** Logging does not change what the mapper does *)

Section mapper_erase.
Context {Inst St : Type}.
Variable deps_of : ModRef -> gmap string ModRef.
Variable f : ModRef -> gmap string Inst -> M St Inst.

Lemma dict_comprehension_erase
    (recL : ModRef -> M (Mapper Inst (list (Call Inst) * St)) Inst)
    (rec : ModRef -> M (Mapper Inst St) Inst) items :
  simulates recL rec ->
  forall acc s,
    dict_comprehension rec items acc (erase_log s) =
    (erase_log (fst (dict_comprehension recL items acc s)),
     snd (dict_comprehension recL items acc s)).
Proof.
  intros Hsim. induction items as [|[k d] items IH]; intros acc s; simpl; [done|].
  unfold bind. rewrite (Hsim d s).
  destruct (recL d s) as [s1 [i|e|]]; simpl; [apply IH|done..].
Qed.

Lemma instantiate_erase fuel :
  simulates (instantiate deps_of (logged f) fuel) (instantiate deps_of f fuel).
Proof.
  induction fuel as [|fuel IH]; intros md s; [done|].
  rewrite !instantiate_S. simpl.
  destruct (_instances s !! md) as [i|]; [done|].
  rewrite (dict_comprehension_erase _ _ _ IH).
  destruct (dict_comprehension (instantiate deps_of (logged f) fuel) _ _ _)
    as [s1 [dd|e|]]; simpl; [|done..].
  unfold logged. destruct (f md dd (outer s1).2) as [e [i|x|]]; done.
Qed.

Lemma dict_comprehension_faithful (recL : ModRef -> M (Mapper Inst (list (Call Inst) * St)) Inst) items :
  (forall d s, faithful_log f s -> faithful_log f (fst (recL d s))) ->
  forall acc s, faithful_log f s ->
                faithful_log f (fst (dict_comprehension recL items acc s)).
Proof.
  intros Hrec. induction items as [|[k d] items IH]; intros acc s Hs; simpl; [done|].
  unfold bind. specialize (Hrec d s Hs).
  destruct (recL d s) as [s1 [i|e|]]; simpl in *; [by apply IH|done..].
Qed.

Lemma instantiate_faithful fuel md s :
  faithful_log f s -> faithful_log f (fst (instantiate deps_of (logged f) fuel md s)).
Proof.
  revert md s. induction fuel as [|fuel IH]; intros md s Hs; [done|].
  rewrite instantiate_S. destruct (_instances s !! md) as [i|]; [done|].
  pose proof (dict_comprehension_faithful (instantiate deps_of (logged f) fuel)
                (map_to_list (deps_of md)) IH ∅ s Hs) as H1.
  destruct (dict_comprehension _ _ _ _) as [s1 [dd|e|]]; simpl in *; [|done..].
  unfold logged. destruct (f md dd (outer s1).2) as [e r] eqn:Hf.
  assert (faithful_log f (mkMapper (_instances s1)
                          (log_of s1 ++ [(md, dd, r)], e))) as Hnew.
  { intros m dd' r' Hin. unfold log_of in Hin. simpl in Hin.
    apply elem_of_app in Hin as [Hin|Hin]; [by apply H1|].
    apply list_elem_of_singleton in Hin as [= -> -> ->].
    exists (outer s1).2. by rewrite Hf. }
  destruct r as [i|x|]; simpl; [|done..].
  intros m dd' r' Hin. by apply (Hnew m dd' r').
Qed.

Hypothesis Hacyc : acyclic deps_of.

(** What the loop of a composer ([dict_comprehension] of [instantiate]
    over the top-level dependencies, on a new mapper) leaves behind. *)
Lemma composer_structure fuel items acc e s' ns :
  NoDup items.*1 ->
  dict_comprehension (instantiate deps_of f fuel) items acc (new_mapper e)
    = (s', Ok ns) ->
  (forall k, k ∉ items.*1 -> ns !! k = acc !! k) /\
  (forall k d, (k, d) ∈ items ->
               exists j, ns !! k = Some j /\ _instances s' !! d = Some j) /\
  well_wired deps_of f (_instances s').
Proof.
  intros Hnd Hrun.
  pose proof (dict_comprehension_erase _ _ items (instantiate_erase fuel) acc
                (new_mapper ([], e))) as Hsim.
  change (erase_log (new_mapper ([], e))) with (new_mapper (Inst := Inst) e) in Hsim.
  rewrite Hrun in Hsim.
  destruct (dict_comprehension (instantiate deps_of (logged f) fuel) items acc
              (new_mapper ([], e))) as [sL rL] eqn:HrunL.
  simpl in Hsim. injection Hsim as -> <-.
  destruct (dict_comprehension_step deps_of
              (instantiate deps_of (logged f) fuel) (fun _ => True) items
              (instantiate_step deps_of f Hacyc fuel) Hnd (fun _ _ _ _ _ => I)
              acc _ _ _ (Inv_new deps_of e) HrunL) as (Hstep & Hout & Hin).
  split; [done|]. split; [done|].
  pose proof (step_inv _ _ _ _ Hstep) as HI.
  assert (faithful_log f sL) as Hfaith.
  { pose proof (dict_comprehension_faithful
                  (instantiate deps_of (logged f) fuel) items
                  (instantiate_faithful fuel) acc (new_mapper ([], e))) as H.
    rewrite HrunL in H. apply H.
    intros m dd r Hin'. by apply elem_of_nil in Hin'. }
  intros md i Hmd. simpl in Hmd.
  destruct (inv_cached _ _ HI md i Hmd) as [dd Hlog].
  destruct (Hfaith md dd (Ok i) Hlog) as [e0 He0].
  exists dd, e0. split; [done|].
  apply list_elem_of_split in Hlog as (l1 & l2 & Heq).
  intros k. pose proof (inv_order _ _ HI l1 md dd (Ok i) l2 Heq k) as Hw.
  destruct (deps_of md !! k) as [d|]; [|done].
  destruct Hw as (dd' & j & Hin' & Hk). exists j. split; [done|].
  destruct (inv_logged _ _ HI d dd' (Ok j)) as (j' & [= <-] & Hc); [|done].
  rewrite Heq. apply elem_of_app. by left.
Qed.
End mapper_erase.

(** ** The composed graphs *)

Section follow_paths.
Context {Inst : Type}.
Variable ns : Inst -> gmap string Inst.
Variable deps_of : ModRef -> gmap string ModRef.
Variable cache : gmap ModRef Inst.

Hypothesis cached_wired : forall md i, cache !! md = Some i -> wired_to ns cache (deps_of md) i.

Lemma follow_def p : forall deps o,
  wired_to ns cache deps o -> p <> [] ->
  match def_at deps_of deps p with
  | Some d => exists j, follow ns o p = Some j /\ cache !! d = Some j
  | None => follow ns o p = None
  end.
Proof.
  induction p as [|k p IH]; intros deps o Hw Hp; [done|]. simpl.
  specialize (Hw k). destruct (deps !! k) as [d|].
  - destruct Hw as (j & -> & Hj). destruct p as [|k' p].
    + by exists j.
    + apply (IH (deps_of d) j); [by apply cached_wired|done].
  - by rewrite Hw.
Qed.

Lemma follow_is_Some deps o p :
  wired_to ns cache deps o ->
  is_Some (follow ns o p) <-> p = [] \/ is_Some (def_at deps_of deps p).
Proof.
  intros Hw. destruct p as [|k p]; [simpl; split; [by left|by eexists]|].
  pose proof (follow_def (k :: p) deps o Hw) as H.
  destruct (def_at deps_of deps (k :: p)) as [d|].
  - destruct H as (j & -> & _); [done|]. split; [right|]; by eexists.
  - rewrite H by done. split; [by intros [? ?]|]. intros [?|[? ?]]; done.
Qed.
End follow_paths.

Lemma wire_recipe_api_spec items : forall m tm ns tns,
  NoDup items.*1 ->
  wire_recipe_api items m tm = Ok (ns, tns) ->
  forall k,
    (k ∉ items.*1 -> ns !! k = m !! k /\ tns !! k = tm !! k) /\
    (forall v, (k, v) ∈ items ->
               ns !! k = Some v /\ exists t, o_test_api v = Some t /\ tns !! k = Some t).
Proof.
  induction items as [|[k0 v0] items IH]; intros m tm ns tns Hnd; simpl.
  - intros [= <- <-] k. split; [done|]. intros v Hin. by apply elem_of_nil in Hin.
  - destruct (o_test_api v0) as [t0|] eqn:Ht0; [|done]. intros Hrun k.
    apply NoDup_cons in Hnd as [Hk0 Hnd].
    destruct (IH _ _ _ _ Hnd Hrun k) as [Hout Hin]. split.
    + intros Hk. destruct Hout as [-> ->]; [intros ?; apply Hk; by right|].
      assert (k0 <> k) by (intros ->; apply Hk; left).
      by rewrite !lookup_insert_ne.
    + intros v Hv. apply elem_of_cons in Hv as [[= -> ->]|Hv]; [|by apply Hin].
      destruct (IH _ _ _ _ Hnd Hrun k0) as [[-> ->] _]; [done|].
      rewrite !lookup_insert_eq. split; [done|]. by exists t0.
Qed.

Lemma wire_test_api_spec items : forall tm,
  NoDup items.*1 ->
  forall k,
    (k ∉ items.*1 -> wire_test_api items tm !! k = tm !! k) /\
    (forall v, (k, v) ∈ items -> wire_test_api items tm !! k = Some v).
Proof.
  induction items as [|[k0 v0] items IH]; intros tm Hnd k; simpl.
  - split; [done|]. intros v Hin. by apply elem_of_nil in Hin.
  - apply NoDup_cons in Hnd as [Hk0 Hnd].
    destruct (IH (<[k0 := v0]> tm) Hnd k) as [Hout Hin]. split.
    + intros Hk. rewrite Hout; [|intros ?; apply Hk; by right].
      apply lookup_insert_ne. intros ->. apply Hk. left.
    + intros v Hv. apply elem_of_cons in Hv as [[= -> ->]|Hv]; [|by apply Hin].
      destruct (IH (<[k0 := v0]> tm) Hnd k0) as [Hfresh _].
      rewrite Hfresh by exact Hk0. apply lookup_insert_eq.
Qed.

Lemma make_test_api_spec h md t :
  make_test_api h md = Ok t ->
  t_m t = ∅ /\ t_module t = Some md /\
  exists m, h !! md = Some m /\
    (truthy (TEST_API m) = false -> t_class t = None) /\
    (forall c, TEST_API m = Some (MClass c) -> t_class t = Some c).
Proof.
  unfold make_test_api. destruct (h !! md) as [m|] eqn:Hm; [|done].
  destruct (TEST_API m) as [[c|id|[|]]|] eqn:HT; simpl; try done;
    intros [= <-]; (split; [done|]); (split; [done|]); exists m;
    (split; [done|]); rewrite HT; simpl; (split; [done|]); intros c'; try done.
  by intros [= ->].
Qed.

Lemma class_callable_fresh c all_props prop_defs kwargs o :
  invoke_with_properties (class_callable c) all_props prop_defs kwargs = Ok o ->
  o_m o = ∅ /\ o_class o = Some c.
Proof.
  unfold invoke_with_properties.
  destruct (arg_names_of (class_callable c)) as [names|e|]; [|done..].
  destruct (resolve_args _ _ _ _ _) as [[props kw]|e|]; [|done..].
  simpl. by intros [= <-].
Qed.

Lemma recipe_api_instantiator_spec h ep td md dd o :
  recipe_api_instantiator h ep td md dd = Ok o ->
  o_m o = dd /\
  exists t,
    o_test_api o = Some t /\ t_module t = Some md /\
    (forall k, t_m t !! k = dd !! k ≫= o_test_api) /\
    (forall k v, dd !! k = Some v -> is_Some (o_test_api v)) /\
    exists m, h !! md = Some m /\
      (truthy (TEST_API m) = false -> t_class t = None) /\
      (forall c, TEST_API m = Some (MClass c) -> t_class t = Some c).
Proof.
  unfold recipe_api_instantiator. destruct (h !! md) as [m|] eqn:Hm; [|done].
  destruct (match PROPERTIES m with Some _ => _ | None => _ end)
    as [mod_api|e|] eqn:Hcall; [|done..].
  assert (o_m mod_api = ∅) as Hfresh.
  { destruct (PROPERTIES m) as [prop_defs|]; [|done].
    destruct (API m) as [[c| |]|]; try done.
    by apply class_callable_fresh in Hcall as [? _]. }
  destruct (make_test_api h md) as [t|e|] eqn:Ht; [|done..].
  apply make_test_api_spec in Ht as (Htm & Htmod & m' & Hm' & Hdefault & Hdeclared).
  rewrite Hm in Hm'. injection Hm' as <-.
  destruct (wire_recipe_api _ _ _) as [[ns tns]|e|] eqn:Hwire; [|done..].
  intros [= <-]. simpl.
  pose proof (wire_recipe_api_spec _ _ _ _ _ (NoDup_fst_map_to_list dd) Hwire) as Hw.
  assert (forall k, ns !! k = dd !! k /\ tns !! k = dd !! k ≫= o_test_api) as Hk.
  { intros k. destruct (Hw k) as [Hout Hin]. destruct (dd !! k) as [v|] eqn:Hv.
    - destruct (Hin v) as (-> & t' & Ht' & ->); [by apply elem_of_map_to_list|].
      simpl. by rewrite Ht'.
    - destruct Hout as [-> ->].
      + intros Hkin. apply list_elem_of_fmap in Hkin as ([k' v] & -> & Hkv).
        apply elem_of_map_to_list in Hkv. simpl in Hv. congruence.
      + by rewrite Hfresh, Htm, !lookup_empty. }
  split; [apply map_eq; intros k; apply Hk|].
  eexists. split; [done|]. simpl. split; [done|]. split; [intros k; apply Hk|].
  split.
  - intros k v Hv. destruct (Hw k) as [_ Hin].
    destruct (Hin v) as (_ & t' & -> & _); [by apply elem_of_map_to_list|]. by eexists.
  - exists m. done.
Qed.

Lemma test_api_instantiator_spec h md dd t :
  test_api_instantiator h md dd = Ok t ->
  t_m t = dd /\ t_module t = Some md /\
  exists m, h !! md = Some m /\
    (truthy (TEST_API m) = false -> t_class t = None) /\
    (forall c, TEST_API m = Some (MClass c) -> t_class t = Some c).
Proof.
  unfold test_api_instantiator.
  destruct (make_test_api h md) as [t0|e|] eqn:Ht; [|done..].
  apply make_test_api_spec in Ht as (Htm & Htmod & m & Hm & Hdefault & Hdeclared).
  intros [= <-]. simpl. split; [|split; [done|by exists m]].
  apply map_eq. intros k.
  destruct (wire_test_api_spec (map_to_list dd) (t_m t0) (NoDup_fst_map_to_list dd) k)
    as [Hout Hin].
  destruct (dd !! k) as [v|] eqn:Hv.
  - apply Hin. by apply elem_of_map_to_list.
  - rewrite Hout, Htm; [done|]. intros Hkin.
    apply list_elem_of_fmap in Hkin as ([k' v] & -> & Hkv).
    apply elem_of_map_to_list in Hkv. simpl in Hv. congruence.
Qed.

(** A declared test-double class is the one instantiated; without one the
    plain default is. *)
Example make_test_api_declared :
  make_test_api
    {[ "x" := with_TEST_API (Some (MClass (example_test_class "XTestApi")))
                (snd (example_module "x" [])) ]} "x"
    = Ok (mkTestApi (Some (example_test_class "XTestApi")) (Some "x") ∅) /\
  make_test_api {[ "x" := snd (example_module "x" []) ]} "x"
    = Ok (mkTestApi None (Some "x") ∅).
Proof. split; vm_compute; reflexivity. Qed.

(** The test doubles attached to the production graph mirror it. *)
Lemma mirror_cached deps_of (cache : gmap ModRef ApiObj) :
  (forall md i, cache !! md = Some i -> wired_to o_m cache (deps_of md) i) ->
  (forall md i, cache !! md = Some i ->
     exists t, o_test_api i = Some t /\
               forall k, t_m t !! k = o_m i !! k ≫= o_test_api) ->
  forall q md i t,
    cache !! md = Some i -> o_test_api i = Some t ->
    test_at t q = api_at i q ≫= o_test_api.
Proof.
  intros Hwired Htest. unfold test_at, api_at.
  induction q as [|k q IH]; intros md i t Hi Ht; simpl.
  { by rewrite Ht. }
  destruct (Htest md i Hi) as (t' & Ht' & Htm). rewrite Ht in Ht'. injection Ht' as <-.
  rewrite Htm. pose proof (Hwired md i Hi k) as Hw.
  destruct (deps_of md !! k) as [d|].
  - destruct Hw as (j & -> & Hj). simpl.
    destruct (Htest d j Hj) as (tj & Htj & _). rewrite Htj.
    by apply (IH d).
  - by rewrite Hw.
Qed.

(** C6. Cross-wiring: an instance the instantiator of [create_recipe_api]
    returns has, under every local name [k] of the mapping it was given,
    the dependency's capability instance in its own namespace and the
    dependency's test double in the namespace of its own test double, and
    nothing under other names; its test double is of the module's declared
    test-double class, or the plain default when the module declares none.
    An instance the instantiator of [create_test_api] returns has exactly
    the mapping it was given as its namespace.  So, on an acyclic graph,
    the two composed roots answer the same paths of local names -- the
    paths of the definition graph from the top-level dependencies -- and the
    test double of every production instance mirrors that instance path by
    path. *)
Theorem cross_wiring_isomorphism (h : gmap ModRef Module)
    (engine_properties : gmap string PyVal)
    (get_module_test_data : option string -> PyVal) :
  (forall md deps o,
      recipe_api_instantiator h engine_properties get_module_test_data md deps = Ok o ->
      exists t m,
        o_test_api o = Some t /\ h !! md = Some m /\
        (forall k v, deps !! k = Some v ->
                     o_m o !! k = Some v /\
                     exists tv, o_test_api v = Some tv /\ t_m t !! k = Some tv) /\
        (forall k, deps !! k = None -> o_m o !! k = None /\ t_m t !! k = None) /\
        (truthy (TEST_API m) = false -> t_class t = None) /\
        (forall c, TEST_API m = Some (MClass c) -> t_class t = Some c)) /\
  (forall md deps t,
      test_api_instantiator h md deps = Ok t ->
      exists m,
        t_m t = deps /\ h !! md = Some m /\
        (truthy (TEST_API m) = false -> t_class t = None) /\
        (forall c, TEST_API m = Some (MClass c) -> t_class t = Some c)) /\
  (forall fuel fuel' toplevel_deps api tapi,
      acyclic (heap_deps h) ->
      create_recipe_api h engine_properties get_module_test_data fuel toplevel_deps
        = Ok api ->
      create_test_api h fuel' toplevel_deps = Ok tapi ->
      (forall p, is_Some (api_at api p) <-> is_Some (test_at tapi p)) /\
      (forall p, p <> [] ->
                 (is_Some (api_at api p) <->
                  is_Some (def_at (heap_deps h) toplevel_deps p))) /\
      (forall p o, p <> [] -> api_at api p = Some o ->
                   exists t, o_test_api o = Some t /\
                             forall q, test_at t q = api_at o q ≫= o_test_api)).
Proof.
  split; [|split].
  - intros md deps o Hrun.
    apply recipe_api_instantiator_spec in Hrun
      as (Hm & t & Ht & _ & Htm & Hdeps & m & Hh & Hdefault & Hdeclared).
    exists t, m. split; [done|]. split; [done|]. split; [|split; [|done]].
    + intros k v Hv. rewrite Hm. split; [done|].
      destruct (Hdeps k v Hv) as [tv Htv]. exists tv. split; [done|].
      by rewrite Htm, Hv.
    + intros k Hk. by rewrite Hm, Htm, Hk.
  - intros md deps t Hrun.
    apply test_api_instantiator_spec in Hrun as (Hm & _ & m & Hh & Hdefault & Hdeclared).
    by exists m.
  - intros fuel fuel' toplevel api tapi Hacyc Hapi Htapi.
    unfold create_recipe_api in Hapi. unfold create_test_api in Htapi.
    destruct (dict_comprehension _ _ _ _) as [s [ns|e|]] eqn:Hrun in Hapi; [|done..].
    destruct (dict_comprehension _ _ _ _) as [s' [tns|e|]] eqn:Hrun' in Htapi; [|done..].
    simpl in Hapi, Htapi. injection Hapi as <-. injection Htapi as <-.
    apply composer_structure in Hrun as (Hout & Hin & Hwired);
      [|done|apply NoDup_fst_map_to_list].
    apply composer_structure in Hrun' as (Hout' & Hin' & Hwired');
      [|done|apply NoDup_fst_map_to_list].
    set (api := mkApiObj None [] _ ns None).
    set (tapi := mkTestApi None None tns).
    (* the cached instances are wired to the cached instances *)
    assert (forall md i, _instances s !! md = Some i ->
              wired_to o_m (_instances s) (heap_deps h md) i /\
              exists t, o_test_api i = Some t /\
                        forall k, t_m t !! k = o_m i !! k ≫= o_test_api) as Hprod.
    { intros md i Hi. destruct (Hwired md i Hi) as (dd & e & Hf & Hdd).
      unfold stateless in Hf. simpl in Hf.
      apply recipe_api_instantiator_spec in Hf as (Hm & t & Ht & _ & Htm & _).
      split.
      - intros k. specialize (Hdd k). rewrite Hm.
        destruct (heap_deps h md !! k); [|done]. done.
      - exists t. split; [done|]. intros k. by rewrite Hm. }
    assert (forall md i, _instances s' !! md = Some i ->
              wired_to t_m (_instances s') (heap_deps h md) i) as Htest.
    { intros md i Hi. destruct (Hwired' md i Hi) as (dd & e & Hf & Hdd).
      unfold stateless in Hf. simpl in Hf.
      apply test_api_instantiator_spec in Hf as (Hm & _).
      intros k. specialize (Hdd k). rewrite Hm.
      destruct (heap_deps h md !! k); done. }
    (* so are the roots *)
    assert (wired_to o_m (_instances s) toplevel api) as Hroot.
    { intros k. simpl. destruct (toplevel !! k) as [d|] eqn:Hk.
      - apply Hin. by apply elem_of_map_to_list.
      - rewrite Hout; [done|]. intros Hkin.
        apply list_elem_of_fmap in Hkin as ([k' d] & -> & Hkd).
        apply elem_of_map_to_list in Hkd. simpl in Hk. congruence. }
    assert (wired_to t_m (_instances s') toplevel tapi) as Hroot'.
    { intros k. simpl. destruct (toplevel !! k) as [d|] eqn:Hk.
      - apply Hin'. by apply elem_of_map_to_list.
      - rewrite Hout'; [done|]. intros Hkin.
        apply list_elem_of_fmap in Hkin as ([k' d] & -> & Hkd).
        apply elem_of_map_to_list in Hkd. simpl in Hk. congruence. }
    pose proof (follow_is_Some o_m (heap_deps h) (_instances s)
                  (fun md i Hi => proj1 (Hprod md i Hi)) toplevel api) as Hpaths.
    pose proof (follow_is_Some t_m (heap_deps h) (_instances s') Htest toplevel tapi)
      as Hpaths'.
    split; [|split].
    + intros p. unfold api_at, test_at. rewrite Hpaths, Hpaths' by done. done.
    + intros p Hp. unfold api_at. rewrite Hpaths by done. split; [|by right].
      by intros [?|?].
    + intros p o Hp Ho.
      pose proof (follow_def o_m (heap_deps h) (_instances s)
                    (fun md i Hi => proj1 (Hprod md i Hi)) p toplevel api Hroot Hp) as Hd.
      unfold api_at in Ho. rewrite Ho in Hd.
      destruct (def_at (heap_deps h) toplevel p) as [d|]; [|done].
      destruct Hd as (j & [= <-] & Hj).
      destruct (Hprod d o Hj) as [_ (t & Ht & Htm)]. exists t. split; [done|].
      intros q. eapply (mirror_cached (heap_deps h) (_instances s)); [| |exact Hj|done].
      * intros md i Hi. apply (Hprod md i Hi).
      * intros md i Hi. apply (Hprod md i Hi).
Qed.

Lemma diamond_heap_acyclic : acyclic (heap_deps (sys_modules diamond_state)).
Proof. apply (heap_rank_falls_acyclic _ diamond_heap_rank). vm_compute. reflexivity. Qed.

(** The diamond of packages, loaded and composed both ways. *)
Lemma cross_wiring_isomorphism_witness :
  match diamond_api, diamond_test_api with
  | Ok api, Ok tapi => forall p, is_Some (api_at api p) <-> is_Some (test_at tapi p)
  | _, _ => False
  end.
Proof.
  destruct diamond_api as [api|e|] eqn:Ha; [|by vm_compute in Ha..].
  destruct diamond_test_api as [tapi|e|] eqn:Ht; [|by vm_compute in Ht..].
  exact (proj1 (proj2 (proj2 (cross_wiring_isomorphism (sys_modules diamond_state)
           ∅ example_test_data)) 3 3 diamond_toplevel api tapi
           diamond_heap_acyclic Ha Ht)).
Defined.

Example diamond_shared_instance :
  match diamond_api with
  | Ok api =>
      api_at api ["d"; "b"; "a"] = api_at api ["d"; "c"; "a"] /\
      is_Some (api_at api ["d"; "b"; "a"]) /\
      api_at api ["d"; "a"] = None
  | _ => False
  end.
Proof. vm_compute. split; [reflexivity|]. split; [by eexists|reflexivity]. Qed.

(** ** Structural errors of a module *)

Lemma patchup_stages name m :
  snd (_patchup_module name m) =
  match snd (config_stage m) with
  | Ok _ =>
      match snd (api_stage m) with
      | Ok _ => snd (test_api_stage m)
      | r => r
      end
  | r => r
  end.
Proof.
  unfold _patchup_module, config_stage, test_api_stage, api_stage,
    bind, modify, reads, scan_attr, assert, ret, raise. simpl.
  destruct (config m) as [cvs|]; simpl.
  - destruct (scan_members is_config_context _ cvs _) as [cslot [[]|e|]]; simpl;
      [|done..].
    destruct (truthy cslot); simpl; [|done].
    destruct (api m) as [avs|]; simpl; [|done].
    destruct (scan_members is_api_class _ avs _) as [aslot [[]|e|]]; simpl; [|done..].
    destruct (truthy aslot) eqn:Ha; simpl; [|done].
    destruct (test_api m) as [tvs|]; simpl; [|done].
    destruct (scan_members is_test_api_class _ tvs _) as [tslot [[]|e|]]; simpl;
      [|done..].
    by rewrite Ha.
  - destruct (api m) as [avs|]; simpl; [|done].
    destruct (scan_members is_api_class _ avs _) as [aslot [[]|e|]]; simpl; [|done..].
    destruct (truthy aslot) eqn:Ha; simpl; [|done].
    destruct (test_api m) as [tvs|]; simpl; [|done].
    destruct (scan_members is_test_api_class _ tvs _) as [tslot [[]|e|]]; simpl;
      [|done..].
    by rewrite Ha.
Qed.

Lemma scan_members_full sel msg vs slot :
  truthy slot = true -> 1 <= count_members sel vs ->
  scan_members sel msg vs slot = (slot, Raise (AssertionError msg)).
Proof.
  intros Hslot. unfold count_members.
  induction vs as [|v vs IH]; simpl; [lia|].
  destruct (sel v); simpl; [by rewrite Hslot|]. apply IH.
Qed.

Lemma scan_members_two sel msg vs slot :
  (forall v, sel v = true -> truthy (Some v) = true) ->
  2 <= count_members sel vs ->
  snd (scan_members sel msg vs slot) = Raise (AssertionError msg).
Proof.
  intros Hsel. unfold count_members. revert slot.
  induction vs as [|v vs IH]; intros slot; simpl; [lia|].
  destruct (sel v) eqn:Hv; simpl; [|apply IH].
  intros Hcount. destruct (truthy slot); [done|].
  rewrite scan_members_full; [done|by apply Hsel|unfold count_members; lia].
Qed.

Lemma scan_members_none sel msg vs slot :
  count_members sel vs = 0 -> scan_members sel msg vs slot = (slot, Ok tt).
Proof.
  unfold count_members. induction vs as [|v vs IH]; simpl; [done|].
  destruct (sel v); simpl; [done|apply IH].
Qed.

Lemma scan_members_ok sel msg vs slot :
  (forall v, sel v = true -> truthy (Some v) = true) ->
  snd (scan_members sel msg vs slot) = Ok tt ->
  count_members sel vs <= 1.
Proof.
  intros Hsel Hok. destruct (decide (2 <= count_members sel vs)) as [Htwo|]; [|lia].
  by rewrite (scan_members_two sel msg vs slot Hsel Htwo) in Hok.
Qed.

Lemma config_context_truthy v : is_config_context v = true -> truthy (Some v) = true.
Proof. by destruct v. Qed.
Lemma api_class_truthy v : is_api_class v = true -> truthy (Some v) = true.
Proof. by destruct v. Qed.
Lemma test_api_class_truthy v : is_test_api_class v = true -> truthy (Some v) = true.
Proof. by destruct v. Qed.

(** The slots and member lists a patch-up that went through leaves. *)
Lemma patchup_ok_fields name m m' :
  _patchup_module name m = (m', Ok tt) ->
  API m' = fst (api_stage m) /\ TEST_API m' = fst (test_api_stage m) /\
  CONFIG_CTX m' = fst (config_stage m) /\
  api m' = api m /\ config m' = config m /\ test_api m' = test_api m /\
  LOADED_DEPS m' = LOADED_DEPS m /\ NAME m' = Some name /\ is_Some (PROPERTIES m').
Proof.
  unfold _patchup_module, config_stage, test_api_stage, api_stage,
    bind, modify, reads, scan_attr, assert, ret, raise. simpl.
  destruct (config m) as [cvs|] eqn:Hcfg; simpl.
  - destruct (scan_members is_config_context _ cvs _) as [cslot [[]|e|]]; simpl;
      [|done..].
    destruct (truthy cslot); simpl; [|done].
    destruct (api m) as [avs|] eqn:Hapi; simpl; [|done].
    destruct (scan_members is_api_class _ avs _) as [aslot [[]|e|]]; simpl; [|done..].
    destruct (truthy aslot) eqn:Ha; simpl; [|done].
    destruct (test_api m) as [tvs|] eqn:Htest; simpl.
    + destruct (scan_members is_test_api_class _ tvs _) as [tslot [[]|e|]]; simpl;
        [|done..].
      rewrite Ha. simpl. intros [= <-]. simpl. by repeat split.
    + intros [= <-]. simpl. by repeat split.
  - destruct (api m) as [avs|] eqn:Hapi; simpl; [|done].
    destruct (scan_members is_api_class _ avs _) as [aslot [[]|e|]]; simpl; [|done..].
    destruct (truthy aslot) eqn:Ha; simpl; [|done].
    destruct (test_api m) as [tvs|] eqn:Htest; simpl.
    + destruct (scan_members is_test_api_class _ tvs _) as [tslot [[]|e|]]; simpl;
        [|done..].
      rewrite Ha. simpl. intros [= <-]. simpl. by repeat split.
    + intros [= <-]. simpl. by repeat split.
Qed.

(** A module that passed patch-up has one capability class at most in its
    [api], a true [API], and no more than one test-double class and
    configuration context. *)
Lemma patchup_ok_structure name m m' :
  _patchup_module name m = (m', Ok tt) ->
  truthy (API m') = true /\
  (exists vs, api m' = Some vs /\ count_members is_api_class vs <= 1) /\
  (forall vs, test_api m' = Some vs -> count_members is_test_api_class vs <= 1) /\
  (forall vs, config m' = Some vs -> count_members is_config_context vs <= 1).
Proof.
  intros Hrun. pose proof (patchup_stages name m) as Hst. rewrite Hrun in Hst.
  simpl in Hst.
  destruct (patchup_ok_fields name m m' Hrun)
    as (HAPI & _ & _ & Hapi & Hconfig & Htest & _).
  rewrite HAPI, Hapi, Hconfig, Htest.
  destruct (config_stage m) as [cslot cr] eqn:Hc. simpl in Hst.
  destruct cr as [[]|e|]; [|done..].
  destruct (api_stage m) as [aslot ar] eqn:Ha. simpl in Hst.
  destruct ar as [[]|e|]; [|done..].
  unfold config_stage in Hc. unfold api_stage in Ha.
  unfold test_api_stage in Hst. simpl. split; [|split; [|split]].
  - destruct (api m) as [avs|]; [|done].
    destruct (scan_members _ _ avs _) as [slot [[]|e|]]; simplify_eq.
    by destruct (truthy aslot).
  - destruct (api m) as [avs|]; [|done]. exists avs. split; [done|].
    apply (scan_members_ok _ "has more than one Api subclass" avs (API m));
      [apply api_class_truthy|].
    by destruct (scan_members _ _ avs _) as [slot [[]|e|]].
  - intros tvs Htvs. rewrite Htvs in Hst.
    apply (scan_members_ok _ "More than one TestApi subclass" tvs (TEST_API m));
      [apply test_api_class_truthy|].
    by destruct (scan_members _ _ tvs _) as [slot [[]|e|]].
  - intros cvs Hcvs. rewrite Hcvs in Hc.
    apply (scan_members_ok _ "More than one configuration context" cvs (CONFIG_CTX m));
      [apply config_context_truthy|].
    by destruct (scan_members _ _ cvs _) as [slot [[]|e|]].
Qed.

Lemma load_recipe_module_module_patchup E fuel path st :
  _load_recipe_module_module E fuel path st =
  match load_until_patchup E fuel path st with
  | (st1, Ok md) =>
      match on_module md (_patchup_module (modname_of path)) st1 with
      | (st2, Ok _) => (st2, Ok md)
      | (st2, Raise e) => (st2, Raise e)
      | (st2, OutOfFuel) => (st2, OutOfFuel)
      end
  | (st1, r) => (st1, r)
  end.
Proof.
  unfold _load_recipe_module_module, _load_recipe_module_module_with,
    load_until_patchup, deps_from_spec, modname_of.
  unfold bind at 1 6.
  destruct (_find_and_load_module _ _ _ _ st) as [s1 [md|e|]]; [|done..].
  unfold bind at 1 5. destruct (on_module md (reads _) s1) as [s2 [spec|e|]]; [|done..].
  unfold bind at 1 4.
  destruct (deps_from_spec_with _ _ spec s2) as [s3 [deps|e|]]; [|done..].
  unfold bind at 1 3.
  destruct (on_module md (modify _) s3) as [s4 [[]|e|]]; [|done..].
  unfold bind, ret.
  by destruct (on_module md (_patchup_module _) s4) as [s5 [[]|e|]].
Qed.

Lemma load_raises_with_patchup E fuel dep st st1 md m e :
  _loaded st !! unique_name dep = None ->
  load_until_patchup E fuel (_path dep) (set_loaded (unique_name dep) None st)
    = (st1, Ok md) ->
  sys_modules st1 !! md = Some m ->
  snd (_patchup_module (modname_of (_path dep)) m) = Raise e ->
  snd (load E (S fuel) dep st) = Raise e.
Proof.
  intros Hnew Hpre Hm Hpatch. rewrite load_marks_first by done.
  rewrite load_recipe_module_module_patchup, Hpre.
  unfold on_module. rewrite Hm.
  destruct (_patchup_module _ m) as [m' r]. simpl in Hpatch. by subst r.
Qed.

Lemma load_ok_patched E fuel dep st st' md :
  _loaded st !! unique_name dep = None ->
  load E fuel dep st = (st', Ok md) ->
  exists m0 m',
    _patchup_module (modname_of (_path dep)) m0 = (m', Ok tt) /\
    sys_modules st' !! md = Some m'.
Proof.
  intros Hnew. destruct fuel as [|fuel]; [done|].
  rewrite load_marks_first by done. rewrite load_recipe_module_module_patchup.
  destruct (load_until_patchup _ _ _ _) as [st1 [md1|e|]]; [|done..].
  unfold on_module. destruct (sys_modules st1 !! md1) as [m0|] eqn:Hm0; [|done].
  destruct (_patchup_module _ m0) as [m' [[]|e|]] eqn:Hpatch; [|done..].
  intros [= <- <-]. exists m0, m'. split; [done|]. simpl. apply lookup_insert_eq.
Qed.

(** The instantiators read nothing of what the patch-up scans. *)
Lemma heap_deps_strip h md : heap_deps (strip_members <$> h) md = heap_deps h md.
Proof. unfold heap_deps. rewrite lookup_fmap. by destruct (h !! md). Qed.

Lemma make_test_api_strip h md :
  make_test_api (strip_members <$> h) md = make_test_api h md.
Proof. unfold make_test_api. rewrite lookup_fmap. by destruct (h !! md). Qed.

Lemma recipe_api_instantiator_strip h ep td md deps :
  recipe_api_instantiator (strip_members <$> h) ep td md deps =
  recipe_api_instantiator h ep td md deps.
Proof.
  unfold recipe_api_instantiator. rewrite make_test_api_strip, lookup_fmap.
  by destruct (h !! md).
Qed.

Lemma test_api_instantiator_strip h md deps :
  test_api_instantiator (strip_members <$> h) md deps = test_api_instantiator h md deps.
Proof. unfold test_api_instantiator. by rewrite make_test_api_strip. Qed.

Section mapper_ext.
Context {Inst St : Type}.
Variables deps_of deps_of' : ModRef -> gmap string ModRef.
Variables f f' : ModRef -> gmap string Inst -> M St Inst.
Hypothesis deps_eq : forall md, deps_of md = deps_of' md.
Hypothesis f_eq : forall md dd e, f md dd e = f' md dd e.

Lemma dict_comprehension_pointwise (rec rec' : ModRef -> M (Mapper Inst St) Inst) items :
  (forall d s, rec d s = rec' d s) ->
  forall acc s, dict_comprehension rec items acc s = dict_comprehension rec' items acc s.
Proof.
  intros Hrec. induction items as [|[k d] items IH]; intros acc s; simpl; [done|].
  unfold bind. rewrite Hrec. destruct (rec' d s) as [s1 [i|e|]]; [apply IH|done..].
Qed.

Lemma instantiate_pointwise fuel md s :
  instantiate deps_of f fuel md s = instantiate deps_of' f' fuel md s.
Proof.
  revert md s. induction fuel as [|fuel IH]; intros md s; [done|].
  rewrite !instantiate_S. destruct (_instances s !! md); [done|].
  rewrite <- deps_eq.
  rewrite (dict_comprehension_pointwise _ (instantiate deps_of' f' fuel) _ IH).
  destruct (dict_comprehension _ _ _ _) as [s1 [dd|e|]]; [|done..].
  by rewrite f_eq.
Qed.
End mapper_ext.

Lemma create_recipe_api_strip h ep td fuel toplevel :
  create_recipe_api (strip_members <$> h) ep td fuel toplevel =
  create_recipe_api h ep td fuel toplevel.
Proof.
  unfold create_recipe_api.
  assert (forall md dd (e : unit),
            stateless (recipe_api_instantiator (strip_members <$> h) ep td) md dd e =
            stateless (recipe_api_instantiator h ep td) md dd e) as Hf.
  { intros md dd e. unfold stateless. by rewrite recipe_api_instantiator_strip. }
  by rewrite (dict_comprehension_pointwise _ _ _
                (instantiate_pointwise _ (heap_deps h) _ _ (heap_deps_strip h) Hf fuel)).
Qed.

Lemma create_test_api_strip h fuel toplevel :
  create_test_api (strip_members <$> h) fuel toplevel = create_test_api h fuel toplevel.
Proof.
  unfold create_test_api.
  assert (forall md dd (e : unit),
            stateless (test_api_instantiator (strip_members <$> h)) md dd e =
            stateless (test_api_instantiator h) md dd e) as Hf.
  { intros md dd e. unfold stateless. by rewrite test_api_instantiator_strip. }
  by rewrite (dict_comprehension_pointwise _ _ _
                (instantiate_pointwise _ (heap_deps h) _ _ (heap_deps_strip h) Hf fuel)).
Qed.

Lemma scan_members_returns sel msg vs slot :
  snd (scan_members sel msg vs slot) <> OutOfFuel.
Proof.
  revert slot. induction vs as [|v vs IH]; intros slot; simpl; [done|].
  destruct (sel v); [|apply IH]. destruct (truthy slot); [done|apply IH].
Qed.

Lemma config_stage_returns m : snd (config_stage m) <> OutOfFuel.
Proof.
  unfold config_stage. destruct (config m) as [vs|]; [|done].
  pose proof (scan_members_returns is_config_context
                "More than one configuration context" vs (CONFIG_CTX m)) as H.
  destruct (scan_members _ _ vs _) as [slot [[]|e|]]; simpl in *; [|done..].
  by destruct (truthy slot).
Qed.

Lemma api_stage_returns m : snd (api_stage m) <> OutOfFuel.
Proof.
  unfold api_stage. destruct (api m) as [vs|]; [|done].
  pose proof (scan_members_returns is_api_class
                "has more than one Api subclass" vs (API m)) as H.
  destruct (scan_members _ _ vs _) as [slot [[]|e|]]; simpl in *; [|done..].
  by destruct (truthy slot).
Qed.

Lemma config_stage_two m vs :
  config m = Some vs -> 2 <= count_members is_config_context vs ->
  snd (config_stage m) = Raise (AssertionError "More than one configuration context").
Proof.
  intros Hc Htwo. unfold config_stage. rewrite Hc.
  pose proof (scan_members_two is_config_context "More than one configuration context"
                vs (CONFIG_CTX m) config_context_truthy Htwo) as H.
  destruct (scan_members _ _ vs _) as [slot r]. simpl in H. by subst r.
Qed.

Lemma api_stage_two m vs :
  api m = Some vs -> 2 <= count_members is_api_class vs ->
  snd (api_stage m) = Raise (AssertionError "has more than one Api subclass").
Proof.
  intros Hc Htwo. unfold api_stage. rewrite Hc.
  pose proof (scan_members_two is_api_class "has more than one Api subclass"
                vs (API m) api_class_truthy Htwo) as H.
  destruct (scan_members _ _ vs _) as [slot r]. simpl in H. by subst r.
Qed.

Lemma api_stage_none m vs :
  api m = Some vs -> count_members is_api_class vs = 0 -> truthy (API m) = false ->
  snd (api_stage m) = Raise (AssertionError "Submodule has no api?").
Proof.
  intros Hc Hnone Hfalse. unfold api_stage.
  rewrite Hc, scan_members_none by done. by rewrite Hfalse.
Qed.

Lemma test_api_stage_two m vs :
  test_api m = Some vs -> 2 <= count_members is_test_api_class vs ->
  snd (test_api_stage m) = Raise (AssertionError "More than one TestApi subclass").
Proof.
  intros Hc Htwo. unfold test_api_stage. rewrite Hc.
  pose proof (scan_members_two is_test_api_class "More than one TestApi subclass"
                vs (TEST_API m) test_api_class_truthy Htwo) as H.
  destruct (scan_members _ _ vs _) as [slot r]. simpl in H. by subst r.
Qed.

(** C5. The patch-up, which [load] runs on the imported module, raises an
    assertion for a module with more than one configuration context, more
    than one capability class or more than one test-double class among the
    members it scans, and for a module with no capability class at all (the
    spec's ConflictingDefinitionError and MissingCapabilityClassError are
    these assertions, told apart by their messages; the message is the one
    of the first block that fails, in the order configuration, capability,
    test double).  Whatever the patch-up raises, [load] raises; a module
    object that [load] returns has passed all three checks; and the two
    composers give the same result when the scanned member lists are
    removed from every module, so none of these failures can come from
    them. *)
Theorem structural_load_errors (name : string) (m : Module) :
  (forall vs, config m = Some vs -> 2 <= count_members is_config_context vs ->
     snd (_patchup_module name m)
     = Raise (AssertionError "More than one configuration context")) /\
  (forall vs, api m = Some vs -> 2 <= count_members is_api_class vs ->
     is_raise (snd (_patchup_module name m)) = true /\
     (snd (config_stage m) = Ok tt ->
      snd (_patchup_module name m)
      = Raise (AssertionError "has more than one Api subclass"))) /\
  (forall vs, test_api m = Some vs -> 2 <= count_members is_test_api_class vs ->
     is_raise (snd (_patchup_module name m)) = true /\
     (snd (config_stage m) = Ok tt -> snd (api_stage m) = Ok tt ->
      snd (_patchup_module name m)
      = Raise (AssertionError "More than one TestApi subclass"))) /\
  (forall vs, api m = Some vs -> count_members is_api_class vs = 0 ->
     truthy (API m) = false ->
     is_raise (snd (_patchup_module name m)) = true /\
     (snd (config_stage m) = Ok tt ->
      snd (_patchup_module name m) = Raise (AssertionError "Submodule has no api?"))) /\
  (forall E fuel dep st st1 md e,
     _loaded st !! unique_name dep = None ->
     load_until_patchup E fuel (_path dep) (set_loaded (unique_name dep) None st)
       = (st1, Ok md) ->
     sys_modules st1 !! md = Some m ->
     name = modname_of (_path dep) ->
     snd (_patchup_module name m) = Raise e ->
     snd (load E (S fuel) dep st) = Raise e) /\
  (forall E fuel dep st st' md,
     _loaded st !! unique_name dep = None ->
     load E fuel dep st = (st', Ok md) ->
     exists m',
       sys_modules st' !! md = Some m' /\ truthy (API m') = true /\
       (exists vs, api m' = Some vs /\ count_members is_api_class vs <= 1) /\
       (forall vs, test_api m' = Some vs -> count_members is_test_api_class vs <= 1) /\
       (forall vs, config m' = Some vs -> count_members is_config_context vs <= 1)) /\
  (forall h ep td fuel toplevel,
     create_recipe_api (strip_members <$> h) ep td fuel toplevel
     = create_recipe_api h ep td fuel toplevel /\
     create_test_api (strip_members <$> h) fuel toplevel
     = create_test_api h fuel toplevel).
Proof.
  pose proof (patchup_stages name m) as Hst.
  pose proof (config_stage_returns m) as Hcr.
  pose proof (api_stage_returns m) as Har.
  split; [|split; [|split; [|split; [|split; [|split]]]]].
  - intros vs Hc Htwo. by rewrite Hst, (config_stage_two m vs).
  - intros vs Ha Htwo. rewrite Hst, (api_stage_two m vs Ha Htwo).
    split; [|by intros ->]. by destruct (snd (config_stage m)) as [[]|e|].
  - intros vs Ht Htwo. rewrite Hst, (test_api_stage_two m vs Ht Htwo).
    split; [|by intros -> ->].
    destruct (snd (config_stage m)) as [[]|e|]; [|done..].
    by destruct (snd (api_stage m)) as [[]|e|].
  - intros vs Ha Hnone Hfalse. rewrite Hst, (api_stage_none m vs Ha Hnone Hfalse).
    split; [|by intros ->]. by destruct (snd (config_stage m)) as [[]|e|].
  - intros E fuel dep st st1 md e Hnew Hpre Hm -> Hpatch.
    by eapply load_raises_with_patchup.
  - intros E fuel dep st st' md Hnew Hload.
    destruct (load_ok_patched E fuel dep st st' md Hnew Hload) as (m0 & m' & Hp & Hm').
    exists m'. split; [done|]. by eapply patchup_ok_structure.
  - intros h ep td fuel toplevel. split;
      [apply create_recipe_api_strip|apply create_test_api_strip].
Qed.

(** A package whose api.py holds two capability classes, and one with
    none: both are refused by [load]. *)
Lemma structural_load_errors_witness :
  snd (_patchup_module "two" (snd (two_api_module "two")))
    = Raise (AssertionError "has more than one Api subclass") /\
  snd (load env_conflict 2 (example_dep "two") empty_state)
    = Raise (AssertionError "has more than one Api subclass") /\
  snd (load env_conflict 2 (example_dep "none") empty_state)
    = Raise (AssertionError "Submodule has no api?").
Proof.
  split; [|split].
  - apply (proj2 (proj1 (proj2 (structural_load_errors "two" (snd (two_api_module "two"))))
             [MClass (example_api_class "One"); MClass (example_api_class "Two")]
             eq_refl ltac:(vm_compute; lia))).
    reflexivity.
  - apply (proj1 (proj2 (proj2 (proj2 (proj2
             (structural_load_errors "two" (snd (two_api_module "two")))))))
             env_conflict 1 (example_dep "two") empty_state
             (fst (load_until_patchup env_conflict 1 (_path (example_dep "two"))
                     (set_loaded (unique_name (example_dep "two")) None empty_state)))
             "RECIPE_MODULES.two");
      vm_compute; reflexivity.
  - apply (proj1 (proj2 (proj2 (proj2 (proj2
             (structural_load_errors "none" (snd (no_api_module "none")))))))
             env_conflict 1 (example_dep "none") empty_state
             (fst (load_until_patchup env_conflict 1 (_path (example_dep "none"))
                     (set_loaded (unique_name (example_dep "none")) None empty_state)))
             "RECIPE_MODULES.none");
      vm_compute; reflexivity.
Defined.

(** * Further properties *)

(** ** Paths *)

Lemma list_ascii_of_string_app a b :
  list_ascii_of_string (String.append a b) = list_ascii_of_string a ++ list_ascii_of_string b.
Proof. induction a as [|c a IH]; simpl; [done|]. by rewrite IH. Qed.


Lemma has_slash_forallb s :
  has_slash s = negb (forallb (fun c => negb (os_path.is_slash c)) (list_ascii_of_string s)).
Proof.
  induction s as [|c s IH]; simpl; [done|].
  destruct (os_path.is_slash c); simpl; [done|apply IH].
Qed.

Lemma drop_while_all f l1 l2 :
  forallb f l1 = true -> os_path.drop_while f (l1 ++ l2) = os_path.drop_while f l2.
Proof.
  induction l1 as [|c l1 IH]; simpl; [done|].
  destruct (f c); simpl; [apply IH|done].
Qed.

Lemma forallb_rev {A} (f : A -> bool) l : forallb f (rev l) = forallb f l.
Proof.
  induction l as [|x l IH]; simpl; [done|].
  rewrite forallb_app, IH. simpl. rewrite andb_true_r. apply andb_comm.
Qed.

Lemma upto_last_clean l1 l2 :
  forallb (fun c => negb (os_path.is_slash c)) l2 = true ->
  os_path.upto_last os_path.is_slash (l1 ++ "/"%char :: l2) = l1 ++ ["/"%char].
Proof.
  intros H. unfold os_path.upto_last.
  rewrite rev_app_distr. simpl. rewrite <- app_assoc.
  rewrite drop_while_all by by rewrite forallb_rev.
  simpl. by rewrite rev_involutive.
Qed.

Lemma rstrip_one_slash l c :
  os_path.is_slash c = false ->
  os_path.rstrip os_path.is_slash ((l ++ [c]) ++ ["/"%char]) = l ++ [c].
Proof.
  intros H. unfold os_path.rstrip. rewrite !rev_app_distr. simpl.
  rewrite H. simpl. by rewrite rev_involutive.
Qed.

Lemma snoc_of_rev {A} (l : list A) c r : rev l = c :: r -> l = rev r ++ [c].
Proof. intros H. apply (f_equal (@rev A)) in H. by rewrite rev_involutive in H. Qed.

(** The directory of [d/name] is [d], for a root that does not end in a
    slash and a name without one. *)
Lemma dirname_join d name :
  d <> "" -> os_path.endswith_slash d = false -> has_slash name = false ->
  os_path.dirname (os_path.join d name) = d.
Proof.
  intros Hd Hend Hname. unfold os_path.join.
  assert (os_path.isabs name = false) as ->.
  { destruct name as [|c name]; [done|]. simpl in *.
    by destruct (os_path.is_slash c). }
  assert (String.eqb d "" = false) as -> by by apply String.eqb_neq.
  rewrite Hend. simpl orb. cbv iota.
  unfold os_path.dirname.
  rewrite !list_ascii_of_string_app. simpl list_ascii_of_string.
  rewrite has_slash_forallb in Hname. apply negb_false_iff in Hname.
  unfold os_path.endswith_slash in Hend.
  destruct (rev (list_ascii_of_string d)) as [|c r] eqn:Hrev.
  { exfalso. apply Hd.
    destruct d; [done|]. simpl in Hrev. by destruct (rev (list_ascii_of_string d)). }
  apply snoc_of_rev in Hrev.
  rewrite (upto_last_clean _ _ Hname). rewrite Hrev.
  rewrite length_app, !forallb_app. simpl. rewrite Hend. simpl.
  rewrite andb_false_r. simpl.
  replace (List.length (rev r ++ [c]) + 1 =? 0)%nat with false
    by (symmetry; apply Nat.eqb_neq; lia). simpl.
  rewrite rstrip_one_slash by done. rewrite <- Hrev.
  apply string_of_list_ascii_of_string.
Qed.

Lemma isabs_join d name :
  os_path.isabs d = true -> has_slash name = false ->
  os_path.isabs (os_path.join d name) = true.
Proof.
  intros Hd Hname. unfold os_path.join.
  assert (os_path.isabs name = false) as ->.
  { destruct name as [|c name]; [done|]. simpl in *.
    by destruct (os_path.is_slash c). }
  destruct d as [|c d]; [done|]. simpl in Hd.
  destruct (_ || _)%bool; simpl; done.
Qed.

Lemma find_elem_of {A} (f : A -> bool) l x : List.find f l = Some x -> x ∈ l /\ f x = true.
Proof.
  intros H. apply find_some in H as [Hin Hf]. split; [by apply list_elem_of_In|done].
Qed.

Lemma NamedDependency_found E name d :
  List.find (fun d => _is_recipe_module_dir E (os_path.join d name)) (module_dirs E)
    = Some d ->
  os_path.isabs d = true ->
  os_path.endswith_slash d = false ->
  has_slash name = false ->
  NamedDependency E name
    = Ok {| _path := os_path.join d name; _local_name := name |} /\
  os_path.dirname (os_path.join d name) = d.
Proof.
  intros Hfind Habs Hend Hname.
  assert (d <> "") as Hd by (by destruct d).
  pose proof (dirname_join d name Hd Hend Hname) as Hdir.
  split; [|done].
  unfold NamedDependency. rewrite NamedDependency_scan_find, Hfind.
  apply PathDependency_accepts; [by apply isabs_join|].
  rewrite Hdir. by apply find_elem_of in Hfind as [? _].
Qed.

(** X1. Search roots that are absolute and written without a trailing
    slash never trip the assertions of [PathDependency]: a bare name
    (without a slash) that some root holds resolves, without error, to the
    candidate of the first such root, with the name as local name. *)
Theorem named_dependency_accepted (E : Env) (name d : string) :
  List.find (fun d => _is_recipe_module_dir E (os_path.join d name)) (module_dirs E)
    = Some d ->
  os_path.isabs d = true ->
  os_path.endswith_slash d = false ->
  has_slash name = false ->
  NamedDependency E name
    = Ok {| _path := os_path.join d name; _local_name := name |} /\
  os_path.dirname (os_path.join d name) = d.
Proof. apply NamedDependency_found. Qed.

Lemma named_dependency_accepted_witness :
  NamedDependency env_two_roots "step"
    = Ok {| _path := os_path.join "/first" "step"; _local_name := "step" |} /\
  os_path.dirname (os_path.join "/first" "step") = "/first".
Proof.
  apply (named_dependency_accepted env_two_roots "step" "/first"); reflexivity.
Defined.




(** ** Names of dependencies *)

Lemma split_slash_cons s : exists p ps, split_slash s = p :: ps.
Proof.
  induction s as [|c s (p & ps & IH)]; simpl; [by eexists _, _|].
  destruct (os_path.is_slash c); [by eexists _, _|].
  rewrite IH. by eexists _, _.
Qed.

Lemma split_slash_length s : List.length (split_slash s) = S (count_slashes s).
Proof.
  induction s as [|c s IH]; simpl; [done|].
  destruct (os_path.is_slash c); simpl; [by rewrite IH|].
  destruct (split_slash s) as [|p ps]; simpl in *; [done|]. done.
Qed.

Lemma has_slash_count s : has_slash s = negb (Nat.eqb (count_slashes s) 0).
Proof.
  induction s as [|c s IH]; simpl; [done|].
  destruct (os_path.is_slash c); simpl; [done|apply IH].
Qed.

(** The pieces of [split] have no slash, and joining them with slashes
    gives the string back. *)
Lemma split_slash_pieces s :
  Forall (fun p => has_slash p = false) (split_slash s) /\
  String.concat "/" (split_slash s) = s.
Proof.
  induction s as [|c s [IH1 IH2]]; simpl.
  { split; [by repeat constructor|done]. }
  destruct (os_path.is_slash c) eqn:Hc.
  - split; [by constructor|].
    apply Ascii.eqb_eq in Hc as ->.
    destruct (split_slash_cons s) as (p & ps & Hs). rewrite Hs in *.
    simpl in IH2 |- *. rewrite IH2. reflexivity.
  - destruct (split_slash_cons s) as (p & ps & Hs). rewrite Hs in *.
    inversion IH1 as [|? ? Hp Hps]; subst. split.
    + constructor; [|done]. simpl. by rewrite Hc.
    + destruct ps as [|q ps]; reflexivity.
Qed.

Lemma split_slash_two s a b :
  split_slash s = [a; b] ->
  s = String.append a (String.append "/" b) /\
  has_slash a = false /\ has_slash b = false.
Proof.
  intros Hs. destruct (split_slash_pieces s) as [Hall Hjoin].
  rewrite Hs in Hall, Hjoin. simpl in Hjoin.
  inversion Hall as [|? ? Ha Hall']; subst. inversion Hall' as [|? ? Hb _]; subst.
  done.
Qed.

Lemma PathDependency_fields E path lname dep :
  PathDependency E path lname = Ok dep ->
  _path dep = path /\ _local_name dep = lname /\
  os_path.isabs path = true /\ os_path.dirname path ∈ module_dirs E.
Proof.
  unfold PathDependency. destruct (os_path.isabs path); simpl; [|done].
  destruct (bool_decide _) eqn:Hin; simpl; [|done].
  intros [= <-]. apply bool_decide_eq_true in Hin. done.
Qed.

Lemma NamedDependency_fields E name dep :
  NamedDependency E name = Ok dep ->
  _local_name dep = name /\ os_path.isabs (_path dep) = true /\
  os_path.dirname (_path dep) ∈ module_dirs E /\
  _is_recipe_module_dir E (_path dep) = true.
Proof.
  unfold NamedDependency. rewrite NamedDependency_scan_find.
  destruct (List.find _ _) as [d|] eqn:Hfind; [|done].
  intros Hdep. apply find_elem_of in Hfind as [_ Hdir].
  apply PathDependency_fields in Hdep as (-> & -> & ? & ?). done.
Qed.

(** X3. Whatever [_dep_from_name] returns, the local name it derives has
    no slash and is the local name of the dependency, and the dependency
    is an absolute path directly under a search root: for a bare name, the
    name itself; for [package/module], the module part, the path being the
    one the package gives for it. *)
Theorem dep_from_name_local_name (E : Env) (name lname : string) (dep : Dependency) :
  _dep_from_name E name = Ok (lname, dep) ->
  has_slash lname = false /\ local_name dep = lname /\
  os_path.isabs (unique_name dep) = true /\
  os_path.dirname (unique_name dep) ∈ module_dirs E /\
  (name = lname \/
   exists package,
     name = String.append package (String.append "/" lname) /\
     has_slash package = false /\
     module_path (package_deps E) package lname = Ok (unique_name dep)).
Proof.
  unfold _dep_from_name, local_name, unique_name.
  destruct (has_slash name) eqn:Hslash.
  - destruct (split_slash name) as [|package [|module [|]]] eqn:Hsplit; [done..| |done].
    apply split_slash_two in Hsplit as (-> & Hp & Hm).
    unfold PackageDependency.
    destruct (module_path _ package module) as [mod_path|e|] eqn:Hmp; [|done..].
    destruct (PathDependency E mod_path module) as [dep'|e|] eqn:Hdep; [|done..].
    intros [= <- <-].
    apply PathDependency_fields in Hdep as (-> & -> & ? & ?).
    repeat split; [done..|]. right. by exists package.
  - destruct (NamedDependency E name) as [dep'|e|] eqn:Hdep; [|done..].
    intros [= <- <-]. apply NamedDependency_fields in Hdep as (-> & ? & ? & _).
    repeat split; [done..|]. by left.
Qed.

Lemma dep_from_name_local_name_witness :
  has_slash "step" = false /\
  local_name {| _path := "/deps/base/recipe_modules/step"; _local_name := "step" |}
    = "step" /\
  os_path.isabs "/deps/base/recipe_modules/step" = true /\
  os_path.dirname "/deps/base/recipe_modules/step" ∈ module_dirs env_packages /\
  ("base/step" = "step" \/
   exists package,
     "base/step" = String.append package (String.append "/" "step") /\
     has_slash package = false /\
     module_path (package_deps env_packages) package "step"
       = Ok "/deps/base/recipe_modules/step").
Proof.
  apply (dep_from_name_local_name env_packages "base/step" "step"
           {| _path := "/deps/base/recipe_modules/step"; _local_name := "step" |}).
  vm_compute. reflexivity.
Defined.

(** X4. A name with more than one slash is not a dependency: the
    unpacking of [name.split('/')] into two variables raises
    [ValueError], before any package is looked up. *)
Theorem dep_from_name_too_many_slashes (E : Env) (name : string) :
  2 <= count_slashes name ->
  _dep_from_name E name = Raise (ValueError "too many values to unpack").
Proof.
  intros Hcount. unfold _dep_from_name.
  rewrite has_slash_count.
  destruct (Nat.eqb_spec (count_slashes name) 0) as [|_]; [lia|]. simpl.
  pose proof (split_slash_length name) as Hlen.
  destruct (split_slash name) as [|a [|b [|c l]]]; simpl in Hlen; [lia..|done].
Qed.

Lemma dep_from_name_too_many_slashes_witness :
  _dep_from_name env_packages "base/recipe_modules/step"
  = Raise (ValueError "too many values to unpack").
Proof.
  apply (dep_from_name_too_many_slashes env_packages "base/recipe_modules/step").
  vm_compute. lia.
Defined.

(** ** Patch-up *)

Lemma scan_members_outcome sel msg vs slot :
  snd (scan_members sel msg vs slot) = Ok tt \/
  snd (scan_members sel msg vs slot) = Raise (AssertionError msg).
Proof.
  revert slot. induction vs as [|v vs IH]; intros slot; simpl; [by left|].
  destruct (sel v); [|apply IH]. destruct (truthy slot); [by right|apply IH].
Qed.

Lemma api_stage_ok_truthy m : snd (api_stage m) = Ok tt -> truthy (fst (api_stage m)) = true.
Proof.
  unfold api_stage. destruct (api m) as [vs|]; [|done].
  destruct (scan_members _ _ vs _) as [slot [[]|e|]]; simpl; [|done..].
  by destruct (truthy slot).
Qed.

(** X5. The last assertion of the patch-up tests [submod.API], which the
    assertion before it has already found true, so it never fires: no
    module makes [_patchup_module] raise "Submodule has test_api.py but no
    TestApi subclass?".  A module with a [test_api] that holds no
    test-double class, and whose configuration and capability blocks
    pass, goes through, and its [TEST_API] stays what it was. *)
Theorem test_api_assertion_never_fires (name : string) (m : Module) :
  snd (_patchup_module name m)
    <> Raise (AssertionError "Submodule has test_api.py but no TestApi subclass?") /\
  (forall vs,
     test_api m = Some vs -> count_members is_test_api_class vs = 0 ->
     snd (config_stage m) = Ok tt -> snd (api_stage m) = Ok tt ->
     snd (_patchup_module name m) = Ok tt /\
     TEST_API (fst (_patchup_module name m)) = TEST_API m).
Proof.
  split.
  - rewrite patchup_stages.
    destruct (snd (config_stage m)) as [[]|e|] eqn:Hc.
    + destruct (snd (api_stage m)) as [[]|e|] eqn:Ha.
      * unfold test_api_stage. rewrite (api_stage_ok_truthy m Ha).
        destruct (test_api m) as [vs|]; [|done].
        pose proof (scan_members_outcome is_test_api_class
                      "More than one TestApi subclass" vs (TEST_API m)) as Hs.
        destruct (scan_members _ _ vs _) as [slot r]; simpl in *.
        destruct Hs as [->| ->]; done.
      * unfold api_stage in Ha. destruct (api m) as [vs|]; [|by simplify_eq/=].
        pose proof (scan_members_outcome is_api_class
                      "has more than one Api subclass" vs (API m)) as Hs.
        destruct (scan_members _ _ vs _) as [slot r]; simpl in *.
        destruct Hs as [->| ->]; simpl in Ha; [|by simplify_eq].
        destruct (truthy slot); by simplify_eq.
      * done.
    + unfold config_stage in Hc. destruct (config m) as [vs|]; [|by simplify_eq/=].
      pose proof (scan_members_outcome is_config_context
                    "More than one configuration context" vs (CONFIG_CTX m)) as Hs.
      destruct (scan_members _ _ vs _) as [slot r]; simpl in *.
      destruct Hs as [->| ->]; simpl in Hc; [|by simplify_eq].
      destruct (truthy slot); by simplify_eq.
    + done.
  - intros vs Ht Hnone Hc Ha.
    assert (test_api_stage m = (TEST_API m, Ok tt)) as Hstage.
    { unfold test_api_stage. rewrite Ht, scan_members_none by done.
      by rewrite (api_stage_ok_truthy m Ha). }
    assert (snd (_patchup_module name m) = Ok tt) as Hok.
    { by rewrite patchup_stages, Hc, Ha, Hstage. }
    split; [done|].
    destruct (_patchup_module name m) as [m' r] eqn:Hrun. simpl in *. subst r.
    destruct (patchup_ok_fields name m m' Hrun) as (_ & -> & _).
    by rewrite Hstage.
Qed.

Lemma test_api_assertion_never_fires_witness :
  snd (_patchup_module "step" empty_test_api_module) = Ok tt /\
  TEST_API (fst (_patchup_module "step" empty_test_api_module)) = None.
Proof.
  apply (proj2 (test_api_assertion_never_fires "step" empty_test_api_module)
           [MOther true]); reflexivity.
Defined.




(** ** Property injection, for any parameter list *)

Section invoke_shape.
Variable all_props : gmap string PyVal.
Variable prop_defs : gmap string Property.

Lemma unconsumed_lookup extra l k :
  unconsumed extra l !! k = if bool_decide (k ∈ l) then None else extra !! k.
Proof.
  unfold unconsumed. induction l as [|a l IH]; simpl; [done|].
  destruct (decide (k = a)) as [->|Hne].
  - rewrite lookup_delete_eq. rewrite bool_decide_eq_true_2; [done|left].
  - rewrite lookup_delete_ne by done. rewrite IH.
    destruct (bool_decide (k ∈ l)) eqn:Hk.
    + apply bool_decide_eq_true in Hk. rewrite bool_decide_eq_true_2; [done|by right].
    + apply bool_decide_eq_false in Hk. rewrite bool_decide_eq_false_2; [done|].
      by intros [->|?]%elem_of_cons.
Qed.

Lemma unconsumed_snoc extra l a :
  unconsumed extra (l ++ [a]) = unconsumed (delete a extra) l.
Proof. unfold unconsumed. by rewrite foldr_app. Qed.

Lemma resolve_args_shape l : forall props extra props' extra',
  resolve_args all_props prop_defs l props extra = Ok (props', extra') ->
  List.length props' = List.length props + List.length l /\
  extra' = unconsumed extra l.
Proof.
  induction l as [|arg l IH]; intros props extra props' extra'; simpl.
  { intros [= <- <-]. split; [lia|done]. }
  destruct (extra !! arg) as [v|] eqn:Harg.
  - intros H. apply IH in H as [Hlen ->]. rewrite length_app in Hlen. simpl in Hlen.
    split; [lia|]. by rewrite unconsumed_delete.
  - destruct (prop_defs !! arg) as [p|]; [|done].
    destruct (interpret p _) as [v|e|]; [|done..].
    intros H. apply IH in H as [Hlen ->]. rewrite length_app in Hlen. simpl in Hlen.
    split; [lia|]. symmetry. apply delete_id.
    rewrite unconsumed_lookup. by destruct (bool_decide _).
Qed.
End invoke_shape.

(** X7. Whenever [invoke_with_properties] gets as far as the call, the
    callable receives one positional value for each of its parameters and
    keyword arguments among which none bears the name of a parameter; the
    extra arguments that name no parameter are all passed on, unchanged.
    This holds for any parameter list, repeated names included. *)
Theorem invoke_call_shape {R : Type} (callable_obj : Callable R)
    (all_props : gmap string PyVal) (prop_defs : gmap string Property)
    (additional_args : gmap string PyVal) (arg_names : list string) (r : R) :
  arg_names_of callable_obj = Ok arg_names ->
  invoke_with_properties callable_obj all_props prop_defs additional_args = Ok r ->
  exists props kwargs,
    call callable_obj props kwargs = Ok r /\
    List.length props = List.length arg_names /\
    (forall a, a ∈ arg_names -> kwargs !! a = None) /\
    (forall k, k ∉ arg_names -> kwargs !! k = additional_args !! k).
Proof.
  intros Hnames. unfold invoke_with_properties. rewrite Hnames.
  destruct (resolve_args _ _ _ _ _) as [[props kwargs]|e|] eqn:Hres; [|done..].
  intros Hcall. exists props, kwargs.
  apply resolve_args_shape in Hres as [Hlen ->].
  split; [done|]. split; [done|]. split.
  - intros a Ha. rewrite unconsumed_lookup. by rewrite bool_decide_eq_true_2.
  - intros k Hk. rewrite unconsumed_lookup. by rewrite bool_decide_eq_false_2.
Qed.

Lemma invoke_call_shape_witness :
  exists props kwargs,
    call (example_function ["dep"; "p"] []) props kwargs
      = Ok ([PyStr "x"; PyInt 5], [("engine", PyEngine)]) /\
    List.length props = List.length ["dep"; "p"] /\
    (forall a, a ∈ ["dep"; "p"] -> kwargs !! a = None) /\
    (forall k, k ∉ ["dep"; "p"] ->
               kwargs !! k
               = ({["dep" := PyStr "x"; "engine" := PyEngine]} : gmap string PyVal) !! k).
Proof.
  apply (invoke_call_shape (example_function ["dep"; "p"] [])
           ∅ {["p" := Property_with (Some (PyInt 5))]}
           {["dep" := PyStr "x"; "engine" := PyEngine]}); vm_compute; reflexivity.
Defined.

Section invoke_filter.
Lemma resolve_args_agree (ap ap' : gmap string PyVal) (pd pd' : gmap string Property) l :
  (forall a, a ∈ l -> ap !! a = ap' !! a /\ pd !! a = pd' !! a) ->
  forall props extra,
    resolve_args ap pd l props extra = resolve_args ap' pd' l props extra.
Proof.
  induction l as [|arg l IH]; intros Hagree props extra; simpl; [done|].
  destruct (Hagree arg) as [<- <-]; [left|].
  assert (forall a, a ∈ l -> ap !! a = ap' !! a /\ pd !! a = pd' !! a) as Hl.
  { intros a Ha. apply Hagree. by right. }
  destruct (extra !! arg); [by apply IH|].
  destruct (pd !! arg) as [p|]; [|done].
  destruct (interpret p _); [by apply IH|done..].
Qed.
End invoke_filter.

(** X8. The call depends on the supplied properties and on the property
    schema only through the entries named after parameters of the
    callable: two property dicts and two schemas that agree on those names
    give the same outcome, so supplied properties that no parameter asks
    for are filtered out, however many there are. *)
Theorem invoke_filters_properties {R : Type} (callable_obj : Callable R)
    (all_props all_props' : gmap string PyVal)
    (prop_defs prop_defs' : gmap string Property)
    (additional_args : gmap string PyVal) :
  (forall a, a ∈ argspec_args callable_obj ->
             all_props !! a = all_props' !! a /\ prop_defs !! a = prop_defs' !! a) ->
  invoke_with_properties callable_obj all_props prop_defs additional_args =
  invoke_with_properties callable_obj all_props' prop_defs' additional_args.
Proof.
  intros Hagree. unfold invoke_with_properties.
  destruct (arg_names_of callable_obj) as [names|e|] eqn:Hnames; [|done..].
  rewrite (resolve_args_agree all_props all_props' prop_defs prop_defs' names); [done|].
  intros a Ha. apply Hagree. unfold arg_names_of in Hnames.
  destruct (isclass callable_obj).
  - destruct (argspec_args callable_obj) as [|self names']; [done|].
    simplify_eq. by right.
  - by simplify_eq.
Qed.

Lemma invoke_filters_properties_witness :
  invoke_with_properties (example_function ["p"] [])
    {["p" := PyInt 7; "unrelated" := PyStr "x"]}
    {["p" := Property_with (Some (PyInt 5))]} ∅ =
  invoke_with_properties (example_function ["p"] [])
    {["p" := PyInt 7]}
    {["p" := Property_with (Some (PyInt 5)); "other" := Property_with None]} ∅.
Proof.
  apply (invoke_filters_properties (example_function ["p"] [])).
  intros a Ha. apply list_elem_of_singleton in Ha as ->.
  split; vm_compute; reflexivity.
Defined.

(** ** DependencyMapper: what a failure leaves *)

Section mapper_any_outcome.
Context {Inst St : Type}.
Variable deps_of : ModRef -> gmap string ModRef.
Variable f : ModRef -> gmap string Inst -> M St Inst.
Hypothesis Hacyc : acyclic deps_of.

Lemma grows_refl P (s : Mapper Inst St) : grows P s s.
Proof. split; [done|]. intros m Hn [i Hi]. congruence. Qed.

Lemma grows_trans (P : ModRef -> Prop) (s1 s2 s3 : Mapper Inst St) :
  grows P s1 s2 -> grows P s2 s3 -> grows P s1 s3.
Proof.
  intros [Hc1 Hn1] [Hc2 Hn2]. split; [by etrans|].
  intros m Hm Hs. destruct (_instances s2 !! m) as [i|] eqn:H2.
  - apply Hn1; [done|by eexists].
  - by apply Hn2.
Qed.

Lemma grows_weaken (P Q : ModRef -> Prop) (s s' : Mapper Inst St) :
  (forall m, P m -> Q m) -> grows P s s' -> grows Q s s'.
Proof. intros HPQ [? Hn]. split; auto. Qed.

Lemma dict_comprehension_grows (rec : ModRef -> M (Mapper Inst St) Inst)
    (P : ModRef -> Prop) items :
  (forall d s, grows (reaches deps_of d) s (fst (rec d s))) ->
  (forall k d x, (k, d) ∈ items -> reaches deps_of d x -> P x) ->
  forall acc s, grows P s (fst (dict_comprehension rec items acc s)).
Proof.
  intros Hrec. induction items as [|[k d] items IH]; intros HP acc s; simpl.
  { apply grows_refl. }
  unfold bind. pose proof (Hrec d s) as H1.
  assert (grows P s (fst (rec d s))) as H1'.
  { eapply grows_weaken; [|exact H1]. intros x Hx. eapply HP; [left|done]. }
  destruct (rec d s) as [s1 [i|e|]]; simpl in *; [|done..].
  eapply grows_trans; [exact H1'|]. apply IH.
  intros k' d' x Hin. apply (HP k' d'). by right.
Qed.

Lemma instantiate_grows fuel : forall md s,
  grows (reaches deps_of md) s (fst (instantiate deps_of f fuel md s)) /\
  (_instances s !! md = None ->
   is_ok (snd (instantiate deps_of f fuel md s)) = false ->
   _instances (fst (instantiate deps_of f fuel md s)) !! md = None).
Proof.
  induction fuel as [|fuel IH]; intros md s; [split; [apply grows_refl|done]|].
  rewrite instantiate_S.
  destruct (_instances s !! md) as [i0|] eqn:Hmd; [split; [apply grows_refl|done]|].
  pose proof (dict_comprehension_grows (instantiate deps_of f fuel)
                (fun x => reaches deps_of md x /\ x <> md)
                (map_to_list (deps_of md)) (fun d t => proj1 (IH d t))) as Hdc.
  specialize (Hdc (fun k d x Hin Hx =>
    conj (reaches_step deps_of md k d x (proj1 (elem_of_map_to_list _ _ _) Hin) Hx)
         (fun Heq : x = md =>
            not_reaches_back deps_of Hacyc md k d
              (proj1 (elem_of_map_to_list _ _ _) Hin)
              (eq_ind x (reaches deps_of d) Hx md Heq))) ∅ s).
  destruct (dict_comprehension _ _ _ _) as [s1 r1]. simpl in Hdc.
  assert (grows (reaches deps_of md) s s1) as Hg.
  { eapply grows_weaken; [|exact Hdc]. by intros x [Hx _]. }
  assert (_instances s1 !! md = None) as Hmd1.
  { destruct (_instances s1 !! md) as [i|] eqn:H1; [|done].
    destruct Hdc as [_ Hnew]. by destruct (Hnew md Hmd (mk_is_Some _ _ H1)) as [_ ?]. }
  destruct r1 as [dd|e|]; [|done..].
  destruct (f md dd (outer s1)) as [e [i|x|]]; simpl; [|done..].
  split; [|done].
  destruct Hg as [Hsub Hnew]. split; simpl.
  - etrans; [exact Hsub|]. by apply insert_subseteq.
  - intros m Hm Hs. destruct (decide (m = md)) as [->|Hne]; [apply reaches_refl|].
    rewrite lookup_insert_ne in Hs by done. by apply Hnew.
Qed.
End mapper_any_outcome.

(** X9. On an acyclic graph an [instantiate] that ends in an exception
    (of the instantiator, for the module or for one of its dependencies)
    loses nothing and stores nothing for the module: the instances the
    mapper had are still there, unchanged; those it gained are of modules
    reachable from the one asked for, the dependencies that were completed
    before the failure; and the module itself has no instance, so that a
    later call tries it again. *)
Theorem failed_instantiate_keeps_progress {Inst St : Type}
    (deps_of : ModRef -> gmap string ModRef)
    (f : ModRef -> gmap string Inst -> M St Inst)
    (fuel : nat) (md : ModRef) (s s' : Mapper Inst St) (r : outcome Inst) :
  acyclic deps_of ->
  instantiate deps_of f fuel md s = (s', r) ->
  _instances s ⊆ _instances s' /\
  (forall m, _instances s !! m = None -> is_Some (_instances s' !! m) ->
             reaches deps_of md m) /\
  (_instances s !! md = None -> is_ok r = false -> _instances s' !! md = None).
Proof.
  intros Hacyc Hrun.
  destruct (instantiate_grows deps_of f Hacyc fuel md s) as [[Hsub Hnew] Hfail].
  rewrite Hrun in *. done.
Qed.

(** In the diamond, with an instantiator that refuses b: a and c are
    instantiated and kept, b and d are not. *)
Lemma failed_instantiate_keeps_progress_witness :
  ∅ ⊆ _instances (fst (instantiate diamond (refusing_instantiator "b") 3 "d"
                         (new_mapper tt))) /\
  (forall m,
     _instances (new_mapper (Inst := list string) tt) !! m = None ->
     is_Some (_instances (fst (instantiate diamond (refusing_instantiator "b") 3 "d"
                                 (new_mapper tt))) !! m) ->
     reaches diamond "d" m) /\
  (_instances (new_mapper (Inst := list string) tt) !! "d" = None ->
   is_ok (Raise (ValueError "refused") : outcome (list string)) = false ->
   _instances (fst (instantiate diamond (refusing_instantiator "b") 3 "d"
                      (new_mapper tt))) !! "d" = None).
Proof.
  apply (failed_instantiate_keeps_progress diamond (refusing_instantiator "b") 3 "d"
           (new_mapper tt)).
  - exact diamond_acyclic.
  - vm_compute. reflexivity.
Defined.

Example refused_diamond_cache :
  map_to_list (_instances (fst (instantiate diamond (refusing_instantiator "b") 3 "d"
                                  (new_mapper tt))))
  = [("a", ["a"]); ("c", ["c"; "a"])] \/
  map_to_list (_instances (fst (instantiate diamond (refusing_instantiator "b") 3 "d"
                                  (new_mapper tt))))
  = [("c", ["c"; "a"]); ("a", ["a"])].
Proof. vm_compute. auto. Qed.

(** ** DependencyMapper: the cache changes no result *)

Section memo_naive.
Context {Inst : Type}.
Variable deps_of : ModRef -> gmap string ModRef.
Variable f : ModRef -> gmap string Inst -> outcome Inst.

Abbreviation memo := (instantiate deps_of (stateless f)).
Abbreviation naive := (naive_instantiate deps_of f).

Lemma dict_comprehension_naive (rec : ModRef -> M (Mapper Inst unit) Inst)
    (nrec : nat -> ModRef -> outcome Inst) items :
  (forall d s s' r,
      cache_sound deps_of f (_instances s) -> rec d s = (s', r) -> r <> OutOfFuel ->
      cache_sound deps_of f (_instances s') /\
      exists n, forall n', n <= n' -> nrec n' d = r) ->
  forall acc s s' r,
    cache_sound deps_of f (_instances s) ->
    dict_comprehension rec items acc s = (s', r) -> r <> OutOfFuel ->
    cache_sound deps_of f (_instances s') /\
    exists n, forall n', n <= n' -> naive_deps (nrec n') items acc = r.
Proof.
  intros Hrec. induction items as [|[k d] items IH]; intros acc s s' r Hs; simpl.
  { intros [= <- <-] _. split; [done|]. by exists 0. }
  unfold bind. destruct (rec d s) as [s1 r1] eqn:H1.
  destruct r1 as [i|e|].
  - intros Hrest Hr.
    destruct (Hrec d s s1 (Ok i) Hs H1) as [Hs1 [n1 Hn1]]; [done|].
    destruct (IH _ _ _ _ Hs1 Hrest Hr) as [Hs' [n2 Hn2]].
    split; [done|]. exists (n1 `max` n2). intros n' Hn'.
    rewrite Hn1 by lia. apply Hn2. lia.
  - intros [= <- <-] _.
    destruct (Hrec d s s1 (Raise e) Hs H1) as [Hs1 [n1 Hn1]]; [done|].
    split; [done|]. exists n1. intros n' Hn'. by rewrite Hn1.
  - by intros [= <- <-].
Qed.

Lemma instantiate_naive fuel : forall md s s' r,
  cache_sound deps_of f (_instances s) ->
  memo fuel md s = (s', r) -> r <> OutOfFuel ->
  cache_sound deps_of f (_instances s') /\
  exists n, forall n', n <= n' -> naive n' md = r.
Proof.
  induction fuel as [|fuel IH]; intros md s s' r Hs.
  { simpl. by intros [= <- <-]. }
  rewrite instantiate_S.
  destruct (_instances s !! md) as [i0|] eqn:Hmd.
  { intros [= <- <-] _. split; [done|]. by apply Hs. }
  destruct (dict_comprehension _ _ _ _) as [s1 r1] eqn:H1.
  pose proof (dict_comprehension_naive (memo fuel) naive
                (map_to_list (deps_of md)) IH ∅ s s1 r1 Hs H1) as Hdc.
  destruct r1 as [dd|e|].
  - destruct Hdc as [Hs1 [n Hn]]; [done|].
    assert (forall n', S n <= n' -> naive n' md = f md dd) as Hmd'.
    { intros [|n'] Hn'; [lia|]. simpl. rewrite Hn by lia. done. }
    unfold stateless at 1.
    destruct (f md dd) as [i|x|] eqn:Hf; simpl.
    + intros [= <- <-] _. split; [|by exists (S n)].
      intros m j. simpl. destruct (decide (m = md)) as [->|Hne].
      * rewrite lookup_insert_eq. intros [= <-]. by exists (S n).
      * rewrite lookup_insert_ne by done. apply Hs1.
    + intros [= <- <-] _. split; [done|]. by exists (S n).
    + by intros [= <- <-].
  - destruct Hdc as [Hs1 [n Hn]]; [done|].
    intros [= <- <-] _. split; [done|]. exists (S n).
    intros [|n'] Hn'; [lia|]. simpl. rewrite Hn by lia. done.
  - by intros [= <- <-].
Qed.
End memo_naive.

(** X10. For an instantiator that is a function of its arguments, the
    cache is invisible: what a mapper returns for a module -- the instance
    or the exception -- is what the recursion of the docstring, with no
    cache at all, returns for it.  This holds for a new mapper and after
    any calls made on it, each of which keeps the cache true to that
    recursion. *)
Theorem memoised_is_naive {Inst : Type}
    (deps_of : ModRef -> gmap string ModRef)
    (f : ModRef -> gmap string Inst -> outcome Inst)
    (fuel : nat) (md : ModRef) (s s' : Mapper Inst unit) (r : outcome Inst) :
  cache_sound deps_of f (_instances s) ->
  instantiate deps_of (stateless f) fuel md s = (s', r) ->
  r <> OutOfFuel ->
  cache_sound deps_of f (_instances s') /\
  exists n, forall n', n <= n' -> naive_instantiate deps_of f n' md = r.
Proof. apply instantiate_naive. Qed.

Lemma memoised_is_naive_witness :
  cache_sound diamond naming_function
    (_instances (fst (instantiate diamond (stateless naming_function) 3 "d"
                        (new_mapper tt)))) /\
  exists n, forall n', n <= n' ->
    naive_instantiate diamond naming_function n' "d"
    = snd (instantiate diamond (stateless naming_function) 3 "d" (new_mapper tt)).
Proof.
  apply (memoised_is_naive diamond naming_function 3 "d" (new_mapper tt)).
  - intros m i Hm. vm_compute in Hm. discriminate.
  - reflexivity.
  - vm_compute. discriminate.
Defined.

(** ** DependencyMapper: cycles *)

Section mapper_cycles.
Context {Inst St : Type}.
Variable deps_of : ModRef -> gmap string ModRef.
Variable f : ModRef -> gmap string Inst -> M St Inst.
(** A set of modules each of which depends on one of the set. *)
Variable B : ModRef -> Prop.
Hypothesis B_trap : forall m, B m -> exists k d, deps_of m !! k = Some d /\ B d.

Lemma dict_comprehension_trapped (rec : ModRef -> M (Mapper Inst St) Inst) items :
  (forall d s,
      none_cached B s ->
      none_cached B (fst (rec d s)) /\ (B d -> is_ok (snd (rec d s)) = false)) ->
  forall acc s,
    none_cached B s ->
    none_cached B (fst (dict_comprehension rec items acc s)) /\
    ((exists k d, (k, d) ∈ items /\ B d) ->
     is_ok (snd (dict_comprehension rec items acc s)) = false).
Proof.
  intros Hrec. induction items as [|[k d] items IH]; intros acc s Hs; simpl.
  { split; [done|]. intros (k & d & Hin & _). by apply elem_of_nil in Hin. }
  unfold bind. destruct (Hrec d s Hs) as [Hs1 Hd].
  destruct (rec d s) as [s1 [i|e|]]; simpl in *; [|done..].
  destruct (IH (<[k := i]> acc) s1 Hs1) as [Hs' Hitems]. split; [done|].
  intros (k' & d' & Hin & Hd'). apply elem_of_cons in Hin as [[= -> ->]|Hin].
  - by specialize (Hd Hd').
  - apply Hitems. by exists k', d'.
Qed.

Lemma instantiate_trapped fuel : forall md s,
  none_cached B s ->
  none_cached B (fst (instantiate deps_of f fuel md s)) /\
  (B md -> is_ok (snd (instantiate deps_of f fuel md s)) = false).
Proof.
  induction fuel as [|fuel IH]; intros md s Hs; [done|].
  rewrite instantiate_S.
  destruct (_instances s !! md) as [i0|] eqn:Hmd.
  { split; [done|]. intros Hb. rewrite (Hs md Hb) in Hmd. done. }
  destruct (dict_comprehension_trapped (instantiate deps_of f fuel)
              (map_to_list (deps_of md)) IH ∅ s Hs) as [Hs1 Hdc].
  destruct (dict_comprehension _ _ _ _) as [s1 r1]. simpl in *.
  assert (B md -> is_ok r1 = false) as Hr1.
  { intros Hb. apply Hdc. destruct (B_trap md Hb) as (k & d & Hk & Hd).
    exists k, d. split; [|done]. by apply elem_of_map_to_list. }
  destruct r1 as [dd|e|]; [|done..].
  destruct (f md dd (outer s1)) as [e [i|x|]]; simpl; [|done..].
  split; [|done].
  intros m Hb. simpl. destruct (decide (m = md)) as [->|Hne].
  - by specialize (Hr1 Hb).
  - rewrite lookup_insert_ne by done. by apply Hs1.
Qed.
End mapper_cycles.

Lemma is_chain_app_r deps_of l1 l2 : is_chain deps_of (l1 ++ l2) -> is_chain deps_of l2.
Proof.
  induction l1 as [|m l1 IH]; [done|]. intros H. apply IH.
  simpl in H. destruct (l1 ++ l2) as [|d l]; [done|]. by destruct H.
Qed.

(** Every module of a cycle depends on a module of the cycle. *)
Lemma cycle_trap deps_of m l x :
  is_chain deps_of ((m :: l) ++ [m]) -> x ∈ m :: l ->
  exists k d, deps_of x !! k = Some d /\ d ∈ m :: l.
Proof.
  intros Hc Hx. apply list_elem_of_split in Hx as (l1 & l2 & Heq).
  rewrite Heq, <- app_assoc in Hc. apply is_chain_app_r in Hc.
  destruct l2 as [|y l2]; simpl in Hc.
  - destruct Hc as [[k Hk] _]. exists k, m. split; [done|left].
  - destruct Hc as [[k Hk] _]. exists k, y. split; [done|].
    rewrite Heq. apply elem_of_app. right. right. left.
Qed.

Lemma cycle_reaches_trap deps_of m l x :
  is_chain deps_of ((m :: l) ++ [m]) -> reaches deps_of x m ->
  exists k d, deps_of x !! k = Some d /\ reaches deps_of d m.
Proof.
  intros Hc (l' & Hl' & Hlast). destruct l' as [|d l'].
  - simpl in Hlast. simplify_eq. destruct l as [|d l]; simpl in Hc.
    + destruct Hc as [[k Hk] _]. exists k, m. split; [done|apply reaches_refl].
    + destruct Hc as [[k Hk] Hc]. exists k, d. split; [done|].
      exists (l ++ [m]). split; [done|]. by rewrite app_comm_cons, last_snoc.
  - destruct Hl' as [[k Hk] Hl']. exists k, d. split; [done|]. by exists l'.
Qed.

Section mapper_no_raise.
Context {Inst St : Type}.
Variable deps_of : ModRef -> gmap string ModRef.
Variable f : ModRef -> gmap string Inst -> M St Inst.
Hypothesis f_no_raise : forall m dd e, is_raise (snd (f m dd e)) = false.

Lemma dict_comprehension_no_raise (rec : ModRef -> M (Mapper Inst St) Inst) items :
  (forall d s, is_raise (snd (rec d s)) = false) ->
  forall acc s, is_raise (snd (dict_comprehension rec items acc s)) = false.
Proof.
  intros Hrec. induction items as [|[k d] items IH]; intros acc s; simpl; [done|].
  unfold bind. specialize (Hrec d s).
  destruct (rec d s) as [s1 [i|e|]]; simpl in *; [apply IH|done..].
Qed.

Lemma instantiate_no_raise fuel : forall md s,
  is_raise (snd (instantiate deps_of f fuel md s)) = false.
Proof.
  induction fuel as [|fuel IH]; intros md s; [done|].
  rewrite instantiate_S. destruct (_instances s !! md); [done|].
  pose proof (dict_comprehension_no_raise (instantiate deps_of f fuel)
                (map_to_list (deps_of md)) IH ∅ s) as Hdc.
  destruct (dict_comprehension _ _ _ _) as [s1 [dd|e|]]; simpl in *; [|done..].
  specialize (f_no_raise md dd (outer s1)).
  destruct (f md dd (outer s1)) as [e [i|x|]]; simpl in *; done.
Qed.
End mapper_no_raise.

(** X11. The mapper has no check for cycles.  While no module of a cycle
    has an instance, no call of [instantiate] for one of them returns an
    instance, whatever nesting is allowed, and none of them gets one; on a
    new mapper the same holds for every module from which the cycle is
    reached.  The call ends only with an exception raised below it: with
    an instantiator that raises nothing the nesting is used up, however
    much there is. *)
Theorem cycle_never_instantiated {Inst St : Type}
    (deps_of : ModRef -> gmap string ModRef)
    (f : ModRef -> gmap string Inst -> M St Inst)
    (m : ModRef) (l : list ModRef) :
  is_chain deps_of ((m :: l) ++ [m]) ->
  (forall fuel md s,
     (forall x, x ∈ m :: l -> _instances s !! x = None) -> md ∈ m :: l ->
     is_ok (snd (instantiate deps_of f fuel md s)) = false /\
     forall x, x ∈ m :: l ->
       _instances (fst (instantiate deps_of f fuel md s)) !! x = None) /\
  (forall fuel md e,
     reaches deps_of md m ->
     is_ok (snd (instantiate deps_of f fuel md (new_mapper e))) = false) /\
  ((forall x dd e, is_raise (snd (f x dd e)) = false) ->
   forall fuel md e,
     reaches deps_of md m ->
     snd (instantiate deps_of f fuel md (new_mapper e)) = OutOfFuel).
Proof.
  intros Hc.
  assert (forall fuel md e,
            reaches deps_of md m ->
            is_ok (snd (instantiate deps_of f fuel md (new_mapper e))) = false) as Hnew.
  { intros fuel md e Hmd.
    apply (instantiate_trapped deps_of f (fun x => reaches deps_of x m)
             (fun x => cycle_reaches_trap deps_of m l x Hc) fuel md (new_mapper e));
      [|done].
    intros x _. apply lookup_empty. }
  split; [|split; [done|]].
  - intros fuel md s Hs Hmd.
    destruct (instantiate_trapped deps_of f (fun x => x ∈ m :: l)
                (fun x => cycle_trap deps_of m l x Hc) fuel md s Hs) as [Hs' Hfail].
    split; [by apply Hfail|done].
  - intros Hf fuel md e Hmd. specialize (Hnew fuel md e Hmd).
    pose proof (instantiate_no_raise deps_of f Hf fuel md (new_mapper e)) as Hnr.
    by destruct (snd (instantiate deps_of f fuel md (new_mapper e))).
Qed.

Lemma cycle_graph_cycle : is_chain cycle_graph (("a" :: ["b"]) ++ ["a"]).
Proof. split; [by exists "b"|]. split; [by exists "a"|done]. Qed.

(** a -> b -> a and c -> a: with twenty nested calls allowed, as with any
    number, [instantiate c] has not returned. *)
Lemma cycle_never_instantiated_witness :
  snd (instantiate cycle_graph naming_instantiator 20 "c" (new_mapper tt)) = OutOfFuel.
Proof.
  apply (proj2 (proj2 (cycle_never_instantiated cycle_graph naming_instantiator
                         "a" ["b"] cycle_graph_cycle))).
  - intros x dd e. reflexivity.
  - exists ["a"]. split; [|reflexivity]. split; [by exists "a"|done].
Defined.

(** ** The dict of loaded dependencies *)

Lemma table_le_subseteq t t' : t ⊆ t' -> table_le t t'.
Proof. intros Hsub name md H. by eapply lookup_weaken. Qed.

Lemma table_le_refl t : table_le t t.
Proof. by intros name md H. Qed.

Lemma table_le_trans t1 t2 t3 : table_le t1 t2 -> table_le t2 t3 -> table_le t1 t3.
Proof. intros H1 H2 name md H. by apply H2, H1. Qed.

Lemma lookup_dep_mono E st st' item r :
  table_le (_loaded st) (_loaded st') ->
  lookup_dep E st item = Some r -> lookup_dep E st' item = Some r.
Proof.
  intros Hle. unfold lookup_dep.
  destruct (_dep_from_name E item) as [[lname dep]|e|]; [|done..].
  destruct (_loaded st !! unique_name dep) as [[md|]|] eqn:Hl; [|done..].
  by rewrite (Hle _ _ Hl).
Qed.

Lemma resolve_list_mono E st st' spec : forall acc deps,
  table_le (_loaded st) (_loaded st') ->
  resolve_list E st spec acc = Some deps -> resolve_list E st' spec acc = Some deps.
Proof.
  induction spec as [|item spec IH]; intros acc deps Hle; simpl; [done|].
  destruct (lookup_dep E st item) as [[lname md]|] eqn:Hl; [|done].
  rewrite (lookup_dep_mono E st st' item _ Hle Hl). by apply IH.
Qed.

Lemma resolve_items_mono E st st' spec : forall acc deps,
  table_le (_loaded st) (_loaded st') ->
  resolve_items E st spec acc = Some deps -> resolve_items E st' spec acc = Some deps.
Proof.
  induction spec as [|[name item] spec IH]; intros acc deps Hle; simpl; [done|].
  destruct (lookup_dep E st item) as [[lname md]|] eqn:Hl; [|done].
  rewrite (lookup_dep_mono E st st' item _ Hle Hl). by apply IH.
Qed.

Lemma resolve_mono E st st' spec deps :
  table_le (_loaded st) (_loaded st') ->
  resolve E st spec = Some deps -> resolve E st' spec = Some deps.
Proof.
  destruct spec; simpl; [apply resolve_list_mono|apply resolve_items_mono|done].
Qed.

Lemma resolve_list_values E st spec : forall acc deps,
  resolve_list E st spec acc = Some deps ->
  (forall k d, acc !! k = Some d -> is_loaded st d) ->
  forall k d, deps !! k = Some d -> is_loaded st d.
Proof.
  induction spec as [|item spec IH]; intros acc deps; simpl.
  { intros [= <-]. done. }
  unfold lookup_dep at 1.
  destruct (_dep_from_name E item) as [[lname dep]|e|]; [|done..].
  destruct (_loaded st !! unique_name dep) as [[md|]|] eqn:Hl; [|done..].
  intros Hres Hacc. eapply IH; [exact Hres|].
  intros k d. destruct (decide (k = lname)) as [->|Hne].
  - rewrite lookup_insert_eq. intros [= <-]. by eexists.
  - rewrite lookup_insert_ne by done. apply Hacc.
Qed.

Lemma resolve_items_values E st spec : forall acc deps,
  resolve_items E st spec acc = Some deps ->
  (forall k d, acc !! k = Some d -> is_loaded st d) ->
  forall k d, deps !! k = Some d -> is_loaded st d.
Proof.
  induction spec as [|[name item] spec IH]; intros acc deps; simpl.
  { intros [= <-]. done. }
  unfold lookup_dep at 1.
  destruct (_dep_from_name E item) as [[lname dep]|e|]; [|done..].
  destruct (_loaded st !! unique_name dep) as [[md|]|] eqn:Hl; [|done..].
  intros Hres Hacc. eapply IH; [exact Hres|].
  intros k d. destruct (decide (k = name)) as [->|Hne].
  - rewrite lookup_insert_eq. intros [= <-]. by eexists.
  - rewrite lookup_insert_ne by done. apply Hacc.
Qed.

Lemma resolve_values E st spec deps :
  resolve E st spec = Some deps ->
  forall k d, deps !! k = Some d -> is_loaded st d.
Proof.
  destruct spec; simpl; [intros H|intros H|done].
  - eapply resolve_list_values; [exact H|]. intros k d Hk. by rewrite lookup_empty in Hk.
  - eapply resolve_items_values; [exact H|]. intros k d Hk. by rewrite lookup_empty in Hk.
Qed.

Section resolve_open.
Variable E : Env.
Variable rec : Dependency -> M State ModRef.
Hypothesis rec_keeps : forall dep, keeps_table (rec dep).
Hypothesis rec_loaded : forall dep st st' md,
  rec dep st = (st', Ok md) -> _loaded st' !! unique_name dep = Some (Some md).

Lemma deps_from_list_resolved spec : forall acc st st' deps,
  deps_from_list E rec spec acc st = (st', Ok deps) ->
  resolve_list E st' spec acc = Some deps.
Proof.
  induction spec as [|item spec IH]; intros acc st st' deps; simpl.
  { by intros [= <- <-]. }
  unfold lookup_dep.
  destruct (_dep_from_name E item) as [[lname dep]|e|]; [|done..].
  unfold bind. destruct (rec dep st) as [s1 [md|e|]] eqn:Hrec; [|done..].
  intros Hrest.
  pose proof (keeps_deps_from_list E rec rec_keeps spec (<[lname := md]> acc) s1) as Hk.
  rewrite Hrest in Hk. simpl in Hk.
  rewrite (lookup_weaken _ _ _ _ (rec_loaded _ _ _ _ Hrec) Hk).
  by eapply IH.
Qed.

Lemma deps_from_items_resolved spec : forall acc st st' deps,
  deps_from_items E rec spec acc st = (st', Ok deps) ->
  resolve_items E st' spec acc = Some deps.
Proof.
  induction spec as [|[name item] spec IH]; intros acc st st' deps; simpl.
  { by intros [= <- <-]. }
  unfold lookup_dep.
  destruct (_dep_from_name E item) as [[lname dep]|e|]; [|done..].
  unfold bind. destruct (rec dep st) as [s1 [md|e|]] eqn:Hrec; [|done..].
  intros Hrest.
  pose proof (keeps_deps_from_items E rec rec_keeps spec (<[name := md]> acc) s1) as Hk.
  rewrite Hrest in Hk. simpl in Hk.
  rewrite (lookup_weaken _ _ _ _ (rec_loaded _ _ _ _ Hrec) Hk).
  by eapply IH.
Qed.

Lemma deps_from_spec_with_resolved spec st st' deps :
  deps_from_spec_with E rec spec st = (st', Ok deps) ->
  resolve E st' spec = Some deps.
Proof.
  destruct spec; simpl;
    [apply deps_from_list_resolved|apply deps_from_items_resolved|done].
Qed.

Hypothesis rec_cached : forall dep st md,
  _loaded st !! unique_name dep = Some (Some md) -> rec dep st = (st, Ok md).

Lemma resolve_list_run spec : forall acc st deps,
  resolve_list E st spec acc = Some deps ->
  deps_from_list E rec spec acc st = (st, Ok deps).
Proof.
  induction spec as [|item spec IH]; intros acc st deps; simpl.
  { by intros [= <-]. }
  unfold lookup_dep.
  destruct (_dep_from_name E item) as [[lname dep]|e|]; [|done..].
  destruct (_loaded st !! unique_name dep) as [[md|]|] eqn:Hl; [|done..].
  intros Hres. unfold bind. rewrite (rec_cached _ _ _ Hl). by apply IH.
Qed.

Lemma resolve_items_run spec : forall acc st deps,
  resolve_items E st spec acc = Some deps ->
  deps_from_items E rec spec acc st = (st, Ok deps).
Proof.
  induction spec as [|[name item] spec IH]; intros acc st deps; simpl.
  { by intros [= <-]. }
  unfold lookup_dep.
  destruct (_dep_from_name E item) as [[lname dep]|e|]; [|done..].
  destruct (_loaded st !! unique_name dep) as [[md|]|] eqn:Hl; [|done..].
  intros Hres. unfold bind. rewrite (rec_cached _ _ _ Hl). by apply IH.
Qed.

Lemma resolve_run spec st deps :
  resolve E st spec = Some deps ->
  deps_from_spec_with E rec spec st = (st, Ok deps).
Proof.
  destruct spec; simpl; [apply resolve_list_run|apply resolve_items_run|done].
Qed.
End resolve_open.

Lemma load_loaded E fuel dep st st' md :
  load E fuel dep st = (st', Ok md) -> _loaded st' !! unique_name dep = Some (Some md).
Proof.
  intros H. pose proof (load_ok_loaded E fuel dep st md) as Hl.
  rewrite H in Hl. by apply Hl.
Qed.

Lemma deps_from_spec_resolved E fuel spec st st' deps :
  deps_from_spec E fuel spec st = (st', Ok deps) -> resolve E st' spec = Some deps.
Proof.
  apply deps_from_spec_with_resolved; [apply load_keeps_table|apply load_loaded].
Qed.

Lemma resolve_list_dom E st spec : forall acc deps,
  resolve_list E st spec acc = Some deps ->
  forall k, is_Some (deps !! k) <->
            is_Some (acc !! k) \/
            exists item md, item ∈ spec /\ lookup_dep E st item = Some (k, md).
Proof.
  induction spec as [|item spec IH]; intros acc deps; simpl.
  { intros [= <-] k. split; [by left|]. intros [?|(item & md & Hin & _)]; [done|].
    by apply elem_of_nil in Hin. }
  destruct (lookup_dep E st item) as [[lname md]|] eqn:Hl; [|done].
  intros Hres k. rewrite (IH _ _ Hres k). split.
  - intros [Hacc|(item' & md' & Hin & Hl')].
    + destruct (decide (k = lname)) as [->|Hne].
      * right. exists item, md. split; [left|done].
      * left. by rewrite lookup_insert_ne in Hacc.
    + right. exists item', md'. split; [by right|done].
  - intros [Hacc|(item' & md' & Hin & Hl')].
    + left. destruct (decide (k = lname)) as [->|Hne].
      * rewrite lookup_insert_eq. by eexists.
      * by rewrite lookup_insert_ne.
    + apply elem_of_cons in Hin as [->|Hin].
      * left. rewrite Hl in Hl'. simplify_eq. rewrite lookup_insert_eq. by eexists.
      * right. by exists item', md'.
Qed.

Lemma resolve_items_dom E st spec : forall acc deps,
  resolve_items E st spec acc = Some deps ->
  forall k, is_Some (deps !! k) <-> is_Some (acc !! k) \/ k ∈ spec.*1.
Proof.
  induction spec as [|[name item] spec IH]; intros acc deps; simpl.
  { intros [= <-] k. split; [by left|]. intros [?|Hin]; [done|].
    by apply elem_of_nil in Hin. }
  destruct (lookup_dep E st item) as [[lname md]|] eqn:Hl; [|done].
  intros Hres k. rewrite (IH _ _ Hres k). split.
  - intros [Hacc|Hin]; [|right; by right].
    destruct (decide (k = name)) as [->|Hne]; [right; left|].
    left. by rewrite lookup_insert_ne in Hacc.
  - intros [Hacc|Hin].
    + left. destruct (decide (k = name)) as [->|Hne].
      * rewrite lookup_insert_eq. by eexists.
      * by rewrite lookup_insert_ne.
    + apply elem_of_cons in Hin as [->|Hin]; [|by right].
      left. rewrite lookup_insert_eq. by eexists.
Qed.

(** X12. When [deps_from_spec] returns a dict, the dict is the one the
    load table now gives for the spec: its keys are the local names
    derived from the names of a list, or the keys of a dict spec; every
    value is the module object of a completed load; and asking again, in
    this or any later state of the universe, returns the same dict and
    changes nothing (no module is imported or patched a second time). *)
Theorem deps_from_spec_result (E : Env) (fuel : nat) (spec : DepSpec)
    (st st' : State) (deps : gmap string ModRef) :
  deps_from_spec E fuel spec st = (st', Ok deps) ->
  resolve E st' spec = Some deps /\
  (forall k d, deps !! k = Some d -> is_loaded st' d) /\
  (forall items, spec = SpecList items ->
     forall k, is_Some (deps !! k) <->
               exists item dep, item ∈ items /\ _dep_from_name E item = Ok (k, dep)) /\
  (forall items, spec = SpecDict items ->
     forall k, is_Some (deps !! k) <-> is_Some (items !! k)) /\
  (forall fuel' n later,
     deps_from_spec E (S fuel') spec (load_all E n later st')
     = (load_all E n later st', Ok deps)).
Proof.
  intros Hrun. pose proof (deps_from_spec_resolved E fuel spec st st' deps Hrun) as Hres.
  split; [done|]. split; [by eapply resolve_values|]. split; [|split].
  - intros items -> k. simpl in Hres.
    rewrite (resolve_list_dom E st' items ∅ deps Hres k). split.
    + intros [[? Hk]|(item & md & Hin & Hl)]; [by rewrite lookup_empty in Hk|].
      exists item. unfold lookup_dep in Hl.
      destruct (_dep_from_name E item) as [[lname dep]|e|]; [|done..].
      destruct (_loaded st' !! unique_name dep) as [[md'|]|]; [|done..].
      simplify_eq. by exists dep.
    + intros (item & dep & Hin & Hd). right.
      (* every name of the list was resolved *)
      assert (forall acc deps', resolve_list E st' items acc = Some deps' ->
                exists md, lookup_dep E st' item = Some (k, md)) as Hall.
      { clear -Hin Hd. induction items as [|item' items IH]; intros acc deps'; simpl.
        { by apply elem_of_nil in Hin. }
        destruct (lookup_dep E st' item') as [[lname md]|] eqn:Hl; [|done].
        apply elem_of_cons in Hin as [<-|Hin]; [|by apply IH].
        intros _. unfold lookup_dep in Hl |- *. rewrite Hd in Hl |- *.
        destruct (_loaded st' !! unique_name dep) as [[md'|]|]; [|done..].
        by exists md'. }
      destruct (Hall _ _ Hres) as [md Hmd]. by exists item, md.
  - intros items -> k. simpl in Hres.
    rewrite (resolve_items_dom E st' (map_to_list items) ∅ deps Hres k). split.
    + intros [[? Hk]|Hin]; [by rewrite lookup_empty in Hk|].
      apply list_elem_of_fmap in Hin as ([k' v] & -> & Hin).
      apply elem_of_map_to_list in Hin. by eexists.
    + intros [v Hv]. right. apply list_elem_of_fmap. exists (k, v).
      split; [done|]. by apply elem_of_map_to_list.
  - intros fuel' n later. apply resolve_run.
    + intros dep s md. apply load_cached.
    + eapply resolve_mono; [|exact Hres].
      apply table_le_subseteq, load_all_keeps_table.
Qed.

Lemma deps_from_spec_result_witness :
  deps_from_spec env_diamond 4 (SpecList ["b"; "c"])
    (load_all env_diamond 4 [example_dep "a"]
       (fst (deps_from_spec env_diamond 4 (SpecList ["b"; "c"]) empty_state)))
  = (load_all env_diamond 4 [example_dep "a"]
       (fst (deps_from_spec env_diamond 4 (SpecList ["b"; "c"]) empty_state)),
     Ok {[ "b" := "RECIPE_MODULES.b"; "c" := "RECIPE_MODULES.c" ]}).
Proof.
  apply (deps_from_spec_result env_diamond 4 (SpecList ["b"; "c"]) empty_state).
  vm_compute. reflexivity.
Defined.

(** ** The universe stays well formed *)

Lemma same_source_refl m : same_source m m.
Proof. by repeat split. Qed.

Lemma same_source_trans m1 m2 m3 :
  same_source m1 m2 -> same_source m2 m3 -> same_source m1 m3.
Proof.
  intros (H1 & H2 & H3 & H4 & H5) (G1 & G2 & G3 & G4 & G5).
  repeat split; [congruence..|auto].
Qed.

Lemma ext_refl st : ext st st.
Proof. split; [done|]. intros ref m H. exists m. split; [done|apply same_source_refl]. Qed.

Lemma ext_trans st1 st2 st3 : ext st1 st2 -> ext st2 st3 -> ext st1 st3.
Proof.
  intros [H1 M1] [H2 M2]. split; [by etrans|].
  intros ref m Hm. destruct (M1 ref m Hm) as (m' & Hm' & Hs).
  destruct (M2 ref m' Hm') as (m'' & Hm'' & Hs'). exists m''.
  split; [done|by eapply same_source_trans].
Qed.

Lemma is_loaded_dec st md : is_loaded st md \/ ~ is_loaded st md.
Proof.
  destruct (decide (Some md ∈ (snd <$> map_to_list (_loaded st)))) as [Hin|Hnot].
  - left. apply list_elem_of_fmap in Hin as ([name v] & Hv & Hin). simpl in Hv. subst v.
    exists name. by apply elem_of_map_to_list.
  - right. intros [name Hname]. apply Hnot. apply list_elem_of_fmap.
    exists (name, Some md). split; [done|]. by apply elem_of_map_to_list.
Qed.

Lemma max_rank_le rank deps k d : deps !! k = Some d -> rank d <= max_rank rank deps.
Proof.
  intros Hk. apply elem_of_map_to_list in Hk. unfold max_rank.
  induction (map_to_list deps) as [|kd l IH]; [by apply elem_of_nil in Hk|].
  simpl. apply elem_of_cons in Hk as [<-|Hk]; simpl; [lia|].
  specialize (IH Hk). lia.
Qed.

Lemma module_ok_mono E st st' rank md m :
  table_le (_loaded st) (_loaded st') ->
  module_ok E st rank md m -> module_ok E st' rank md m.
Proof.
  intros Hle [H1 H2 H3 HC H4 H5]. split; [done..| |done]. by eapply resolve_mono.
Qed.

(** A change of the state that leaves the completed loads and their
    module objects alone keeps the universe well formed. *)
Lemma universe_ok_frame E st st' :
  universe_ok E st ->
  table_le (_loaded st) (_loaded st') ->
  (forall md, is_loaded st' md -> is_loaded st md) ->
  (forall md, is_loaded st md -> sys_modules st' !! md = sys_modules st !! md) ->
  universe_ok E st'.
Proof.
  intros [rank Hok] Hle Hl Hm. exists rank. intros md Hmd.
  destruct (Hok md (Hl md Hmd)) as (m & Hlook & Hmok). exists m. split.
  - by rewrite Hm by auto.
  - by eapply module_ok_mono.
Qed.

(** The same, when the object of one completed load is replaced by one
    that is as good. *)
Lemma universe_ok_update E st ref m m' :
  universe_ok E st ->
  sys_modules st !! ref = Some m ->
  (forall rank, module_ok E st rank ref m -> module_ok E st rank ref m') ->
  universe_ok E (set_module ref m' st).
Proof.
  intros [rank Hok] Hm Hgood. exists rank. intros md Hmd.
  assert (is_loaded st md) as Hmd' by done.
  destruct (Hok md Hmd') as (m0 & Hlook & Hmok). simpl.
  destruct (decide (md = ref)) as [->|Hne].
  - exists m'. rewrite lookup_insert_eq. split; [done|].
    rewrite Hm in Hlook. simplify_eq.
    apply (module_ok_mono E st); [by intros ? ? ?|]. by apply Hgood.
  - exists m0. rewrite lookup_insert_ne by done. split; [done|].
    apply (module_ok_mono E st); [by intros ? ? ?|done].
Qed.

Lemma ext_update st ref m m' :
  sys_modules st !! ref = Some m -> same_source m m' -> ext st (set_module ref m' st).
Proof.
  intros Hm Hs. split; [done|]. intros r x Hx. simpl.
  destruct (decide (r = ref)) as [->|Hne].
  - exists m'. rewrite lookup_insert_eq. split; [done|].
    pose proof (eq_trans (eq_sym Hm) Hx) as Heq. injection Heq as <-. exact Hs.
  - exists x. rewrite lookup_insert_ne by done. split; [done|apply same_source_refl].
Qed.

Lemma scan_members_truthy sel msg vs slot :
  truthy slot = true -> fst (scan_members sel msg vs slot) = slot.
Proof.
  intros Hs. induction vs as [|v vs IH]; simpl; [done|].
  destruct (sel v); [by rewrite Hs|done].
Qed.

Lemma patchup_ok_config name m m' :
  _patchup_module name m = (m', Ok tt) ->
  is_Some (config m') -> truthy (CONFIG_CTX m') = true.
Proof.
  intros Hrun. pose proof (patchup_stages name m) as Hst. rewrite Hrun in Hst.
  simpl in Hst.
  destruct (patchup_ok_fields name m m' Hrun) as (_ & _ & -> & _ & -> & _).
  unfold config_stage in *. intros [cvs Hc]. rewrite Hc in *.
  destruct (scan_members _ _ cvs _) as [slot [[]|e|]]; simpl in *; [|done..].
  by destruct (truthy slot).
Qed.

(** What the patch-up leaves alone, however it ends. *)
Lemma patchup_frame name m :
  same_source m (fst (_patchup_module name m)) /\
  LOADED_DEPS (fst (_patchup_module name m)) = LOADED_DEPS m /\
  is_Some (NAME (fst (_patchup_module name m))) /\
  (is_Some (PROPERTIES m) -> is_Some (PROPERTIES (fst (_patchup_module name m)))) /\
  (truthy (CONFIG_CTX m) = true ->
   truthy (CONFIG_CTX (fst (_patchup_module name m))) = true).
Proof.
  assert (forall vs, truthy (CONFIG_CTX m) = true ->
            truthy (fst (scan_members is_config_context
                           "More than one configuration context"
                           vs (CONFIG_CTX m))) = true) as HCTX.
  { intros vs Ht. by rewrite scan_members_truthy. }
  assert (forall vs, truthy (API m) = true ->
            truthy (fst (scan_members is_api_class "has more than one Api subclass"
                           vs (API m))) = true) as HAPI.
  { intros vs Ht. by rewrite scan_members_truthy. }
  unfold same_source, _patchup_module, bind, modify, reads, scan_attr, assert,
    ret, raise. simpl.
  destruct (config m) as [cvs|] eqn:Hcfg; simpl.
  - specialize (HCTX cvs).
    destruct (scan_members is_config_context _ cvs _) as [cslot [[]|e|]]; simpl in *;
      [|by repeat split; eauto..].
    destruct (truthy cslot) eqn:Hcs; simpl; [|by repeat split; eauto].
    destruct (api m) as [avs|] eqn:Hapi; simpl; [|by repeat split; eauto].
    specialize (HAPI avs).
    destruct (scan_members is_api_class _ avs _) as [aslot [[]|e|]]; simpl in *;
      [|by repeat split; eauto..].
    destruct (truthy aslot) eqn:Ha; simpl; [|by repeat split; eauto].
    destruct (test_api m) as [tvs|] eqn:Htest; simpl; [|by repeat split; eauto].
    destruct (scan_members is_test_api_class _ tvs _) as [tslot [[]|e|]]; simpl;
      [|by repeat split; eauto..].
    rewrite Ha. simpl. by repeat split; eauto.
  - destruct (api m) as [avs|] eqn:Hapi; simpl; [|by repeat split; eauto].
    specialize (HAPI avs).
    destruct (scan_members is_api_class _ avs _) as [aslot [[]|e|]]; simpl in *;
      [|by repeat split; eauto..].
    destruct (truthy aslot) eqn:Ha; simpl; [|by repeat split; eauto].
    destruct (test_api m) as [tvs|] eqn:Htest; simpl; [|by repeat split; eauto].
    destruct (scan_members is_test_api_class _ tvs _) as [tslot [[]|e|]]; simpl;
      [|by repeat split; eauto..].
    rewrite Ha. simpl. by repeat split; eauto.
Qed.

Lemma loaded_in_sys_modules E st md :
  universe_ok E st -> is_loaded st md -> is_Some (sys_modules st !! md).
Proof. intros [rank Hok] Hmd. destruct (Hok md Hmd) as (m & Hm & _). by exists m. Qed.

Lemma set_module_id ref m st : sys_modules st !! ref = Some m -> set_module ref m st = st.
Proof.
  intros Hm. destruct st as [t sm]. unfold set_module. simpl in *. f_equal.
  by apply insert_id.
Qed.

Lemma find_and_load_sound E fullname modname path :
  sound E (fun md st' => md = fullname /\ is_Some (sys_modules st' !! md))
    (_find_and_load_module E fullname modname path).
Proof.
  intros st Hok. unfold _find_and_load_module.
  destruct (sys_modules st !! fullname) as [m|] eqn:Hm; simpl.
  { split; [done|]. split; [apply ext_refl|]. intros a [= <-]. split; [done|by exists m]. }
  destruct (import_package E _) as [m|]; simpl.
  - assert (forall ref, is_Some (sys_modules st !! ref) -> ref <> fullname) as Hne.
    { intros ref [x Hx] ->. congruence. }
    split; [|split].
    + apply (universe_ok_frame E st); [done|by intros ? ? ?|done|].
      intros md Hmd. simpl. apply lookup_insert_ne. symmetry.
      apply Hne. by eapply loaded_in_sys_modules.
    + split; [done|]. intros ref x Hx. exists x. simpl.
      rewrite lookup_insert_ne; [|symmetry; apply Hne; by eexists].
      split; [done|apply same_source_refl].
    + intros a [= <-]. split; [done|]. simpl. rewrite lookup_insert_eq. by eexists.
  - split; [done|]. split; [apply ext_refl|done].
Qed.

Lemma on_module_run {A} (ref : ModRef) (c : M Module A) st m :
  sys_modules st !! ref = Some m ->
  on_module ref c st = (set_module ref (fst (c m)) st, snd (c m)).
Proof. intros Hm. unfold on_module. rewrite Hm. by destruct (c m). Qed.

Lemma sound_intro {A} E (Q : A -> State -> Prop) (c : M State A) :
  (forall st, universe_ok E st -> forall st' r, c st = (st', r) ->
     universe_ok E st' /\ ext st st' /\ forall a, r = Ok a -> Q a st') ->
  sound E Q c.
Proof.
  intros H st Hok. destruct (c st) as [st' r] eqn:Hrun. by apply (H st Hok).
Qed.

Section universe_open.
Variable E : Env.
Variable rec : Dependency -> M State ModRef.
Hypothesis rec_sound : forall dep,
  sound E (fun md st' => _loaded st' !! unique_name dep = Some (Some md)) (rec dep).

Lemma deps_from_list_sound spec : forall acc,
  sound E (fun deps st' => resolve_list E st' spec acc = Some deps)
    (deps_from_list E rec spec acc).
Proof.
  induction spec as [|item spec IH]; intros acc st Hok; simpl.
  { split; [done|]. split; [apply ext_refl|]. by intros a [= <-]. }
  unfold lookup_dep.
  destruct (_dep_from_name E item) as [[lname dep]|e|]; simpl;
    [|by split; [|split; [apply ext_refl|]]..].
  unfold bind. destruct (rec_sound dep st Hok) as (Hok1 & Hext1 & HQ1).
  destruct (rec dep st) as [s1 [md|e|]]; simpl in *;
    [|by split; [|split]..].
  specialize (HQ1 md eq_refl).
  destruct (IH (<[lname := md]> acc) s1 Hok1) as (Hok' & Hext' & HQ').
  split; [done|]. split; [by eapply ext_trans|].
  intros a Ha. rewrite (lookup_weaken _ _ _ _ HQ1 (proj1 Hext')). by apply HQ'.
Qed.

Lemma deps_from_items_sound spec : forall acc,
  sound E (fun deps st' => resolve_items E st' spec acc = Some deps)
    (deps_from_items E rec spec acc).
Proof.
  induction spec as [|[name item] spec IH]; intros acc st Hok; simpl.
  { split; [done|]. split; [apply ext_refl|]. by intros a [= <-]. }
  unfold lookup_dep.
  destruct (_dep_from_name E item) as [[lname dep]|e|]; simpl;
    [|by split; [|split; [apply ext_refl|]]..].
  unfold bind. destruct (rec_sound dep st Hok) as (Hok1 & Hext1 & HQ1).
  destruct (rec dep st) as [s1 [md|e|]]; simpl in *;
    [|by split; [|split]..].
  specialize (HQ1 md eq_refl).
  destruct (IH (<[name := md]> acc) s1 Hok1) as (Hok' & Hext' & HQ').
  split; [done|]. split; [by eapply ext_trans|].
  intros a Ha. rewrite (lookup_weaken _ _ _ _ HQ1 (proj1 Hext')). by apply HQ'.
Qed.

Lemma deps_from_spec_with_sound spec :
  sound E (fun deps st' => resolve E st' spec = Some deps)
    (deps_from_spec_with E rec spec).
Proof.
  destruct spec; simpl;
    [apply deps_from_list_sound|apply deps_from_items_sound|].
  intros st Hok. split; [done|]. split; [apply ext_refl|done].
Qed.
Lemma load_recipe_module_module_sound path :
  sound E (patched E) (_load_recipe_module_module_with E rec path).
Proof.
  apply sound_intro. intros st Hok st' r.
  unfold _load_recipe_module_module_with.
  set (modname := os_path.splitext_root _).
  set (fullname := String.append _ _).
  unfold bind at 1.
  destruct (find_and_load_sound E fullname modname path st Hok) as (Hok1 & Hext1 & HQ1).
  destruct (_find_and_load_module E fullname modname path st) as [st1 [md|e|]];
    simpl in *; [|by intros [= <- <-]..].
  destruct (HQ1 md eq_refl) as [-> [m1 Hm1]]. clear HQ1.
  (* the spec is read *)
  unfold bind at 1. rewrite (on_module_run fullname _ st1 m1 Hm1).
  unfold reads at 1. simpl fst. simpl snd.
  rewrite (set_module_id fullname m1 st1 Hm1).
  set (spec := default (SpecList []) (DEPS m1)).
  (* the dependencies are loaded *)
  unfold bind at 1.
  destruct (deps_from_spec_with_sound spec st1 Hok1)
    as (Hok2 & Hext2 & HQ2).
  destruct (deps_from_spec_with E rec spec st1) as [st2 [deps|e|]];
    simpl in *; [|intros [= <- <-]; by split; [|split; [eapply ext_trans|]]..].
  specialize (HQ2 deps eq_refl).
  destruct (proj2 Hext2 fullname m1 Hm1) as (m2 & Hm2 & Hs2).
  (* LOADED_DEPS is set *)
  unfold bind at 1. rewrite (on_module_run fullname _ st2 m2 Hm2).
  unfold modify at 1. simpl fst. simpl snd.
  set (m3 := with_LOADED_DEPS deps m2).
  set (st3 := set_module fullname m3 st2).
  assert (DEPS m2 = DEPS m1) as HDEPS by apply Hs2.
  assert (universe_ok E st3) as Hok3.
  { apply (universe_ok_update E st2 fullname m2); [done..|].
    intros rank [H1 H2 H3 HC H4 H5]. rewrite HDEPS in H4. fold spec in H4.
    assert (LOADED_DEPS m2 = deps) as Heq by congruence.
    split; simpl; [done..|by rewrite HDEPS|by rewrite <- Heq]. }
  assert (ext st2 st3) as Hext3.
  { apply (ext_update st2 fullname m2); [done|]. by repeat split. }
  (* the patch-up *)
  unfold bind at 1.
  assert (sys_modules st3 !! fullname = Some m3) as Hm3 by apply lookup_insert_eq.
  rewrite (on_module_run fullname _ st3 m3 Hm3).
  pose proof (patchup_frame modname m3) as (Hs4 & HLD & HN & HP & HCX).
  destruct (_patchup_module modname m3) as [m4 r4] eqn:Hpatch. simpl in *.
  set (st4 := set_module fullname m4 st3).
  assert (universe_ok E st4) as Hok4.
  { apply (universe_ok_update E st3 fullname m3); [done..|].
    intros rank [H1 H2 H3 HC H4 H5].
    split; [by apply Hs4|done|by apply HP| | |].
    - destruct Hs4 as (_ & _ & -> & _). auto.
    - rewrite HLD. by rewrite (proj1 Hs4).
    - by rewrite HLD. }
  assert (ext st st4) as Hext4.
  { eapply ext_trans; [exact Hext1|]. eapply ext_trans; [exact Hext2|].
    eapply ext_trans; [exact Hext3|]. by apply (ext_update st3 fullname m3). }
  destruct r4 as [[]|e|]; simpl; [|by intros [= <- <-]..].
  intros [= <- <-].
  split; [done|]. split; [done|]. intros a [= <-].
  exists m4. split; [apply lookup_insert_eq|].
  destruct (patchup_ok_structure modname m3 m4 Hpatch) as (HAPI & _).
  destruct (patchup_ok_fields modname m3 m4 Hpatch)
    as (_ & _ & _ & _ & _ & _ & _ & HNAME & HPROPS).
  split; [done|]. split; [by rewrite HNAME|]. split; [done|]. split.
  { by eapply patchup_ok_config. }
  rewrite HLD, (proj1 Hs4). simpl. rewrite HDEPS. fold spec.
  eapply resolve_mono; [|exact HQ2]. by intros ? ? ?.
Qed.
End universe_open.

Lemma universe_ok_mark E st name :
  _loaded st !! name = None -> universe_ok E st ->
  universe_ok E (set_loaded name None st) /\ ext st (set_loaded name None st).
Proof.
  intros Hn Hok. split.
  - apply (universe_ok_frame E st); [done| | |done].
    + apply table_le_subseteq. simpl. by apply insert_subseteq.
    + intros md [n Hmd]. simpl in Hmd. exists n.
      destruct (decide (n = name)) as [->|Hne].
      * by rewrite lookup_insert_eq in Hmd.
      * by rewrite lookup_insert_ne in Hmd.
  - split; [simpl; by apply insert_subseteq|].
    intros ref m Hm. exists m. split; [done|apply same_source_refl].
Qed.

(** The step that completes a load. *)
Lemma universe_ok_complete E st name md :
  universe_ok E st -> _loaded st !! name = Some None -> patched E md st ->
  universe_ok E (set_loaded name (Some md) st).
Proof.
  intros [rank Hrank] Hmark (m4 & Hm4 & HAPI & HNAME & HPROPS & HCFG & Hres).
  set (st' := set_loaded name (Some md) st).
  assert (table_le (_loaded st) (_loaded st')) as Hle.
  { intros n x Hx. simpl. rewrite lookup_insert_ne; [done|]. intros <-. congruence. }
  assert (forall x, is_loaded st' x -> x = md \/ is_loaded st x) as Hloaded.
  { intros x [n Hn]. simpl in Hn. destruct (decide (n = name)) as [->|Hne].
    - rewrite lookup_insert_eq in Hn. left. congruence.
    - rewrite lookup_insert_ne in Hn by done. right. by exists n. }
  assert (forall x m, is_loaded st x -> sys_modules st !! x = Some m ->
            module_ok E st rank x m ->
            forall k d, LOADED_DEPS m !! k = Some d -> is_loaded st d) as Hclosed.
  { intros x m _ _ Hmok. eapply resolve_values. apply (ok_resolved _ _ _ _ _ Hmok). }
  destruct (is_loaded_dec st md) as [Hmd|Hmd].
  - exists rank. intros x Hx.
    assert (is_loaded st x) as Hx' by (destruct (Hloaded x Hx) as [->|?]; done).
    destruct (Hrank x Hx') as (m & Hm & Hmok). exists m. split; [done|].
    by eapply module_ok_mono.
  - exists (fun x => if decide (x = md) then S (max_rank rank (LOADED_DEPS m4))
                     else rank x).
    intros x Hx. destruct (decide (x = md)) as [->|Hne].
    + exists m4. split; [done|]. split; [done..| |].
      * by eapply resolve_mono.
      * intros k d Hd.
        assert (is_loaded st d) as Hd' by by eapply resolve_values.
        rewrite decide_False by (intros ->; done). rewrite decide_True by done.
        pose proof (max_rank_le rank _ k d Hd). lia.
    + assert (is_loaded st x) as Hx' by (destruct (Hloaded x Hx) as [->|?]; done).
      destruct (Hrank x Hx') as (m & Hm & Hmok). exists m. split; [done|].
      destruct Hmok as [H1 H2 H3 HC H4 H5]. split; [done..| |].
      * by eapply resolve_mono.
      * intros k d Hd.
        assert (is_loaded st d) as Hd' by by eapply resolve_values.
        rewrite decide_False by (intros ->; done). rewrite decide_False by done.
        by eapply H5.
Qed.

Lemma load_sound E fuel : forall dep,
  sound E (fun md st' => _loaded st' !! unique_name dep = Some (Some md))
    (load E fuel dep).
Proof.
  induction fuel as [|fuel IH]; intros dep; apply sound_intro; intros st Hok st' r;
    simpl.
  { intros [= <- <-]. split; [done|]. split; [apply ext_refl|done]. }
  destruct (_loaded st !! unique_name dep) as [[md|]|] eqn:Hl.
  - intros [= <- <-]. split; [done|]. split; [apply ext_refl|]. by intros a [= <-].
  - intros [= <- <-]. split; [done|]. split; [apply ext_refl|done].
  - destruct (universe_ok_mark E st (unique_name dep) Hl Hok) as [Hoka Hexta].
    destruct (load_recipe_module_module_sound E (load E fuel) IH (_path dep) _ Hoka)
      as (Hok4 & Hext4 & HQ4).
    destruct (_load_recipe_module_module_with _ _ _ _) as [st4 [md|e|]];
      simpl in *; [|intros [= <- <-]; by split; [|split; [eapply ext_trans|]]..].
    intros [= <- <-].
    assert (_loaded st4 !! unique_name dep = Some None) as Hmark.
    { eapply lookup_weaken; [|apply Hext4]. apply lookup_insert_eq. }
    split; [|split].
    + apply universe_ok_complete; [done..|]. by apply HQ4.
    + pose proof (ext_trans _ _ _ Hexta Hext4) as [Ht Hm]. split; [|done].
      simpl. apply map_subseteq_spec. intros k v Hkv.
      rewrite lookup_insert_ne by congruence. by eapply lookup_weaken.
    + intros a [= <-]. apply lookup_insert_eq.
Qed.

Lemma load_all_universe_ok E fuel deps : forall st,
  universe_ok E st -> universe_ok E (load_all E fuel deps st).
Proof.
  induction deps as [|dep deps IH]; intros st Hok; simpl; [done|].
  apply IH. by apply (load_sound E fuel dep).
Qed.

Lemma empty_universe_ok E : universe_ok E empty_state.
Proof. exists (fun _ => 0). intros md [n Hn]. simpl in Hn. by rewrite lookup_empty in Hn. Qed.



(** ** No cycle among loaded modules *)

Lemma heap_deps_lookup (h : gmap ModRef Module) md m :
  h !! md = Some m -> heap_deps h md = LOADED_DEPS m.
Proof. intros Hm. unfold heap_deps. by rewrite Hm. Qed.

Section loaded_rank.
Variable E : Env.
Variable st : State.
Variable rank : ModRef -> nat.
Hypothesis Hrank : forall md, is_loaded st md ->
  exists m, sys_modules st !! md = Some m /\ module_ok E st rank md m.

Lemma loaded_dep md k d :
  is_loaded st md -> heap_deps (sys_modules st) md !! k = Some d ->
  is_loaded st d /\ rank d < rank md.
Proof.
  intros Hmd Hk. destruct (Hrank md Hmd) as (m & Hm & Hmok).
  rewrite (heap_deps_lookup _ md m Hm) in Hk. split.
  - eapply resolve_values; [apply (ok_resolved _ _ _ _ _ Hmok)|exact Hk].
  - by eapply (ok_rank _ _ _ _ _ Hmok).
Qed.

Lemma loaded_chain l : forall md x,
  is_loaded st md -> is_chain (heap_deps (sys_modules st)) (md :: l) ->
  last (md :: l) = Some x ->
  is_loaded st x /\ rank x + List.length l <= rank md.
Proof.
  induction l as [|d l IH]; intros md x Hmd Hl Hlast.
  - simpl in Hlast. simplify_eq. split; [done|simpl; lia].
  - destruct Hl as [[k Hk] Hl].
    destruct (loaded_dep md k d Hmd Hk) as [Hd Hlt].
    destruct (IH d x Hd Hl Hlast) as [Hx Hle]. split; [done|]. simpl. lia.
Qed.

Lemma loaded_chains_bounded md :
  is_loaded st md -> chains_bounded (heap_deps (sys_modules st)) (S (rank md)) md.
Proof.
  intros Hmd l Hl.
  destruct (last (md :: l)) as [x|] eqn:Hlast.
  - destruct (loaded_chain l md x Hmd Hl Hlast) as [_ Hle]. simpl. lia.
  - by apply last_None in Hlast.
Qed.

Lemma loaded_no_cycle md l :
  is_loaded st md -> ~ is_chain (heap_deps (sys_modules st)) ((md :: l) ++ [md]).
Proof.
  intros Hmd Hl.
  destruct (loaded_chain (l ++ [md]) md md Hmd Hl) as [_ Hle].
  { by rewrite app_comm_cons, last_snoc. }
  rewrite length_app in Hle. simpl in Hle. lia.
Qed.
End loaded_rank.

(** X14. The modules a universe has loaded never form a cycle: whatever
    was loaded, and whatever failed, no dependency chain from a loaded
    module leads back to it, the chains from it are bounded, and so
    [DependencyMapper.instantiate] on it returns -- an instance or the
    instantiator's exception -- for any instantiator that returns, from
    any state of the mapper, once that many nested calls are allowed. *)
Theorem loaded_graph_acyclic (E : Env) (fuel : nat) (deps : list Dependency)
    (md : ModRef) :
  is_loaded (load_all E fuel deps empty_state) md ->
  (forall l,
     ~ is_chain (heap_deps (sys_modules (load_all E fuel deps empty_state)))
         ((md :: l) ++ [md])) /\
  exists n,
    chains_bounded (heap_deps (sys_modules (load_all E fuel deps empty_state))) n md /\
    forall (Inst St : Type) (f : ModRef -> gmap string Inst -> M St Inst)
           (s : Mapper Inst St) (fuel' : nat),
      (forall m dd e, snd (f m dd e) <> OutOfFuel) -> n <= fuel' ->
      snd (instantiate (heap_deps (sys_modules (load_all E fuel deps empty_state)))
             f fuel' md s) <> OutOfFuel.
Proof.
  intros Hmd.
  destruct (load_all_universe_ok E fuel deps empty_state (empty_universe_ok E))
    as [rank Hrank].
  split; [intros l; by eapply loaded_no_cycle|].
  exists (S (rank md)).
  pose proof (loaded_chains_bounded E _ rank Hrank md Hmd) as Hb.
  split; [done|]. intros Inst St f s fuel' Hf Hle.
  pose proof (instantiate_returns _ f Hf _ md s Hb) as Hr.
  destruct (instantiate _ f (S (rank md)) md s) as [s' r] eqn:Hrun.
  by rewrite (instantiate_fuel_mono _ f _ fuel' md s s' r Hrun Hr Hle).
Qed.

Lemma loaded_graph_acyclic_witness :
  (forall l,
     ~ is_chain (heap_deps (sys_modules
                   (load_all env_diamond 4 [example_dep "d"] empty_state)))
         (("RECIPE_MODULES.d" :: l) ++ ["RECIPE_MODULES.d"])) /\
  exists n,
    chains_bounded
      (heap_deps (sys_modules (load_all env_diamond 4 [example_dep "d"] empty_state)))
      n "RECIPE_MODULES.d" /\
    forall (Inst St : Type) (f : ModRef -> gmap string Inst -> M St Inst)
           (s : Mapper Inst St) (fuel' : nat),
      (forall m dd e, snd (f m dd e) <> OutOfFuel) -> n <= fuel' ->
      snd (instantiate
             (heap_deps (sys_modules
                (load_all env_diamond 4 [example_dep "d"] empty_state)))
             f fuel' "RECIPE_MODULES.d" s) <> OutOfFuel.
Proof.
  apply (loaded_graph_acyclic env_diamond 4 [example_dep "d"] "RECIPE_MODULES.d").
  exists "/r/recipe_modules/d". vm_compute. reflexivity.
Defined.

(** ** The test API of a loaded universe *)

Section mapper_succeeds.
Context {Inst St : Type}.
Variable deps_of : ModRef -> gmap string ModRef.
Variable f : ModRef -> gmap string Inst -> M St Inst.
(** A set of modules, closed under dependencies, on which the
    instantiator returns an instance. *)
Variable P : ModRef -> Prop.
Hypothesis P_closed : forall m k d, P m -> deps_of m !! k = Some d -> P d.
Hypothesis f_ok : forall m dd e, P m -> is_ok (snd (f m dd e)) = true.


End mapper_succeeds.




(** ** Two packages of one name *)






Example same_name_both_found :
  _dep_from_name env_same_name "step"
    = Ok ("step", {| _path := "/a/step"; _local_name := "step" |}) /\
  _dep_from_name env_same_name "other/step"
    = Ok ("step", {| _path := "/b/step"; _local_name := "step" |}).
Proof. split; vm_compute; reflexivity. Qed.

(** ** Listing the packages *)

Lemma split_slash_app a b :
  split_slash (String.append a (String.append "/" b)) = split_slash a ++ split_slash b.
Proof.
  induction a as [|c a IH]; simpl; [reflexivity|].
  rewrite IH. destruct (os_path.is_slash c); [done|].
  by destruct (split_slash_cons a) as (p & ps & ->).
Qed.

Lemma split_slash_no_slash s : has_slash s = false -> split_slash s = [s].
Proof.
  induction s as [|c s IH]; simpl; [done|].
  destruct (os_path.is_slash c); [done|]. intros H. by rewrite IH.
Qed.

Lemma join_plain d name :
  d <> "" -> os_path.endswith_slash d = false -> has_slash name = false ->
  os_path.join d name = String.append d (String.append "/" name).
Proof.
  intros Hd Hend Hname. unfold os_path.join.
  assert (os_path.isabs name = false) as ->.
  { destruct name as [|c name]; [done|]. simpl in *.
    by destruct (os_path.is_slash c). }
  assert (String.eqb d "" = false) as -> by by apply String.eqb_neq.
  by rewrite Hend.
Qed.

Lemma last_piece_join d name :
  d <> "" -> os_path.endswith_slash d = false -> has_slash name = false ->
  last_piece (os_path.join d name) = name.
Proof.
  intros Hd Hend Hname. rewrite join_plain by done. unfold last_piece.
  rewrite split_slash_app, (split_slash_no_slash name Hname).
  apply last_last.
Qed.

Lemma find_exists {A} (f : A -> bool) l x :
  x ∈ l -> f x = true -> exists y, List.find f l = Some y.
Proof.
  intros Hin Hf. destruct (List.find f l) as [y|] eqn:Hfind; [by exists y|].
  apply list_elem_of_In in Hin. by rewrite (find_none _ _ Hfind x Hin) in Hf.
Qed.

Lemma loop_over_recipe_modules_spec E F modpath :
  modpath ∈ loop_over_recipe_modules E F <->
  exists d item,
    d ∈ module_dirs E /\ isdir E d = true /\ item ∈ listdir F d /\
    modpath = os_path.join d item /\ _is_recipe_module_dir E modpath = true.
Proof.
  unfold loop_over_recipe_modules. rewrite list_elem_of_In, in_flat_map. split.
  - intros (d & Hd & Hin). destruct (isdir E d) eqn:Hdir; [|done].
    apply filter_In in Hin as [Hin Hmod]. apply in_map_iff in Hin as (item & <- & Hitem).
    exists d, item. apply list_elem_of_In in Hd, Hitem. done.
  - intros (d & item & Hd & Hdir & Hitem & -> & Hmod). exists d.
    apply list_elem_of_In in Hd, Hitem. split; [done|]. rewrite Hdir.
    apply filter_In. split; [|done]. apply in_map_iff. by exists item.
Qed.

(** X17. With search roots that are absolute and have no trailing slash,
    and a listing that gives entry names: everything
    [loop_over_recipe_modules] yields is a package directory directly
    under a search root, and the name [main] of doc.py derives from it,
    its last component, is a name [_dep_from_name] accepts.  The
    dependency it stands for is the package of that name in the first
    search root that has one -- the yielded directory itself only if no
    earlier root holds a package of the same name. *)
Theorem listed_modules_resolve (E : Env) (F : FS) (modpath : string) :
  (forall d, d ∈ module_dirs E ->
             os_path.isabs d = true /\ os_path.endswith_slash d = false) ->
  (forall d item, item ∈ listdir F d -> has_slash item = false) ->
  modpath ∈ loop_over_recipe_modules E F ->
  _is_recipe_module_dir E modpath = true /\
  os_path.dirname modpath ∈ module_dirs E /\
  exists first,
    List.find (fun d => _is_recipe_module_dir E (os_path.join d (last_piece modpath)))
      (module_dirs E) = Some first /\
    _dep_from_name E (last_piece modpath)
    = Ok (last_piece modpath,
          {| _path := os_path.join first (last_piece modpath);
             _local_name := last_piece modpath |}) /\
    (os_path.join first (last_piece modpath) = modpath <->
     first = os_path.dirname modpath).
Proof.
  intros Hroots Hlist Hin.
  apply loop_over_recipe_modules_spec in Hin as (d & item & Hd & Hdir & Hitem & -> & Hmod).
  destruct (Hroots d Hd) as [Habs Hend]. specialize (Hlist d item Hitem).
  assert (d <> "") as Hne by (by destruct d).
  rewrite (last_piece_join d item Hne Hend Hlist).
  rewrite (dirname_join d item Hne Hend Hlist).
  split; [done|]. split; [done|].
  destruct (find_exists (fun d => _is_recipe_module_dir E (os_path.join d item))
              (module_dirs E) d Hd Hmod) as [first Hfirst].
  exists first. split; [done|].
  destruct (find_elem_of _ _ _ Hfirst) as [Hfin _].
  destruct (Hroots first Hfin) as [Habs' Hend'].
  destruct (NamedDependency_found E item first Hfirst Habs' Hend' Hlist) as [Hdep Hdirname].
  split.
  - unfold _dep_from_name. by rewrite Hlist, Hdep.
  - split; [|by intros ->]. intros Heq. by rewrite <- Hdirname, Heq, dirname_join.
Qed.

(** Both roots of [env_same_name] list a package [step]; for the one
    under [/b] the name resolves to the one under [/a]. *)
Lemma listed_modules_resolve_witness :
  _is_recipe_module_dir env_same_name "/b/step" = true /\
  os_path.dirname "/b/step" ∈ module_dirs env_same_name /\
  exists first,
    List.find (fun d => _is_recipe_module_dir env_same_name
                          (os_path.join d (last_piece "/b/step")))
      (module_dirs env_same_name) = Some first /\
    _dep_from_name env_same_name (last_piece "/b/step")
    = Ok (last_piece "/b/step",
          {| _path := os_path.join first (last_piece "/b/step");
             _local_name := last_piece "/b/step" |}) /\
    (os_path.join first (last_piece "/b/step") = "/b/step" <->
     first = os_path.dirname "/b/step").
Proof.
  apply (listed_modules_resolve env_same_name fs_same_name "/b/step").
  - intros d Hd. apply elem_of_cons in Hd as [->|Hd]; [done|].
    apply list_elem_of_singleton in Hd as ->. done.
  - intros d item. unfold fs_same_name. simpl.
    destruct (_ || _)%bool.
    + intros Hitem. apply elem_of_cons in Hitem as [->|Hitem]; [done|].
      apply list_elem_of_singleton in Hitem as ->. done.
    + intros Hitem. by apply elem_of_nil in Hitem.
  - apply (bool_decide_unpack _). vm_compute. exact I.
Defined.

Example doc_spec_same_name :
  loop_over_recipe_modules env_same_name fs_same_name = ["/a/step"; "/b/step"] /\
  deps_from_spec env_same_name 2 (SpecDict (doc_spec env_same_name fs_same_name))
    empty_state
  = (fst (load env_same_name 2 {| _path := "/a/step"; _local_name := "step" |}
            empty_state),
     Ok {[ "/a/step" := "RECIPE_MODULES.step"; "/b/step" := "RECIPE_MODULES.step" ]}).
Proof. split; vm_compute; reflexivity. Qed.
